(** * go-sarah: the Runner and the gitter Adapter

    A shallow embedding of [runner.go] (package [sarah]) and of the gitter
    adapter (package [gitter]), together with the properties of the
    orchestration runtime that the specification states about them.

    Goroutines are modelled one at a time: a function of the source becomes a
    computation in a state monad whose state is the part of the world that
    function can observe or change.  What the environment does (results of
    network calls, values arriving on channels, what a [select] on
    [ctx.Done()] observes) is supplied as a script; a computation that needs
    more than the script holds is [Pending], i.e. still blocked. *)

From stdpp Require Import base option list strings gmap.
From Stdlib Require Import ZArith Lia.

Open Scope string_scope.
Open Scope list_scope.

(** ** Go values shared by both packages *)

(** Values of Go's [error] interface that occur in the program.  [nil] is
    [None] of [option error]. *)
Inductive error : Type :=
| EmptyPayloadError                       (* gitter.EmptyPayloadError, a sentinel value *)
| MalformedPayloadError (msg : string)    (* *gitter.MalformedPayloadError *)
| BotNonContinuableError (msg : string)   (* *sarah.BotNonContinuableError *)
| RetryErrors (msgs : list string)        (* what the retry helper reports *)
| ErrorString (msg : string).             (* any other error value *)

(** [err.Error()]; the text of the sentinel is not in the sources. *)
Definition Error (e : error) : string :=
  match e with
  | EmptyPayloadError => "empty payload"
  | MalformedPayloadError m => m
  | BotNonContinuableError m => m
  | RetryErrors ms => String.concat ", " ms
  | ErrorString m => m
  end.

(** Severity of a [log] call. *)
Inductive Level : Type := DebugLevel | InfoLevel | WarnLevel | ErrorLevel.

(** What a call of a function of the program amounts to. *)
Inductive Result (A : Type) : Type :=
| Ret (a : A)            (* the call returned [a] *)
| Pending                (* the call is blocked: the script holds nothing more *)
| Panic (msg : string).  (* the call panicked *)
Arguments Ret {A} a.
Arguments Pending {A}.
Arguments Panic {A} msg.

(** ** The monad of one goroutine over a state [S] *)

Definition M (S A : Type) : Type := S -> Result A * S.

Global Instance M_ret {S} : MRet (M S) := fun A a s => (Ret a, s).

Global Instance M_bind {S} : MBind (M S) := fun A B k m s =>
  match m s with
  | (Ret a, s') => k a s'
  | (Pending, s') => (Pending, s')
  | (Panic msg, s') => (Panic msg, s')
  end.

Definition ret {S A} (a : A) : M S A := mret a.
Definition pending {S A} : M S A := fun s => (Pending, s).
Definition panic {S A} (msg : string) : M S A := fun s => (Panic msg, s).
Definition modify {S} (f : S -> S) : M S unit := fun s => (Ret tt, f s).

(** [for _, x := range xs { body x }] *)
Fixpoint forRange {S A} (xs : list A) (body : A -> M S unit) : M S unit :=
  match xs with
  | [] => ret tt
  | x :: xs' => body x;; forRange xs' body
  end.

(** A state in which [time.Sleep] can be observed; durations are in
    milliseconds. *)
Class Sleeper (S : Type) := sleep : Z -> M S unit.

(** A local variable captured by a closure: the closure runs over the pair of
    the variable and the enclosing state.  [withVar init m] declares the
    variable with value [init], runs [m] and yields the variable's last value
    next to the result of [m]. *)
Definition withVar {V S A} (init : V) (m : M (V * S) A) : M S (V * A) :=
  fun s =>
    match m (init, s) with
    | (Ret a, (v, s')) => (Ret (v, a), s')
    | (Pending, (_, s')) => (Pending, s')
    | (Panic msg, (_, s')) => (Panic msg, s')
    end.

Definition assign {V S} (v : V) : M (V * S) unit :=
  fun vs => (Ret tt, (v, snd vs)).

Definition outer {V S A} (m : M S A) : M (V * S) A :=
  fun vs => let (r, s') := m (snd vs) in (r, (fst vs, s')).

Global Instance pair_Sleeper {V S} `{Sleeper S} : Sleeper (V * S) :=
  fun d => outer (sleep d).

(** ** Package retry *)
Module Retry.

(** Modelled from the spec: package [retry] is not among the sources.  The
    spec describes a bounded-retry helper with a fixed attempt cap and a
    fixed sleep interval between attempts: [function] is called until it
    succeeds, at most [trial] times, sleeping [interval] between two
    attempts; exhausting the cap is reported to the caller as an error. *)
Fixpoint retryLoop {S} `{Sleeper S} (trial : nat) (function : M S (option error))
    (interval : Z) (failures : list string) : M S (option error) :=
  match trial with
  | O => ret (Some (RetryErrors failures))
  | Datatypes.S n =>
      e ← function;
      match e with
      | None => ret None
      | Some err =>
          match n with
          | O => ret (Some (RetryErrors (failures ++ [Error err])))
          | _ => sleep interval;;
                 retryLoop n function interval (failures ++ [Error err])
          end
      end
  end.

(** Modelled from the spec: [retry.RetryInterval(trial, function, interval)],
    the entry point of the helper above. *)
Definition RetryInterval {S} `{Sleeper S} (trial : nat)
    (function : M S (option error)) (interval : Z) : M S (option error) :=
  retryLoop trial function interval [].

End Retry.

(** ** Package gitter *)
Module Gitter.

(** [context.Context] values are told apart by an identifier. *)
Definition Context : Type := nat.

(** [Room]: only its [ID] is used by the adapter. *)
Record Room : Type := { ID : string }.

(** [Rooms] is a slice of [*Room]. *)
Definition Rooms : Type := list Room.

(** A received message, [sarah.BotInput]: the adapter forwards it untouched. *)
Record BotInput : Type := { roomID : string; text : string }.

(** What one call of [messageReceiver.Receive()] returns. *)
Record Received : Type := { message : option BotInput; err : option error }.

(** A [Connection] (it is also the [MessageReceiver]): the results its
    successive [Receive] calls will give.  [Receive] blocks once they are
    used up. *)
Record Connection : Type := { connID : nat; incoming : list Received }.

(** Dynamically typed values ([interface{}]) as [SendMessage] tells them
    apart: by their dynamic type. *)
Inductive Dyn : Type :=
| DNil
| DString (s : string)
| DRoomPtr (room : option Room)     (* a [*Room], possibly a nil pointer *)
| DOther (typeName : string).

(** [sarah.BotOutput]: what its [Content()] and [Destination()] return. *)
Record BotOutput : Type := { Content : Dyn; Destination : Dyn }.

Inductive LogArg : Type :=
| LStr (s : string)
| LErr (e : error)
| LDyn (d : Dyn)
| LOutput (o : BotOutput).

(** What the adapter does that can be observed from outside. *)
Inductive Event : Type :=
| EvLog (lv : Level) (format : string) (args : list LogArg)
| EvRooms (ctx : Context)                         (* restAPIClient.Rooms(ctx) *)
| EvConnect (ctx : Context) (room : Room)         (* streamingAPIClient.Connect(ctx, room) *)
| EvSleep (ms : Z)                                (* time.Sleep inside retry *)
| EvInput (m : option BotInput)                   (* receivedMessage <- m *)
| EvClose (conn : nat)                            (* conn.Close() *)
| EvErrCh (e : error)                             (* errCh <- e *)
| EvGo (ctx : Context) (room : Room)              (* go adapter.runEachRoom(ctx, room, ...) *)
| EvPostMessage (ctx : Context) (room : option Room) (content : string).

(** The world of the adapter: the REST and streaming clients answer their
    n-th call as the scripts say; [trace] lists the events so far, oldest
    first. *)
Record World : Type := {
  roomsScript : nat -> option Rooms * option error;
  roomsCalls : nat;
  connectScript : nat -> option Connection * option error;
  connectCalls : nat;
  trace : list Event
}.

(** The world after the events [evs]. *)
Definition record (evs : list Event) (w : World) : World :=
  {| roomsScript := roomsScript w; roomsCalls := roomsCalls w;
     connectScript := connectScript w; connectCalls := connectCalls w;
     trace := trace w ++ evs |}.

Definition emit (e : Event) : M World unit := modify (record [e]).

Definition logf (lv : Level) (format : string) (args : list LogArg) : M World unit :=
  emit (EvLog lv format args).

(** [log.Error(v)] with one argument prints it as ["%v"] does. *)
Definition logv (lv : Level) (v : LogArg) : M World unit :=
  emit (EvLog lv "%v" [v]).

Global Instance World_Sleeper : Sleeper World := fun d => emit (EvSleep d).

(** [adapter.restAPIClient.Rooms(ctx)]: the client is not among the sources,
    its answers are the script of the world. *)
Definition restRooms (ctx : Context) : M World (option Rooms * option error) :=
  fun w =>
    (Ret (roomsScript w (roomsCalls w)),
     {| roomsScript := roomsScript w; roomsCalls := S (roomsCalls w);
        connectScript := connectScript w; connectCalls := connectCalls w;
        trace := trace w ++ [EvRooms ctx] |}).

(** [adapter.streamingAPIClient.Connect(ctx, room)]: likewise. *)
Definition streamingConnect (ctx : Context) (room : Room)
  : M World (option Connection * option error) :=
  fun w =>
    (Ret (connectScript w (connectCalls w)),
     {| roomsScript := roomsScript w; roomsCalls := roomsCalls w;
        connectScript := connectScript w; connectCalls := S (connectCalls w);
        trace := trace w ++ [EvConnect ctx room] |}).

(** Modelled from the spec: [sarah.NewBotAdapterNonContinuableError] is not
    among the sources.  The spec has the adapter push a fatal error marker,
    distinguishable as non-continuable, onto the error channel: the
    constructor wraps its message into that marker. *)
Definition NewBotAdapterNonContinuableError (msg : string) : error :=
  BotNonContinuableError msg.

(** The loop of [receiveMessageRecursive], by recursion on the results that
    [Receive] will give. *)
Fixpoint receiveLoop (results : list Received) : M World error :=
  match results with
  | [] => pending
  | r :: rest =>
      match err r with
      | Some EmptyPayloadError => receiveLoop rest
      | Some (MalformedPayloadError m) =>
          logf WarnLevel "skipping malformed input: %s" [LErr (MalformedPayloadError m)];;
          receiveLoop rest
      | Some e => ret e
      | None => emit (EvInput (message r));; receiveLoop rest
      end
  end.

(** [receiveMessageRecursive]; calling [Receive] on a nil receiver panics. *)
Definition receiveMessageRecursive (messageReceiver : option Connection)
  : M World (option error) :=
  logf InfoLevel "start receiving message" [];;
  match messageReceiver with
  | None => panic "invalid memory address or nil pointer dereference"
  | Some receiver => e ← receiveLoop (incoming receiver); ret (Some e)
  end.

(** [conn.Close()] *)
Definition closeConn (conn : option Connection) : M World unit :=
  match conn with
  | None => panic "invalid memory address or nil pointer dereference"
  | Some c => emit (EvClose (connID c))
  end.

(** The closure [connectRoom] hands to [retry.RetryInterval]; it assigns the
    captured variable [conn]. *)
Definition connectAttempt (ctx : Context) (room : Room)
  : M (option Connection * World) (option error) :=
  re ← outer (streamingConnect ctx room);
  match snd re with
  | Some e => outer (logv ErrorLevel (LErr e))
  | None => ret tt
  end;;
  assign (fst re);;
  ret (snd re).

(** [connectRoom] returns the pair (conn, err). *)
Definition connectRoom (ctx : Context) (room : Room)
  : M World (option Connection * option error) :=
  withVar None (Retry.RetryInterval 10 (connectAttempt ctx room) 500).

(** The closure [fetchRooms] hands to [retry.RetryInterval]; it assigns the
    captured variable [rooms]. *)
Definition fetchAttempt (ctx : Context) : M (option Rooms * World) (option error) :=
  re ← outer (restRooms ctx);
  assign (fst re);;
  ret (snd re).

(** [fetchRooms] returns the pair (rooms, err). *)
Definition fetchRooms (ctx : Context) : M World (option Rooms * option error) :=
  withVar None (Retry.RetryInterval 10 (fetchAttempt ctx) 500).

(** A send on [errCh], as [errCh <- e]: it completes when a receiver takes
    the value (or the channel has room for it) and blocks otherwise; [ready]
    tells which. *)
Definition sendErr (ready : bool) (e : error) : M World unit :=
  if ready then emit (EvErrCh e) else pending.

(** [Run]: the goroutines it starts are recorded, not run.  Of its parameter
    [errCh], [errChReady] tells whether a send on it completes. *)
Definition Run (errChReady : bool) (ctx : Context) : M World unit :=
  re ← fetchRooms ctx;
  match snd re with
  | Some e => sendErr errChReady (NewBotAdapterNonContinuableError (Error e))
  | None =>
      match fst re with
      | None => panic "invalid memory address or nil pointer dereference"
      | Some rooms => forRange rooms (fun room => emit (EvGo ctx room))
      end
  end.

Definition SendMessage (ctx : Context) (output : BotOutput) : M World unit :=
  match Content output with
  | DString content =>
      match Destination output with
      | DRoomPtr room => emit (EvPostMessage ctx room content)
      | _ => logf ErrorLevel "Destination is not instance of Room. %#v."
               [LDyn (Destination output)]
      end
  | _ => logf WarnLevel "unexpected output %#v" [LOutput output]
  end.

(** [runEachRoom], generic in the receive function so that both outcomes of
    [connErr == nil] can be stated.  Every turn of the loop starts with a
    [select] on [ctx.Done()]; [dones] tells what each of them observes. *)
Fixpoint runEachRoomWith (receive : option Connection -> M World (option error))
    (dones : list bool) (ctx : Context) (room : Room) : M World unit :=
  match dones with
  | [] => pending
  | true :: _ => ret tt
  | false :: dones' =>
      logf InfoLevel "connecting to room: %s" [LStr (ID room)];;
      ce ← connectRoom ctx room;
      match snd ce with
      | Some _ => logf WarnLevel "could not connect to room: %s" [LStr (ID room)]
      | None =>
          connErr ← receive (fst ce);
          closeConn (fst ce);;
          match connErr with
          | None => ret tt
          | Some e =>
              logv ErrorLevel (LStr (Error e));;
              runEachRoomWith receive dones' ctx room
          end
      end
  end.

Definition runEachRoom : list bool -> Context -> Room -> M World unit :=
  runEachRoomWith receiveMessageRecursive.

(** *** Reading a trace *)

(** The world once the streaming client has been called [calls] times in
    all and the trace has become [tr]; likewise for the REST client. *)
Definition withConnects (calls : nat) (tr : list Event) (w : World) : World :=
  {| roomsScript := roomsScript w; roomsCalls := roomsCalls w;
     connectScript := connectScript w; connectCalls := calls;
     trace := tr |}.

Definition withRooms (calls : nat) (tr : list Event) (w : World) : World :=
  {| roomsScript := roomsScript w; roomsCalls := calls;
     connectScript := connectScript w; connectCalls := connectCalls w;
     trace := tr |}.

(** The events of the [p]-th call of [Connect] made through [connectRoom]. *)
Definition connectEvents (w : World) (ctx : Context) (room : Room) (p : nat) : list Event :=
  match snd (connectScript w p) with
  | Some e => [EvConnect ctx room; EvLog ErrorLevel "%v" [LErr e]]
  | None => [EvConnect ctx room]
  end.

(** The events of [k] attempts to connect, from call [p] on, each followed by
    the sleep before the next attempt. *)
Definition connectRetries (w : World) (ctx : Context) (room : Room) (p k : nat) : list Event :=
  flat_map (fun i => connectEvents w ctx room i ++ [EvSleep 500]) (seq p k).

(** The same for [k] attempts to fetch the rooms. *)
Definition fetchRetries (ctx : Context) (k : nat) : list Event :=
  flat_map (fun _ : nat => [EvRooms ctx; EvSleep 500]) (seq 0 k).

(** How many times the streaming client, the REST client were called. *)
Definition connectAttempts (evs : list Event) : nat :=
  length (List.filter (fun ev => match ev with EvConnect _ _ => true | _ => false end) evs).

Definition fetchAttempts (evs : list Event) : nat :=
  length (List.filter (fun ev => match ev with EvRooms _ => true | _ => false end) evs).

(** How many of the calls [p .. p+n-1] of a client succeeded. *)
Definition succeeded {A} (script : nat -> option A * option error) (p n : nat) : nat :=
  length (List.filter (fun i => match snd (script i) with None => true | Some _ => false end)
            (seq p n)).

(** The messages of the errors of calls [p .. p+k-1]. *)
Definition failureMessages {A} (script : nat -> option A * option error) (p k : nat)
  : list string :=
  map (fun i => match snd (script (p + i)) with Some e => Error e | None => "" end)
      (seq 0 k).

(** The messages put on [receivedMessage], in order. *)
Definition forwarded (evs : list Event) : list (option BotInput) :=
  omap (fun ev => match ev with EvInput m => Some m | _ => None end) evs.

(** The log calls, in order. *)
Definition logged (evs : list Event) : list (Level * string * list LogArg) :=
  omap (fun ev => match ev with EvLog lv f a => Some (lv, f, a) | _ => None end) evs.

(** The rooms for which a [runEachRoom] goroutine was started, in order. *)
Definition spawned (evs : list Event) : list Room :=
  omap (fun ev => match ev with EvGo _ room => Some room | _ => None end) evs.

(** The errors put on [errCh], in order. *)
Definition signalled (evs : list Event) : list error :=
  omap (fun ev => match ev with EvErrCh e => Some e | _ => None end) evs.

(** The dynamic type tests of [SendMessage]: the [case string] of the type
    switch and the type assertion to [*Room]. *)
Definition isString (d : Dyn) : bool :=
  match d with DString _ => true | _ => false end.

Definition isRoomPtr (d : Dyn) : bool :=
  match d with DRoomPtr _ => true | _ => false end.

(** What the adapter relies on from the REST client: a room list comes with
    every nil error. *)
Definition roomsContract (w : World) : Prop :=
  forall i, snd (roomsScript w i) = None -> is_Some (fst (roomsScript w i)).

(** A result of [Receive] that ends the receive loop: an error that is
    neither the keep-alive sentinel nor a malformed payload. *)
Definition fatal (r : Received) : bool :=
  match err r with
  | None | Some EmptyPayloadError | Some (MalformedPayloadError _) => false
  | Some _ => true
  end.

(** The messages of the results received without error. *)
Definition received (results : list Received) : list (option BotInput) :=
  omap (fun r => match err r with None => Some (message r) | Some _ => None end) results.

(** The warnings due for the malformed payloads among [results]. *)
Definition malformedWarnings (results : list Received) : list (Level * string * list LogArg) :=
  omap (fun r => match err r with
                 | Some (MalformedPayloadError m) =>
                     Some (WarnLevel, "skipping malformed input: %s",
                           [LErr (MalformedPayloadError m)])
                 | _ => None
                 end) results.

(** The events the receive loop leaves for results none of which is fatal. *)
Definition loopEvents (results : list Received) : list Event :=
  omap (fun r => match err r with
                 | None => Some (EvInput (message r))
                 | Some (MalformedPayloadError m) =>
                     Some (EvLog WarnLevel "skipping malformed input: %s"
                             [LErr (MalformedPayloadError m)])
                 | Some _ => None
                 end) results.

(** *** Sample worlds *)

Definition lobby : Room := {| ID := "lobby" |}.

Definition hello : BotInput := {| roomID := "lobby"; text := "hello" |}.

(** A connection that delivers one message and then breaks. *)
Definition shortLived : Connection :=
  {| connID := 7;
     incoming := [ {| message := Some hello; err := None |};
                   {| message := None; err := Some (ErrorString "EOF") |} ] |}.

(** Both clients fail twice and answer from their third call on. *)
Definition flakyWorld : World :=
  {| roomsScript := fun n => if Nat.ltb n 2 then (None, Some (ErrorString "timeout"))
                             else (Some [lobby], None);
     roomsCalls := 0;
     connectScript := fun n => if Nat.ltb n 2 then (None, Some (ErrorString "refused"))
                               else (Some shortLived, None);
     connectCalls := 0;
     trace := [] |}.

(** Both clients fail for ever. *)
Definition deadWorld : World :=
  {| roomsScript := fun _ => (None, Some (ErrorString "timeout"));
     roomsCalls := 0;
     connectScript := fun _ => (None, Some (ErrorString "refused"));
     connectCalls := 0;
     trace := [] |}.

(** A connection that the streaming client hands out together with an
    error. *)
Definition halfOpen : Connection := {| connID := 1; incoming := [] |}.

(** The streaming client gives [halfOpen] with an error at its first call
    and answers properly from the second on. *)
Definition leakyWorld : World :=
  {| roomsScript := fun _ => (Some [lobby], None);
     roomsCalls := 0;
     connectScript := fun n => if Nat.eqb n 0
                               then (Some halfOpen, Some (ErrorString "handshake"))
                               else (Some shortLived, None);
     connectCalls := 0;
     trace := [] |}.

(** *** More readings of a trace *)

(** The sleeps, in order, in milliseconds. *)
Definition slept (evs : list Event) : list Z :=
  omap (fun ev => match ev with EvSleep ms => Some ms | _ => None end) evs.

(** The connections closed, in order. *)
Definition closed (evs : list Event) : list nat :=
  omap (fun ev => match ev with EvClose c => Some c | _ => None end) evs.

(** The messages posted through the REST client, in order. *)
Definition posted (evs : list Event) : list (Context * option Room * string) :=
  omap (fun ev => match ev with EvPostMessage c r m => Some (c, r, m) | _ => None end) evs.

(** A keep-alive: the result of [Receive] that carries [EmptyPayloadError]. *)
Definition keepAlive (r : Received) : bool :=
  match err r with
  | Some EmptyPayloadError => true
  | _ => false
  end.

(** The results of a connection up to its first fatal one. *)
Fixpoint beforeFatal (results : list Received) : list Received :=
  match results with
  | [] => []
  | r :: rest => if fatal r then [] else r :: beforeFatal rest
  end.

(** The events of connecting: calls of the streaming client, log entries
    and sleeps. *)
Definition chatter (ev : Event) : Prop :=
  match ev with
  | EvLog _ _ _ | EvConnect _ _ | EvSleep _ => True
  | _ => False
  end.

(** What [SendMessage] posts for an output, if anything. *)
Definition deliverable (ctx : Context) (output : BotOutput)
  : option (Context * option Room * string) :=
  match Content output, Destination output with
  | DString content, DRoomPtr room => Some (ctx, room, content)
  | _, _ => None
  end.

(** The connections that the calls [p .. p+n-1] of the streaming client
    give without error.  A connection given together with an error is not
    among them: [connectRoom] keeps it in [conn] only until the next
    attempt, or returns it with the error to [runEachRoom], which does not
    look at it. *)
Definition established (script : nat -> option Connection * option error) (p n : nat)
  : list Connection :=
  omap (fun i => match script i with
                 | (Some c, None) => Some c
                 | _ => None
                 end) (seq p n).

End Gitter.

(** ** Package sarah: the Runner *)
Module Sarah.

Definition BotType : Type := string.

(** A [context.Context] is the path from itself up to the root context:
    [context.WithCancel(ctx)] makes [n :: ctx] for a fresh [n], and
    [context.Background()] is [[]]. *)
Definition Context : Type := list nat.

(** Channels and captured variables are told apart by a number. *)
Definition Chan : Type := nat.
Definition Loc : Type := nat.

Definition OutputDestination : Type := string.

(** [Input]: its payload and what [ReplyTo()] returns. *)
Record Input : Type := { payload : string; ReplyTo : OutputDestination }.

(** [PluginResponse]; only [Content] is read. *)
Record PluginResponse : Type := { Content : string }.

Record OutputMessage : Type := { destination : OutputDestination; content : string }.

(** Modelled from the spec: [NewOutputMessage] is not among the sources; the
    output it builds carries the given destination and content, which is
    what the spec's end-to-end property observes of a [SendMessage] call. *)
Definition NewOutputMessage (dest : OutputDestination) (c : string) : OutputMessage :=
  {| destination := dest; content := c |}.

Definition Command : Type := string.

(** A built scheduled task: [task.Identifier], [task.config.Schedule()],
    [task.config.Destination()] and the outcome of [task.Execute(ctx)]. *)
Record ScheduledTask : Type := {
  Identifier : string;
  Schedule : string;
  Destination : OutputDestination;
  Execute : Context -> option PluginResponse * option error
}.

(** The [Bot] interface, as far as the runner uses it: [AppendCommand],
    [SendMessage] and [Run] are observed as events. *)
Record Bot : Type := {
  botName : string;
  GetBotType : BotType;
  PluginConfigDir : string;
  Respond : Context -> Input -> option PluginResponse * option error
}.

(** The [Adapter] interface, as far as the runner uses it. *)
Record Adapter : Type := { adapterName : string; AdapterBotType : BotType }.

(** [Config]: [config.worker.queueSize] and [config.worker.superviseInterval]. *)
Record Config : Type := { queueSize : nat; superviseInterval : Z }.

(** The job that [respond] enqueues: a closure over its parameters [botCtx]
    and [bot] and over [input], a variable of one turn of its loop. *)
Record Job : Type := { jobCtx : Context; jobBot : Bot; jobInput : Input }.

(** The function that [Run] hands to [cron.AddFunc].  It refers to [task], the
    variable of the inner [for ... range], and to [bot], the variable of the
    outer one; a closure holds such a variable itself, not the value it had
    when the closure was made, and a [for ... range] statement has one
    variable for all its iterations.  [botCtx] is declared anew in every
    iteration and never assigned again, so its value stands for it. *)
Record TaskFunc : Type := { taskVar : Loc; funcCtx : Context; botVar : Loc }.

(** What a captured variable holds. *)
Inductive Value : Type :=
| VBot (b : Bot)
| VTask (t : ScheduledTask).

(** The goroutines [Run] starts. *)
Inductive Goroutine : Type :=
| GoRespond (botCtx : Context) (bot : Bot) (inputReceiver : Chan)
| GoStopUnrecoverableBot (errCh : Chan) (cancelBot : Context)
| GoBotRun (bot : Bot) (botCtx : Context) (inputReceiver errCh : Chan).

Inductive LogArg : Type :=
| LStr (s : string)
| LInput (i : Input).

Inductive Event : Type :=
| EvLog (lv : Level) (format : string) (args : list LogArg)
| EvWorkerRun (ctx : Context) (size : nat) (interval : Z)   (* runner.worker.Run(...) *)
| EvAppendCommand (bot : Bot) (command : Command)           (* bot.AppendCommand(command) *)
| EvCronStart                                               (* runner.cron.Start() *)
| EvExecute (task : string) (ctx : Context)                 (* task.Execute(ctx) *)
| EvRespond (bot : Bot) (ctx : Context) (input : Input)     (* bot.Respond(ctx, input) *)
| EvSendMessage (bot : Bot) (ctx : Context) (m : OutputMessage).

(** The runner and what surrounds it. *)
Record State : Type := {
  config : Config;                       (* runner.config *)
  bots : list Bot;                       (* runner.bots *)
  queue : list Job;                      (* the job queue of runner.worker, oldest first *)
  entries : list (string * TaskFunc);    (* the entries of runner.cron *)
  heap : gmap Loc Value;                 (* the variables captured by closures *)
  cancelled : list Context;              (* the contexts whose cancel function was called *)
  goroutines : list Goroutine;           (* the goroutines started, oldest first *)
  fresh : nat;                           (* the next unused number *)
  trace : list Event                     (* oldest first *)
}.

Definition set_bots (f : list Bot -> list Bot) (st : State) : State :=
  {| config := config st; bots := f (bots st); queue := queue st; entries := entries st;
     heap := heap st; cancelled := cancelled st; goroutines := goroutines st;
     fresh := fresh st; trace := trace st |}.

Definition set_queue (f : list Job -> list Job) (st : State) : State :=
  {| config := config st; bots := bots st; queue := f (queue st); entries := entries st;
     heap := heap st; cancelled := cancelled st; goroutines := goroutines st;
     fresh := fresh st; trace := trace st |}.

Definition set_entries (f : list (string * TaskFunc) -> list (string * TaskFunc))
    (st : State) : State :=
  {| config := config st; bots := bots st; queue := queue st; entries := f (entries st);
     heap := heap st; cancelled := cancelled st; goroutines := goroutines st;
     fresh := fresh st; trace := trace st |}.

Definition set_heap (f : gmap Loc Value -> gmap Loc Value) (st : State) : State :=
  {| config := config st; bots := bots st; queue := queue st; entries := entries st;
     heap := f (heap st); cancelled := cancelled st; goroutines := goroutines st;
     fresh := fresh st; trace := trace st |}.

Definition set_cancelled (f : list Context -> list Context) (st : State) : State :=
  {| config := config st; bots := bots st; queue := queue st; entries := entries st;
     heap := heap st; cancelled := f (cancelled st); goroutines := goroutines st;
     fresh := fresh st; trace := trace st |}.

Definition set_goroutines (f : list Goroutine -> list Goroutine) (st : State) : State :=
  {| config := config st; bots := bots st; queue := queue st; entries := entries st;
     heap := heap st; cancelled := cancelled st; goroutines := f (goroutines st);
     fresh := fresh st; trace := trace st |}.

Definition set_fresh (f : nat -> nat) (st : State) : State :=
  {| config := config st; bots := bots st; queue := queue st; entries := entries st;
     heap := heap st; cancelled := cancelled st; goroutines := goroutines st;
     fresh := f (fresh st); trace := trace st |}.

(** The state after the events [evs]. *)
Definition record (evs : list Event) (st : State) : State :=
  {| config := config st; bots := bots st; queue := queue st; entries := entries st;
     heap := heap st; cancelled := cancelled st; goroutines := goroutines st;
     fresh := fresh st; trace := trace st ++ evs |}.

Definition emit (e : Event) : M State unit := modify (record [e]).

Definition logf (lv : Level) (format : string) (args : list LogArg) : M State unit :=
  emit (EvLog lv format args).

Definition get : M State State := fun st => (Ret st, st).

(** A fresh number. *)
Definition next : M State nat := fun st => (Ret (fresh st), set_fresh S st).

(** Declaring a variable that a closure captures; assigning it. *)
Definition declare : M State Loc := next.

Definition store (l : Loc) (v : Value) : M State unit := modify (set_heap <[l := v]>).

(** [make(chan ...)] *)
Definition makeChan : M State Chan := next.

(** [go f(...)] *)
Definition go (g : Goroutine) : M State unit := modify (set_goroutines (fun gs => gs ++ [g])).

(** [context.WithCancel(ctx)]: the child context; its cancel function is
    [cancel] of that child. *)
Definition WithCancel (ctx : Context) : M State Context :=
  n ← next; ret (n :: ctx).

Definition cancel (ctx : Context) : M State unit :=
  modify (set_cancelled (fun cs => cs ++ [ctx])).

(** The contexts [ctx] descends from, itself first. *)
Fixpoint lineage (ctx : Context) : list Context :=
  match ctx with
  | [] => [[]]
  | n :: parent => (n :: parent) :: lineage parent
  end.

(** [ctx.Done()] is closed: [ctx] or a context it descends from was
    cancelled. *)
Definition isDone (st : State) (ctx : Context) : bool :=
  existsb (fun c => bool_decide (c ∈ cancelled st)) (lineage ctx).

(** [NewRunner(config)] *)
Definition NewRunner (cfg : Config) : State :=
  {| config := cfg; bots := []; queue := []; entries := []; heap := ∅;
     cancelled := []; goroutines := []; fresh := 0; trace := [] |}.

(** [runner.RegisterBot(bot)] *)
Definition RegisterBot (bot : Bot) : M State unit :=
  modify (set_bots (fun bs => bs ++ [bot])).

(** Modelled from the spec: package [worker] is not among the sources.  The
    spec gives the pool a bounded queue: the job is accepted, or the caller
    is blocked while the queue is full. *)
Definition workerEnqueueJob (job : Job) : M State unit :=
  fun st =>
    if Nat.ltb (length (queue st)) (queueSize (config st))
    then (Ret tt, set_queue (fun q => q ++ [job]) st)
    else (Pending, st).

(** [runner.EnqueueJob(job)] *)
Definition EnqueueJob (job : Job) : M State unit := workerEnqueueJob job.

(** The loop at the head of [RegisterAdapter], over the stored bots. *)
Definition conflictCheck (adapter : Adapter) (stored : list Bot) : M State unit :=
  forRange stored (fun bot =>
    if String.eqb (GetBotType bot) (AdapterBotType adapter)
    then panic ("BotType (" +:+ AdapterBotType adapter
                +:+ ") conflicted with stored Adapter.")
    else ret tt).

Section Runner.
(** Not among the sources: the constructor of the default [Bot] and the
    stashes of command and scheduled-task builders, which [Run] compiles for
    a BotType and a plugin configuration directory. *)
Variable newBot : Adapter -> string -> Bot.
Variable buildCommands : BotType -> string -> list Command.
Variable buildTasks : BotType -> string -> list ScheduledTask.
(** Not among the sources either: the parser of the cron library, which
    gives the error of a schedule it cannot parse. *)
Variable parseSchedule : string -> option error.

(** [cron.AddFunc(spec, cmd)] of the cron library: the error of parsing
    [spec], and then no entry, or a new entry and nil. *)
Definition cronAddFunc (spec : string) (cmd : TaskFunc) : M State (option error) :=
  match parseSchedule spec with
  | Some e => ret (Some e)
  | None => modify (set_entries (fun es => es ++ [(spec, cmd)]));; ret None
  end.

(** [runner.RegisterAdapter(adapter, pluginConfigDir)] *)
Definition RegisterAdapter (adapter : Adapter) (pluginConfigDir : string) : M State unit :=
  st ← get;
  conflictCheck adapter (bots st);;
  RegisterBot (newBot adapter pluginConfigDir).

(** The body of the function handed to [cron.AddFunc], run when cron fires
    it: [task] and [bot] are read from the captured variables then. *)
Definition fire (f : TaskFunc) : M State unit :=
  st ← get;
  match heap st !! taskVar f, heap st !! botVar f with
  | Some (VTask task), Some (VBot bot) =>
      emit (EvExecute (Identifier task) (funcCtx f));;
      let re := Execute task (funcCtx f) in
      match snd re with
      | Some _ => logf ErrorLevel "error on scheduled task: %s" [LStr (Identifier task)]
      | None =>
          match fst re with
          | None => ret tt
          | Some res =>
              emit (EvSendMessage bot (funcCtx f)
                      (NewOutputMessage (Destination task) (Content res)))
          end
      end
  | _, _ => panic "unbound variable"
  end.

(** The body of the outer loop of [Run], for the bot [b] that the loop
    variable [bot] (at [botLoc]) holds in this iteration.  What
    [cron.AddFunc] returns is dropped. *)
Definition runBot (ctx : Context) (botLoc : Loc) (b : Bot) : M State unit :=
  store botLoc (VBot b);;
  logf InfoLevel "starting %s" [LStr (GetBotType b)];;
  botCtx ← WithCancel ctx;
  forRange (buildCommands (GetBotType b) (PluginConfigDir b))
    (fun command => emit (EvAppendCommand b command));;
  taskLoc ← declare;
  forRange (buildTasks (GetBotType b) (PluginConfigDir b))
    (fun t =>
       store taskLoc (VTask t);;
       _ ← cronAddFunc (Schedule t)
             {| taskVar := taskLoc; funcCtx := botCtx; botVar := botLoc |};
       ret tt);;
  inputReceiver ← makeChan;
  errCh ← makeChan;
  go (GoRespond botCtx b inputReceiver);;
  go (GoStopUnrecoverableBot errCh botCtx);;
  go (GoBotRun b botCtx inputReceiver errCh).

(** [runner.Run(ctx)] *)
Definition Run (ctx : Context) : M State unit :=
  st ← get;
  emit (EvWorkerRun ctx (queueSize (config st)) (superviseInterval (config st)));;
  botLoc ← declare;
  forRange (bots st) (runBot ctx botLoc);;
  emit EvCronStart.

End Runner.

(** [stopUnrecoverableBot]; [errs] is what arrives on [errNotifier], and
    [stopBot] the context that the cancel function cancels. *)
Fixpoint stopUnrecoverableBot (errs : list (option error)) (stopBot : Context)
  : M State unit :=
  match errs with
  | [] => pending
  | Some (BotNonContinuableError m) :: _ =>
      logf ErrorLevel "stop unrecoverable bot: %s" [LStr (Error (BotNonContinuableError m))];;
      cancel stopBot
  | _ :: rest => stopUnrecoverableBot rest stopBot
  end.

(** Which case of the [select] in [respond] is taken. *)
Inductive Selected : Type :=
| CtxDone
| Received (input : Input).

(** [runner.respond(botCtx, bot, inputReceiver)]; [selects] is what its
    successive [select]s take. *)
Fixpoint respond (selects : list Selected) (botCtx : Context) (bot : Bot) : M State unit :=
  match selects with
  | [] => pending
  | CtxDone :: _ =>
      logf InfoLevel "stop responding to message due to context cancel" []
  | Received input :: rest =>
      logf DebugLevel "responding to %#v" [LInput input];;
      EnqueueJob {| jobCtx := botCtx; jobBot := bot; jobInput := input |};;
      respond rest botCtx bot
  end.

(** A worker runs a job taken from the queue: the body of the closure made
    in [respond]. *)
Definition runJob (job : Job) : M State unit :=
  emit (EvRespond (jobBot job) (jobCtx job) (jobInput job));;
  let re := Respond (jobBot job) (jobCtx job) (jobInput job) in
  match snd re with
  | Some e =>
      logf ErrorLevel "error on message handling. input: %#v. error: %s."
        [LInput (jobInput job); LStr (Error e)]
  | None =>
      match fst re with
      | None => ret tt
      | Some res =>
          emit (EvSendMessage (jobBot job) (jobCtx job)
                  (NewOutputMessage (ReplyTo (jobInput job)) (Content res)))
      end
  end.

(** *** Reading a trace *)

(** The [SendMessage] calls, in order. *)
Definition sent (evs : list Event) : list (Bot * Context * OutputMessage) :=
  omap (fun ev => match ev with EvSendMessage b c m => Some (b, c, m) | _ => None end) evs.

(** The log calls, in order. *)
Definition logged (evs : list Event) : list (Level * string * list LogArg) :=
  omap (fun ev => match ev with EvLog lv f a => Some (lv, f, a) | _ => None end) evs.

(** The tasks executed, in order. *)
Definition executed (evs : list Event) : list string :=
  omap (fun ev => match ev with EvExecute t _ => Some t | _ => None end) evs.

(** The contexts given to the [bot.Run] goroutines, and the contexts that
    the [stopUnrecoverableBot] goroutines can cancel, in order. *)
Definition botContexts (gs : list Goroutine) : list Context :=
  omap (fun g => match g with GoBotRun _ c _ _ => Some c | _ => None end) gs.

Definition stopContexts (gs : list Goroutine) : list Context :=
  omap (fun g => match g with GoStopUnrecoverableBot _ c => Some c | _ => None end) gs.

(** The bot contexts are children of [ctx] made from numbers already used. *)
Definition childrenOf (ctx : Context) (st : State) : Prop :=
  forall c, c ∈ botContexts (goroutines st) -> exists n, c = n :: ctx /\ n < fresh st.

(** An error that makes [stopUnrecoverableBot] stop the bot. *)
Definition nonContinuable (e : option error) : bool :=
  match e with
  | Some (BotNonContinuableError _) => true
  | _ => false
  end.

(** The job [respond] makes for an input. *)
Definition jobFor (botCtx : Context) (bot : Bot) (input : Input) : Job :=
  {| jobCtx := botCtx; jobBot := bot; jobInput := input |}.

(** The tasks whose schedule cron can parse. *)
Definition accepted (parseSchedule : string -> option error) (t : ScheduledTask) : bool :=
  match parseSchedule (Schedule t) with
  | None => true
  | Some _ => false
  end.

(** The state after the inner loop of [Run] went through [ts]. *)
Definition addTasks (parseSchedule : string -> option error) (taskLoc botLoc : Loc)
    (botCtx : Context) (ts : list ScheduledTask) (st : State) : State :=
  set_entries
    (fun es => es ++ map (fun t => (Schedule t,
                                    {| taskVar := taskLoc; funcCtx := botCtx;
                                       botVar := botLoc |}))
                       (List.filter (accepted parseSchedule) ts))
    (set_heap (fun h => match last ts with
                        | Some t => <[taskLoc := VTask t]> h
                        | None => h
                        end) st).

(** The state after one turn of the outer loop of [Run], for the bot [b]:
    with [n] the first unused number, the context of the bot is [n :: ctx],
    its task variable [n + 1] and its channels [n + 2] and [n + 3]. *)
Definition afterBot (buildCommands : BotType -> string -> list Command)
    (buildTasks : BotType -> string -> list ScheduledTask)
    (parseSchedule : string -> option error)
    (ctx : Context) (botLoc : Loc) (b : Bot) (st : State) : State :=
  let n := fresh st in
  set_goroutines
    (fun gs => gs ++ [GoRespond (n :: ctx) b (S (S n));
                      GoStopUnrecoverableBot (S (S (S n))) (n :: ctx);
                      GoBotRun b (n :: ctx) (S (S n)) (S (S (S n)))])
    (set_fresh (fun _ => S (S (S (S n))))
       (addTasks parseSchedule (S n) botLoc (n :: ctx)
          (buildTasks (GetBotType b) (PluginConfigDir b))
          (record (EvLog InfoLevel "starting %s" [LStr (GetBotType b)]
                   :: map (EvAppendCommand b)
                        (buildCommands (GetBotType b) (PluginConfigDir b)))
             (set_heap <[botLoc := VBot b]> st)))).

(** The variables of a cron function hold a task and a bot. *)
Definition bound (h : gmap Loc Value) (f : TaskFunc) : Prop :=
  exists task bot, h !! taskVar f = Some (VTask task) /\ h !! botVar f = Some (VBot bot).

(** What holds between two turns of the outer loop of [Run], [botLoc] being
    its loop variable. *)
Definition loopInv (botLoc : Loc) (st : State) : Prop :=
  botLoc < fresh st /\
  (entries st = [] \/ exists b, heap st !! botLoc = Some (VBot b)) /\
  forall spec f, (spec, f) ∈ entries st ->
    botVar f = botLoc /\ botLoc < taskVar f < fresh st /\
    exists task, heap st !! taskVar f = Some (VTask task).

(** The events of one firing of a cron function whose variables hold [task]
    and [bot]. *)
Definition firing (f : TaskFunc) (task : ScheduledTask) (bot : Bot) : list Event :=
  EvExecute (Identifier task) (funcCtx f) ::
  match Execute task (funcCtx f) with
  | (_, Some _) => [EvLog ErrorLevel "error on scheduled task: %s" [LStr (Identifier task)]]
  | (None, None) => []
  | (Some res, None) =>
      [EvSendMessage bot (funcCtx f) (NewOutputMessage (Destination task) (Content res))]
  end.

(** *** Sample bots and tasks *)

Definition sampleConfig : Config := {| queueSize := 8; superviseInterval := 60 |}.

(** A bot with the one command that answers "ping" with "pong". *)
Definition pingBot : Bot :=
  {| botName := "ping"; GetBotType := "slack"; PluginConfigDir := "/etc/sarah";
     Respond := fun _ input =>
       if String.eqb (payload input) "ping"
       then (Some {| Content := "pong" |}, None)
       else (None, None) |}.

(** A second bot of the same BotType. *)
Definition twinBot : Bot :=
  {| botName := "twin"; GetBotType := "slack"; PluginConfigDir := "/etc/twin";
     Respond := fun _ _ => (None, None) |}.

(** A bot of another BotType. *)
Definition gitterBot : Bot :=
  {| botName := "gitter"; GetBotType := "gitter"; PluginConfigDir := "/etc/gitter";
     Respond := fun _ _ => (None, Some (ErrorString "boom")) |}.

Definition morning : ScheduledTask :=
  {| Identifier := "morning"; Schedule := "0 0 9 * * *"; Destination := "general";
     Execute := fun _ => (Some {| Content := "good morning" |}, None) |}.

Definition evening : ScheduledTask :=
  {| Identifier := "evening"; Schedule := "0 0 18 * * *"; Destination := "random";
     Execute := fun _ => (Some {| Content := "good evening" |}, None) |}.

(** A sample of cron's parser: it takes the specs of six fields separated by
    single spaces, as those of [morning] and [evening] are, and refuses the
    others. *)
Definition sampleSchedules (spec : string) : option error :=
  if Nat.eqb (length (List.filter (Ascii.eqb Ascii.Space) (String.list_ascii_of_string spec))) 5
  then None
  else Some (ErrorString "bad schedule").

(** The stash: no command, and two scheduled tasks for "slack". *)
Definition sampleCommands : BotType -> string -> list Command := fun _ _ => [].

Definition sampleTasks : BotType -> string -> list ScheduledTask :=
  fun botType _ => if String.eqb botType "slack" then [morning; evening] else [].

(** Startup with two bots of BotType "slack", both given to [RegisterBot]. *)
Definition twinStartup : M State unit :=
  RegisterBot pingBot;;
  RegisterBot twinBot;;
  Run sampleCommands sampleTasks sampleSchedules [].

(** Startup with one bot, whose stash compiles to two scheduled tasks. *)
Definition singleStartup : M State unit :=
  RegisterBot pingBot;;
  Run sampleCommands sampleTasks sampleSchedules [].

(** The cron function that startup registers, under both schedules. *)
Definition sampleFunc : TaskFunc := {| taskVar := 2; funcCtx := [1]; botVar := 0 |}.

Definition slackAdapter : Adapter := {| adapterName := "adapter"; AdapterBotType := "slack" |}.

Definition gitterAdapter : Adapter :=
  {| adapterName := "adapter"; AdapterBotType := "gitter" |}.

Definition ping : Input := {| payload := "ping"; ReplyTo := "alice" |}.

Definition sampleNewBot : Adapter -> string -> Bot :=
  fun adapter dir =>
    {| botName := adapterName adapter; GetBotType := AdapterBotType adapter;
       PluginConfigDir := dir; Respond := fun _ _ => (None, None) |}.

(** Registration of two bots of BotType "slack". *)
Definition twinRegistration : M State unit :=
  RegisterBot pingBot;;
  RegisterBot twinBot.

(** *** [Run] in closed form *)

(** The state after the outer loop of [Run] went through the bots [bs]. *)
Fixpoint afterBots (buildCommands : BotType -> string -> list Command)
    (buildTasks : BotType -> string -> list ScheduledTask)
    (parseSchedule : string -> option error)
    (ctx : Context) (botLoc : Loc) (bs : list Bot) (st : State) : State :=
  match bs with
  | [] => st
  | b :: bs' =>
      afterBots buildCommands buildTasks parseSchedule ctx botLoc bs'
        (afterBot buildCommands buildTasks parseSchedule ctx botLoc b st)
  end.

(** The three goroutines of the bot [b] whose turn of the loop starts at the
    number [n]. *)
Definition botGoroutines (ctx : Context) (n : nat) (b : Bot) : list Goroutine :=
  [GoRespond (n :: ctx) b (S (S n));
   GoStopUnrecoverableBot (S (S (S n))) (n :: ctx);
   GoBotRun b (n :: ctx) (S (S n)) (S (S (S n)))].

(** The cron entries of that bot: of its tasks whose schedule parses. *)
Definition botEntries (buildTasks : BotType -> string -> list ScheduledTask)
    (parseSchedule : string -> option error)
    (ctx : Context) (botLoc : Loc) (n : nat) (b : Bot) : list (string * TaskFunc) :=
  map (fun t => (Schedule t, {| taskVar := S n; funcCtx := n :: ctx; botVar := botLoc |}))
      (List.filter (accepted parseSchedule)
         (buildTasks (GetBotType b) (PluginConfigDir b))).

(** The events of that bot's turn. *)
Definition botEvents (buildCommands : BotType -> string -> list Command) (b : Bot)
  : list Event :=
  EvLog InfoLevel "starting %s" [LStr (GetBotType b)]
  :: map (EvAppendCommand b) (buildCommands (GetBotType b) (PluginConfigDir b)).

(** What the turns for [bs] add when the first of them starts at [n]; a turn
    uses four numbers. *)
Fixpoint loopGoroutines (ctx : Context) (n : nat) (bs : list Bot) : list Goroutine :=
  match bs with
  | [] => []
  | b :: bs' => botGoroutines ctx n b ++ loopGoroutines ctx (4 + n) bs'
  end.

Fixpoint loopEntries (buildTasks : BotType -> string -> list ScheduledTask)
    (parseSchedule : string -> option error)
    (ctx : Context) (botLoc : Loc) (n : nat) (bs : list Bot) : list (string * TaskFunc) :=
  match bs with
  | [] => []
  | b :: bs' =>
      botEntries buildTasks parseSchedule ctx botLoc n b
      ++ loopEntries buildTasks parseSchedule ctx botLoc (4 + n) bs'
  end.

(** The commands appended to bots, in order. *)
Definition appended (evs : list Event) : list (Bot * Command) :=
  omap (fun ev => match ev with EvAppendCommand b c => Some (b, c) | _ => None end) evs.

(** The contexts given to the [respond] goroutines, in order. *)
Definition respondContexts (gs : list Goroutine) : list Context :=
  omap (fun g => match g with GoRespond c _ _ => Some c | _ => None end) gs.

(** The bots whose [Run] was started, in order. *)
Definition startedBots (gs : list Goroutine) : list Bot :=
  omap (fun g => match g with GoBotRun b _ _ _ => Some b | _ => None end) gs.

(** What the job of [input] sends, if anything. *)
Definition replyTo (botCtx : Context) (bot : Bot) (input : Input)
  : option (Bot * Context * OutputMessage) :=
  match Respond bot botCtx input with
  | (Some res, None) => Some (bot, botCtx, NewOutputMessage (ReplyTo input) (Content res))
  | _ => None
  end.

End Sarah.

(** ** Package worldweather: the API client *)
Module WorldWeather.

(** Errors of this package: those of the libraries it calls, and those it
    makes with [fmt.Errorf], most of which wrap another error (["%w"]). *)
Inductive Failure : Type :=
| Leaf (msg : string)
| BadStatus (code : nat)                  (* "response status %d is returned" *)
| Wrap (msg : string) (inner : Failure).  (* msg ++ ": %w" *)

Record Config : Type := { apiKey : string }.

(** [Client]; its [config] is a pointer and may be nil. *)
Record Client : Type := { config : option Config }.

Definition NewConfig (key : string) : Config := {| apiKey := key |}.

Definition NewClient (cfg : option Config) : Client := {| config := cfg |}.

(** [v.Add(key, value)] of [url.Values]: [v[key] = append(v[key], value)]. *)
Definition Add (key value : string) (v : gmap string (list string))
  : gmap string (list string) :=
  <[key := default [] (v !! key) ++ [value]]> v.

(** A [*url.URL]: the string that was parsed and its [RawQuery]. *)
Record URL : Type := { location : string; RawQuery : string }.

(** What [ioutil.ReadAll] gives for a response body. *)
Inductive Body : Type :=
| BodyOk (bytes : string)
| BodyErr (e : Failure).

(** What [http.DefaultClient.Do] gives. *)
Inductive Answer : Type :=
| NoAnswer (e : Failure)
| Response (StatusCode : nat) (body : Body).

Inductive Event : Type :=
| EvDo (u : URL)                (* http.DefaultClient.Do(req) *)
| EvReadAll                     (* ioutil.ReadAll(resp.Body) *)
| EvUnmarshal (bytes : string)  (* json.Unmarshal(body, data) *)
| EvBodyClose.                  (* resp.Body.Close() *)

(** The world of the client.  [objects] holds the [url.Values] that
    pointers refer to ([None] is a nil map), [decoded] what was decoded into
    the data that pointers refer to; the HTTP client answers its n-th
    request as [answers] says. *)
Record World : Type := {
  objects : gmap nat (option (gmap string (list string)));
  decoded : gmap nat string;
  nextObject : nat;
  answers : nat -> Answer;
  requests : nat;
  trace : list Event
}.

Definition set_objects
    (f : gmap nat (option (gmap string (list string)))
         -> gmap nat (option (gmap string (list string)))) (w : World) : World :=
  {| objects := f (objects w); decoded := decoded w; nextObject := nextObject w;
     answers := answers w; requests := requests w; trace := trace w |}.

Definition set_decoded (f : gmap nat string -> gmap nat string) (w : World) : World :=
  {| objects := objects w; decoded := f (decoded w); nextObject := nextObject w;
     answers := answers w; requests := requests w; trace := trace w |}.

Definition record (evs : list Event) (w : World) : World :=
  {| objects := objects w; decoded := decoded w; nextObject := nextObject w;
     answers := answers w; requests := requests w; trace := trace w ++ evs |}.

Definition emit (e : Event) : M World unit := modify (record [e]).

(** [&url.Values{}]: a pointer to a new, empty map. *)
Definition newValues : M World nat :=
  fun w =>
    (Ret (nextObject w),
     {| objects := <[nextObject w := Some ∅]> (objects w); decoded := decoded w;
        nextObject := S (nextObject w); answers := answers w; requests := requests w;
        trace := trace w |}).

(** A pointer to a new data value, such as [&LocalWeatherResponse{}]. *)
Definition newData : M World nat :=
  fun w =>
    (Ret (nextObject w),
     {| objects := objects w; decoded := decoded w;
        nextObject := S (nextObject w); answers := answers w; requests := requests w;
        trace := trace w |}).

(** [p.Add(key, value)] through the pointer [p]; adding to a nil map
    panics. *)
Definition addValue (p : nat) (key value : string) : M World unit :=
  fun w =>
    match objects w !! p with
    | Some (Some v) => (Ret tt, set_objects <[p := Some (Add key value v)]> w)
    | _ => (Panic "assignment to entry in nil map", w)
    end.

(** [http.DefaultClient.Do(req)] *)
Definition httpDo (u : URL) : M World Answer :=
  fun w =>
    (Ret (answers w (requests w)),
     {| objects := objects w; decoded := decoded w; nextObject := nextObject w;
        answers := answers w; requests := S (requests w);
        trace := trace w ++ [EvDo u] |}).

(** [fmt.Sprintf(weatherAPIEndpointFormat, apiType)] *)
Definition endpointFor (apiType : string) : string :=
  "https://api.worldweatheronline.com/free/v2/" +:+ apiType +:+ ".ashx".

Section Client.
(** Library functions: [Values.Encode], the error of [url.Parse], of
    [http.NewRequest] and of [json.Unmarshal], if any. *)
Variable Encode : gmap string (list string) -> string.
Variable parseError : string -> option Failure.
Variable requestError : URL -> option Failure.
Variable unmarshalError : string -> option Failure.

(** [client.buildEndpoint(apiType, queryParams)] *)
Definition buildEndpoint (client : Client) (apiType : string) (queryParams : option nat)
  : M World URL :=
  p ← match queryParams with
      | None => newValues
      | Some p => ret p
      end;
  match config client with
  | None => panic "invalid memory address or nil pointer dereference"
  | Some cfg =>
      addValue p "key" (apiKey cfg);;
      addValue p "format" "json";;
      match parseError (endpointFor apiType) with
      | Some _ => panic ("failed to parse construct URL for " +:+ apiType)
      | None =>
          w ← (fun w => (Ret w, w));
          match objects w !! p with
          | Some (Some v) =>
              ret {| location := endpointFor apiType; RawQuery := Encode v |}
          | _ => panic "invalid memory address or nil pointer dereference"
          end
      end
  end.

(** What [Get] does with a response: the part that the deferred
    [resp.Body.Close()] follows.  What a failed [json.Unmarshal] leaves in
    [data] is not recorded. *)
Definition readResponse (status : nat) (body : Body) (data : nat)
  : M World (option Failure) :=
  if negb (Nat.eqb status 200) then ret (Some (BadStatus status))
  else
    emit EvReadAll;;
    match body with
    | BodyErr e => ret (Some (Wrap "failed to read response" e))
    | BodyOk bytes =>
        emit (EvUnmarshal bytes);;
        match unmarshalError bytes with
        | Some e => ret (Some (Wrap "failed to parse returned json data" e))
        | None => modify (set_decoded <[data := bytes]>);; ret None
        end
    end.

(** [client.Get(ctx, apiType, queryParams, data)]; [ctx] is not used by
    the source. *)
Definition Get (client : Client) (apiType : string) (queryParams : option nat)
    (data : nat) : M World (option Failure) :=
  endpoint ← buildEndpoint client apiType queryParams;
  match requestError endpoint with
  | Some e => ret (Some (Wrap "failed to build request" e))
  | None =>
      answer ← httpDo endpoint;
      match answer with
      | NoAnswer e => ret (Some (Wrap ("failed on GET request for " +:+ apiType) e))
      | Response status body =>
          res ← readResponse status body data;
          emit EvBodyClose;;
          ret res
      end
  end.

(** [client.LocalWeather(ctx, location)]: the pair (data, err). *)
Definition LocalWeather (client : Client) (location : string)
  : M World (option nat * option Failure) :=
  queryParams ← newValues;
  addValue queryParams "q" location;;
  data ← newData;
  e ← Get client "weather" (Some queryParams) data;
  match e with
  | Some e' => ret (None, Some (Wrap "failed getting weather data" e'))
  | None => ret (Some data, None)
  end.

End Client.

(** The parameters that a request carries once [buildEndpoint] has added the
    key and the format to [v]. *)
Definition signedParams (cfg : Config) (v : gmap string (list string))
  : gmap string (list string) :=
  Add "format" "json" (Add "key" (apiKey cfg) v).

(** *** Reading a trace *)

Definition bodyCloses (evs : list Event) : nat :=
  length (List.filter (fun ev => match ev with EvBodyClose => true | _ => false end) evs).

Definition requested (evs : list Event) : list URL :=
  omap (fun ev => match ev with EvDo u => Some u | _ => None end) evs.

(** *** A sample world *)

Definition sampleClient : Client := NewClient (Some (NewConfig "secret")).

(** An HTTP client that answers 200 with a body, then 503. *)
Definition sampleWorld : World :=
  {| objects := {[ 0 := Some {[ "q" := ["Tokyo"] ]} ]};
     decoded := ∅;
     nextObject := 1;
     answers := fun n => if Nat.eqb n 0 then Response 200 (BodyOk "{}")
                         else Response 503 (BodyOk "busy");
     requests := 0;
     trace := [] |}.

End WorldWeather.

(** * Properties *)

Module RetryFacts.
Import Retry.

Lemma bind_run {S A B} (m : M S A) (k : A -> M S B) s a s' :
  m s = (Ret a, s') -> (m ≫= k) s = k a s'.
Proof. intros E. unfold mbind, M_bind. by rewrite E. Qed.

Lemma bind_pending {S A B} (m : M S A) (k : A -> M S B) s s' :
  m s = (Pending, s') -> (m ≫= k) s = (Pending, s').
Proof. intros E. unfold mbind, M_bind. by rewrite E. Qed.

Lemma bind_panic {S A B} (m : M S A) (k : A -> M S B) s msg s' :
  m s = (Panic msg, s') -> (m ≫= k) s = (Panic msg, s').
Proof. intros E. unfold mbind, M_bind. by rewrite E. Qed.

Section Loop.
Context {S : Type} `{Sleeper S}.
Variables (function : M S (option error)) (interval : Z).
(** [before i] is the state in which attempt [i] starts, [after i] the one
    it leaves, [failure i] the error it reports. *)
Variables (before after : nat -> S) (failure : nat -> error).

Lemma retryLoop_retry n failures s err s1 s2 :
  function s = (Ret (Some err), s1) ->
  sleep interval s1 = (Ret tt, s2) ->
  retryLoop (Datatypes.S (Datatypes.S n)) function interval failures s
    = retryLoop (Datatypes.S n) function interval (failures ++ [Error err]) s2.
Proof.
  intros Hf Hs. cbn [retryLoop]. erewrite bind_run by exact Hf. cbv beta iota.
  erewrite bind_run by exact Hs. reflexivity.
Qed.

(** Attempts [j .. j+k-1] fail, attempt [j+k] succeeds and is within the
    budget: the helper reports success in the state that attempt left. *)
Lemma retryLoop_succeeds k : forall trial failures j,
  k < trial ->
  (forall i, j <= i < j + k ->
     function (before i) = (Ret (Some (failure i)), after i) /\
     sleep interval (after i) = (Ret tt, before (Datatypes.S i))) ->
  function (before (j + k)) = (Ret None, after (j + k)) ->
  retryLoop trial function interval failures (before j) = (Ret None, after (j + k)).
Proof.
  induction k as [|k IH]; intros trial failures j Hk Hfail Hok.
  - destruct trial as [|n]; [lia|]. cbn [retryLoop].
    rewrite Nat.add_0_r in *. erewrite bind_run by exact Hok. reflexivity.
  - destruct trial as [|[|n]]; [lia|lia|].
    destruct (Hfail j) as [Hf Hs]; [lia|].
    erewrite retryLoop_retry by eassumption.
    replace (j + Datatypes.S k) with (Datatypes.S j + k) in * by lia.
    apply IH; [lia| |done].
    intros i Hi. apply Hfail. lia.
Qed.

(** All the [trial] attempts fail: the helper reports the failure right
    after the last one, without sleeping again. *)
Lemma retryLoop_exhausted trial : forall failures j,
  (forall i, j <= i < j + Datatypes.S trial ->
     function (before i) = (Ret (Some (failure i)), after i)) ->
  (forall i, j <= i < j + trial ->
     sleep interval (after i) = (Ret tt, before (Datatypes.S i))) ->
  retryLoop (Datatypes.S trial) function interval failures (before j)
    = (Ret (Some (RetryErrors
                    (failures ++ map (fun i => Error (failure i))
                                     (seq j (Datatypes.S trial))))),
       after (j + trial)).
Proof.
  induction trial as [|n IH]; intros failures j Hfail Hsleep.
  - cbn [retryLoop]. erewrite bind_run by (apply Hfail; lia).
    by rewrite Nat.add_0_r.
  - erewrite retryLoop_retry by first [apply Hfail; lia | apply Hsleep; lia].
    rewrite IH.
    + replace (Datatypes.S j + n) with (j + Datatypes.S n) by lia.
      rewrite <- app_assoc. reflexivity.
    + intros i Hi. apply Hfail. lia.
    + intros i Hi. apply Hsleep. lia.
Qed.

End Loop.
End RetryFacts.

Module GitterFacts.
Import Gitter RetryFacts.

Lemma record_nil w : record [] w = w.
Proof. destruct w; unfold record; simpl. by rewrite app_nil_r. Qed.

Lemma record_record a b w : record b (record a w) = record (a ++ b) w.
Proof. unfold record; simpl. by rewrite app_assoc. Qed.

Lemma trace_record evs w : trace (record evs w) = trace w ++ evs.
Proof. reflexivity. Qed.

Lemma emit_run e w : emit e w = (Ret tt, record [e] w).
Proof. reflexivity. Qed.

(** *** The connect step and the room fetch *)

Section Connect.
Variables (ctx : Context) (room : Room).

Lemma connectAttempt_run v calls tr w :
  connectAttempt ctx room (v, withConnects calls tr w)
  = (Ret (snd (connectScript w calls)),
     (fst (connectScript w calls),
      withConnects (S calls) (tr ++ connectEvents w ctx room calls) w)).
Proof.
  unfold connectAttempt, connectEvents.
  unfold mbind, M_bind, outer, streamingConnect, assign, logv, emit, modify, record; simpl.
  destruct (snd (connectScript w calls)); simpl; unfold withConnects; simpl;
    rewrite <- ?app_assoc; reflexivity.
Qed.

Lemma connect_sleep (v : option Connection) calls tr w :
  sleep 500 (v, withConnects calls tr w)
  = (Ret tt, (v, withConnects calls (tr ++ [EvSleep 500]) w)).
Proof. reflexivity. Qed.

Lemma connectRetries_S w p k :
  connectRetries w ctx room p (S k)
  = connectRetries w ctx room p k ++ connectEvents w ctx room (p + k) ++ [EvSleep 500].
Proof.
  unfold connectRetries. rewrite seq_S, flat_map_app. simpl. by rewrite app_nil_r.
Qed.

Lemma withConnects_id w : withConnects (connectCalls w) (trace w) w = w.
Proof. by destruct w. Qed.

(** The states between the attempts of [connectRoom] started in [w]. *)
Let before (w : World) (i : nat) : option Connection * World :=
  (match i with
   | O => None
   | S i' => fst (connectScript w (connectCalls w + i'))
   end,
   withConnects (connectCalls w + i)
     (trace w ++ connectRetries w ctx room (connectCalls w) i) w).

Let after (w : World) (i : nat) : option Connection * World :=
  (fst (connectScript w (connectCalls w + i)),
   withConnects (S (connectCalls w + i))
     (trace w ++ connectRetries w ctx room (connectCalls w) i
              ++ connectEvents w ctx room (connectCalls w + i)) w).

Let failure (w : World) (i : nat) : error :=
  match snd (connectScript w (connectCalls w + i)) with
  | Some e => e
  | None => ErrorString ""
  end.

Lemma before_0 w : before w 0 = (None, w).
Proof.
  unfold before, connectRetries. simpl.
  by rewrite Nat.add_0_r, app_nil_r, withConnects_id.
Qed.

Lemma connect_attempt_step w i :
  connectAttempt ctx room (before w i)
  = (Ret (snd (connectScript w (connectCalls w + i))), after w i).
Proof.
  unfold before, after. rewrite connectAttempt_run. by rewrite <- app_assoc.
Qed.

Lemma connect_sleep_step w i : sleep 500 (after w i) = (Ret tt, before w (S i)).
Proof.
  unfold before, after. rewrite connect_sleep.
  rewrite connectRetries_S, <- !app_assoc. by rewrite Nat.add_succ_r.
Qed.

(** The first [k] attempts fail, the next one succeeds, within the budget. *)
Lemma connectRoom_succeeds w k :
  k < 10 ->
  (forall i, i < k -> is_Some (snd (connectScript w (connectCalls w + i)))) ->
  snd (connectScript w (connectCalls w + k)) = None ->
  connectRoom ctx room w
  = (Ret (fst (connectScript w (connectCalls w + k)), None),
     withConnects (connectCalls w + k + 1)
       (trace w ++ connectRetries w ctx room (connectCalls w) k ++ [EvConnect ctx room]) w).
Proof.
  intros Hk Hfail Hok.
  unfold connectRoom, withVar, Retry.RetryInterval.
  rewrite <- (before_0 w).
  rewrite (retryLoop_succeeds _ _ (before w) (after w) (failure w) k 10 [] 0 Hk).
  - simpl. unfold connectEvents. rewrite Hok.
    replace (S (connectCalls w + k)) with (connectCalls w + k + 1) by lia.
    reflexivity.
  - intros i Hi. split; [|apply connect_sleep_step].
    rewrite connect_attempt_step. unfold failure.
    destruct (Hfail i) as [e ->]; [lia|done].
  - simpl. rewrite connect_attempt_step. by rewrite Hok.
Qed.

(** All ten attempts fail. *)
Lemma connectRoom_exhausted w :
  (forall i, i < 10 -> is_Some (snd (connectScript w (connectCalls w + i)))) ->
  connectRoom ctx room w
  = (Ret (fst (connectScript w (connectCalls w + 9)),
          Some (RetryErrors (failureMessages (connectScript w) (connectCalls w) 10))),
     withConnects (connectCalls w + 10)
       (trace w ++ connectRetries w ctx room (connectCalls w) 9
                ++ connectEvents w ctx room (connectCalls w + 9)) w).
Proof.
  intros Hfail.
  unfold connectRoom, withVar, Retry.RetryInterval.
  rewrite <- (before_0 w).
  rewrite (retryLoop_exhausted _ _ (before w) (after w) (failure w) 9 [] 0).
  - assert (map (fun i => Error (failure w i)) (seq 0 10)
            = failureMessages (connectScript w) (connectCalls w) 10) as ->.
    { apply map_ext. intros i. unfold failure.
      by destruct (snd (connectScript w (connectCalls w + i))). }
    unfold after. cbn [Nat.add app].
    replace (S (connectCalls w + 9)) with (connectCalls w + 10) by lia.
    reflexivity.
  - intros i Hi. rewrite connect_attempt_step. unfold failure.
    destruct (Hfail i) as [e ->]; [lia|done].
  - intros i Hi. apply connect_sleep_step.
Qed.

End Connect.

Section Fetch.
Variable ctx : Context.

Lemma fetchAttempt_run v calls tr w :
  fetchAttempt ctx (v, withRooms calls tr w)
  = (Ret (snd (roomsScript w calls)),
     (fst (roomsScript w calls), withRooms (S calls) (tr ++ [EvRooms ctx]) w)).
Proof. reflexivity. Qed.

Lemma fetchRetries_S k :
  fetchRetries ctx (S k) = fetchRetries ctx k ++ [EvRooms ctx; EvSleep 500].
Proof.
  unfold fetchRetries. by rewrite seq_S, flat_map_app.
Qed.

Lemma withRooms_id w : withRooms (roomsCalls w) (trace w) w = w.
Proof. by destruct w. Qed.

Let before (w : World) (i : nat) : option Rooms * World :=
  (match i with
   | O => None
   | S i' => fst (roomsScript w (roomsCalls w + i'))
   end,
   withRooms (roomsCalls w + i) (trace w ++ fetchRetries ctx i) w).

Let after (w : World) (i : nat) : option Rooms * World :=
  (fst (roomsScript w (roomsCalls w + i)),
   withRooms (S (roomsCalls w + i)) (trace w ++ fetchRetries ctx i ++ [EvRooms ctx]) w).

Let failure (w : World) (i : nat) : error :=
  match snd (roomsScript w (roomsCalls w + i)) with
  | Some e => e
  | None => ErrorString ""
  end.

Lemma fetch_before_0 w : before w 0 = (None, w).
Proof.
  unfold before, fetchRetries. simpl.
  by rewrite Nat.add_0_r, app_nil_r, withRooms_id.
Qed.

Lemma fetch_attempt_step w i :
  fetchAttempt ctx (before w i)
  = (Ret (snd (roomsScript w (roomsCalls w + i))), after w i).
Proof.
  unfold before, after. rewrite fetchAttempt_run. by rewrite <- app_assoc.
Qed.

Lemma fetch_sleep_step w i : sleep 500 (after w i) = (Ret tt, before w (S i)).
Proof.
  unfold before, after. rewrite fetchRetries_S, Nat.add_succ_r.
  unfold sleep, pair_Sleeper, outer, sleep, World_Sleeper, emit, modify, record,
    withRooms; simpl.
  by rewrite <- !app_assoc.
Qed.

Lemma fetchRooms_succeeds w k :
  k < 10 ->
  (forall i, i < k -> is_Some (snd (roomsScript w (roomsCalls w + i)))) ->
  snd (roomsScript w (roomsCalls w + k)) = None ->
  fetchRooms ctx w
  = (Ret (fst (roomsScript w (roomsCalls w + k)), None),
     withRooms (roomsCalls w + k + 1)
       (trace w ++ fetchRetries ctx k ++ [EvRooms ctx]) w).
Proof.
  intros Hk Hfail Hok.
  unfold fetchRooms, withVar, Retry.RetryInterval.
  rewrite <- (fetch_before_0 w).
  rewrite (retryLoop_succeeds _ _ (before w) (after w) (failure w) k 10 [] 0 Hk).
  - simpl.
    replace (S (roomsCalls w + k)) with (roomsCalls w + k + 1) by lia.
    reflexivity.
  - intros i Hi. split; [|apply fetch_sleep_step].
    rewrite fetch_attempt_step. unfold failure.
    destruct (Hfail i) as [e ->]; [lia|done].
  - simpl. rewrite fetch_attempt_step. by rewrite Hok.
Qed.

Lemma fetchRooms_exhausted w :
  (forall i, i < 10 -> is_Some (snd (roomsScript w (roomsCalls w + i)))) ->
  fetchRooms ctx w
  = (Ret (fst (roomsScript w (roomsCalls w + 9)),
          Some (RetryErrors (failureMessages (roomsScript w) (roomsCalls w) 10))),
     withRooms (roomsCalls w + 10)
       (trace w ++ fetchRetries ctx 9 ++ [EvRooms ctx]) w).
Proof.
  intros Hfail.
  unfold fetchRooms, withVar, Retry.RetryInterval.
  rewrite <- (fetch_before_0 w).
  rewrite (retryLoop_exhausted _ _ (before w) (after w) (failure w) 9 [] 0).
  - assert (map (fun i => Error (failure w i)) (seq 0 10)
            = failureMessages (roomsScript w) (roomsCalls w) 10) as ->.
    { apply map_ext. intros i. unfold failure.
      by destruct (snd (roomsScript w (roomsCalls w + i))). }
    unfold after. cbn [Nat.add app].
    replace (S (roomsCalls w + 9)) with (roomsCalls w + 10) by lia.
    reflexivity.
  - intros i Hi. rewrite fetch_attempt_step. unfold failure.
    destruct (Hfail i) as [e ->]; [lia|done].
  - intros i Hi. apply fetch_sleep_step.
Qed.

End Fetch.

(** *** Counting attempts *)

Lemma connectAttempts_app a b :
  connectAttempts (a ++ b) = connectAttempts a + connectAttempts b.
Proof. unfold connectAttempts. by rewrite List.filter_app, length_app. Qed.

Lemma connectAttempts_events w ctx room p :
  connectAttempts (connectEvents w ctx room p) = 1.
Proof. unfold connectEvents. by destruct (snd (connectScript w p)). Qed.

Lemma connectAttempts_retries w ctx room p k :
  connectAttempts (connectRetries w ctx room p k) = k.
Proof.
  induction k as [|k IH]; [done|].
  rewrite connectRetries_S, !connectAttempts_app, IH, connectAttempts_events.
  change (connectAttempts [EvSleep 500]) with 0. lia.
Qed.

Lemma fetchAttempts_app a b :
  fetchAttempts (a ++ b) = fetchAttempts a + fetchAttempts b.
Proof. unfold fetchAttempts. by rewrite List.filter_app, length_app. Qed.

Lemma fetchAttempts_retries ctx k : fetchAttempts (fetchRetries ctx k) = k.
Proof.
  induction k as [|k IH]; [done|].
  rewrite fetchRetries_S, fetchAttempts_app, IH.
  change (fetchAttempts [EvRooms ctx; EvSleep 500]) with 1. lia.
Qed.

Lemma succeeded_none {A} (script : nat -> option A * option error) p n :
  (forall i, i < n -> is_Some (snd (script (p + i)))) ->
  succeeded script p n = 0.
Proof.
  revert p. induction n as [|n IH]; intros p Hfail; [done|].
  unfold succeeded in *. simpl.
  destruct (Hfail 0) as [e He]; [lia|]. rewrite Nat.add_0_r in He. rewrite He.
  apply IH. intros i Hi. replace (S p + i) with (p + S i) by lia. apply Hfail. lia.
Qed.

Lemma succeeded_last {A} (script : nat -> option A * option error) p k :
  (forall i, i < k -> is_Some (snd (script (p + i)))) ->
  snd (script (p + k)) = None ->
  succeeded script p (k + 1) = 1.
Proof.
  intros Hfail Hok. unfold succeeded.
  rewrite seq_app, List.filter_app, length_app.
  fold (succeeded script p k). rewrite succeeded_none by done.
  simpl. by rewrite Hok.
Qed.

(** C8: the connect step, and likewise the room fetch, with its retry budget
    of 10.  If the first [k < 10] attempts fail and the next one succeeds, the
    step returns that connection (that room list) without error after
    exactly [k + 1] attempts, exactly one of which succeeded; after 10
    failures in a row it returns an error, having made exactly 10 attempts,
    none of which succeeded. *)
Theorem connect_and_fetch_retry_budget (ctx : Context) (room : Room) (w : World) (k : nat) :
  (k < 10 ->
   (forall i, i < k -> is_Some (snd (connectScript w (connectCalls w + i)))) ->
   snd (connectScript w (connectCalls w + k)) = None ->
   exists evs w',
     connectRoom ctx room w
       = (Ret (fst (connectScript w (connectCalls w + k)), None), w') /\
     trace w' = trace w ++ evs /\ connectAttempts evs = k + 1 /\
     connectCalls w' = connectCalls w + (k + 1) /\
     succeeded (connectScript w) (connectCalls w) (k + 1) = 1) /\
  ((forall i, i < 10 -> is_Some (snd (connectScript w (connectCalls w + i)))) ->
   exists evs w' conn msgs,
     connectRoom ctx room w = (Ret (conn, Some (RetryErrors msgs)), w') /\
     trace w' = trace w ++ evs /\ connectAttempts evs = 10 /\
     connectCalls w' = connectCalls w + 10 /\
     succeeded (connectScript w) (connectCalls w) 10 = 0) /\
  (k < 10 ->
   (forall i, i < k -> is_Some (snd (roomsScript w (roomsCalls w + i)))) ->
   snd (roomsScript w (roomsCalls w + k)) = None ->
   exists evs w',
     fetchRooms ctx w = (Ret (fst (roomsScript w (roomsCalls w + k)), None), w') /\
     trace w' = trace w ++ evs /\ fetchAttempts evs = k + 1 /\
     roomsCalls w' = roomsCalls w + (k + 1) /\
     succeeded (roomsScript w) (roomsCalls w) (k + 1) = 1) /\
  ((forall i, i < 10 -> is_Some (snd (roomsScript w (roomsCalls w + i)))) ->
   exists evs w' rooms msgs,
     fetchRooms ctx w = (Ret (rooms, Some (RetryErrors msgs)), w') /\
     trace w' = trace w ++ evs /\ fetchAttempts evs = 10 /\
     roomsCalls w' = roomsCalls w + 10 /\
     succeeded (roomsScript w) (roomsCalls w) 10 = 0).
Proof.
  repeat split.
  - intros Hk Hfail Hok. eexists _, _.
    split; [by apply connectRoom_succeeds|].
    cbn [trace connectCalls roomsCalls withRooms withConnects].
    split; [reflexivity|].
    split; [|split; [lia|by apply succeeded_last]].
    rewrite connectAttempts_app, connectAttempts_retries. done.
  - intros Hfail. eexists _, _, _, _.
    split; [by apply connectRoom_exhausted|].
    cbn [trace connectCalls roomsCalls withRooms withConnects].
    split; [reflexivity|].
    split; [|split; [done|by apply succeeded_none]].
    by rewrite connectAttempts_app, connectAttempts_retries, connectAttempts_events.
  - intros Hk Hfail Hok. eexists _, _.
    split; [by apply fetchRooms_succeeds|].
    cbn [trace connectCalls roomsCalls withRooms withConnects].
    split; [reflexivity|].
    split; [|split; [lia|by apply succeeded_last]].
    rewrite fetchAttempts_app, fetchAttempts_retries. done.
  - intros Hfail. eexists _, _, _, _.
    split; [by apply fetchRooms_exhausted|].
    cbn [trace connectCalls roomsCalls withRooms withConnects].
    split; [reflexivity|].
    split; [|split; [done|by apply succeeded_none]].
    by rewrite fetchAttempts_app, fetchAttempts_retries.
Qed.

(** Two failures and then a success; ten failures. *)
Lemma connect_and_fetch_retry_budget_witness :
  (exists evs w',
     connectRoom 0 lobby flakyWorld = (Ret (Some shortLived, None), w') /\
     trace w' = evs /\ connectAttempts evs = 3 /\ connectCalls w' = 3 /\
     succeeded (connectScript flakyWorld) 0 3 = 1) /\
  (exists evs w' conn msgs,
     connectRoom 0 lobby deadWorld = (Ret (conn, Some (RetryErrors msgs)), w') /\
     trace w' = evs /\ connectAttempts evs = 10 /\ connectCalls w' = 10 /\
     succeeded (connectScript deadWorld) 0 10 = 0) /\
  (exists evs w',
     fetchRooms 0 flakyWorld = (Ret (Some [lobby], None), w') /\
     trace w' = evs /\ fetchAttempts evs = 3 /\ roomsCalls w' = 3 /\
     succeeded (roomsScript flakyWorld) 0 3 = 1) /\
  (exists evs w' rooms msgs,
     fetchRooms 0 deadWorld = (Ret (rooms, Some (RetryErrors msgs)), w') /\
     trace w' = evs /\ fetchAttempts evs = 10 /\ roomsCalls w' = 10 /\
     succeeded (roomsScript deadWorld) 0 10 = 0).
Proof.
  destruct (connect_and_fetch_retry_budget 0 lobby flakyWorld 2) as (Hc & _ & Hf & _).
  destruct (connect_and_fetch_retry_budget 0 lobby deadWorld 0) as (_ & Hcx & _ & Hfx).
  assert (2 < 10) as Hk by lia.
  split; [|split; [|split]].
  - apply (Hc Hk); [|reflexivity].
    intros [|[|i]] Hi; [by eexists..|lia].
  - apply Hcx. intros i _. by eexists.
  - apply (Hf Hk); [|reflexivity].
    intros [|[|i]] Hi; [by eexists..|lia].
  - apply Hfx. intros i _. by eexists.
Defined.

(** *** Run *)

Lemma first_success {A} (script : nat -> option A * option error) p n :
  (forall i, i < n -> is_Some (snd (script (p + i)))) \/
  (exists k, k < n /\ (forall i, i < k -> is_Some (snd (script (p + i)))) /\
             snd (script (p + k)) = None).
Proof.
  induction n as [|n [IH|(k & Hk & Hfail & Hok)]].
  - left. intros i Hi. lia.
  - destruct (snd (script (p + n))) as [e|] eqn:En.
    + left. intros i Hi. destruct (decide (i = n)) as [->|]; [by eexists|].
      apply IH. lia.
    + right. exists n. split; [lia|]. split; [|done]. intros i Hi. by apply IH.
  - right. exists k. split; [lia|done].
Qed.

Lemma spawn_rooms ctx rooms w :
  forRange rooms (fun room => emit (EvGo ctx room)) w
  = (Ret tt, record (map (EvGo ctx) rooms) w).
Proof.
  revert w. induction rooms as [|room rooms IH]; intros w.
  - simpl. by rewrite record_nil.
  - cbn [forRange map]. erewrite bind_run by apply emit_run.
    rewrite IH. by rewrite record_record.
Qed.

Lemma spawned_go ctx rooms : spawned (map (EvGo ctx) rooms) = rooms.
Proof.
  induction rooms as [|room rooms IH]; [done|].
  unfold spawned, omap in *. simpl. by rewrite IH.
Qed.

Lemma spawned_app a b : spawned (a ++ b) = spawned a ++ spawned b.
Proof. apply omap_app. Qed.

Lemma signalled_app a b : signalled (a ++ b) = signalled a ++ signalled b.
Proof. apply omap_app. Qed.

Lemma fetchRetries_quiet ctx k :
  spawned (fetchRetries ctx k) = [] /\ signalled (fetchRetries ctx k) = [] /\
  connectAttempts (fetchRetries ctx k) = 0.
Proof.
  induction k as [|k (IH1 & IH2 & IH3)]; [done|].
  rewrite fetchRetries_S, spawned_app, signalled_app, connectAttempts_app, IH1, IH2, IH3.
  done.
Qed.

Lemma go_quiet ctx rooms :
  signalled (map (EvGo ctx) rooms) = [] /\ connectAttempts (map (EvGo ctx) rooms) = 0.
Proof.
  induction rooms as [|room rooms [IH1 IH2]]; [done|].
  split; [exact IH1|exact IH2].
Qed.

Lemma slept_app a b : slept (a ++ b) = slept a ++ slept b.
Proof. apply omap_app. Qed.

Lemma fetchRetries_slept ctx k : slept (fetchRetries ctx k) = replicate k 500%Z.
Proof.
  induction k as [|k IH]; [done|].
  by rewrite fetchRetries_S, slept_app, IH, replicate_S_end.
Qed.

Lemma go_slept ctx rooms : slept (map (EvGo ctx) rooms) = [].
Proof. induction rooms as [|room rooms IH]; [done|exact IH]. Qed.

Lemma Run_fetched errChReady ctx w k rooms :
  k < 10 ->
  (forall i, i < k -> is_Some (snd (roomsScript w (roomsCalls w + i)))) ->
  roomsScript w (roomsCalls w + k) = (Some rooms, None) ->
  Run errChReady ctx w
  = (Ret tt,
     withRooms (roomsCalls w + k + 1)
       (trace w ++ (fetchRetries ctx k ++ [EvRooms ctx]) ++ map (EvGo ctx) rooms) w).
Proof.
  intros Hk Hfail Hok. unfold Run.
  erewrite bind_run by (apply fetchRooms_succeeds; [done..|by rewrite Hok]).
  rewrite Hok. simpl. rewrite spawn_rooms.
  unfold record, withRooms. simpl. by rewrite <- !app_assoc.
Qed.

(** After ten failed fetches [Run] is at the send on [errCh]: it returns if
    the send completes and stays there if not. *)
Lemma Run_fetch_failed errChReady ctx w :
  (forall i, i < 10 -> is_Some (snd (roomsScript w (roomsCalls w + i)))) ->
  Run errChReady ctx w
  = (if errChReady then Ret tt else Pending,
     withRooms (roomsCalls w + 10)
       (trace w ++ (fetchRetries ctx 9 ++ [EvRooms ctx]) ++
        if errChReady
        then [EvErrCh (NewBotAdapterNonContinuableError
                         (Error (RetryErrors
                                   (failureMessages (roomsScript w) (roomsCalls w) 10))))]
        else []) w).
Proof.
  intros Hfail. unfold Run.
  erewrite bind_run by (by apply fetchRooms_exhausted).
  cbn [snd]. unfold sendErr. destruct errChReady.
  - rewrite emit_run.
    unfold record, withRooms. cbn [trace roomsScript roomsCalls connectScript connectCalls].
    by rewrite <- !app_assoc.
  - unfold pending. by rewrite app_nil_r.
Qed.

(** C6, as stated, fails: with the rooms fetched (here at the third attempt)
    [Run] starts the room goroutines and returns; it is not blocked,
    although nothing has cancelled its context, and whether or not anybody
    reads [errCh]. *)
Lemma Run_returns_without_cancellation :
  Run false 0 flakyWorld
  = (Ret tt,
     withRooms 3 [EvRooms 0; EvSleep 500; EvRooms 0; EvSleep 500; EvRooms 0;
                  EvGo 0 lobby] flakyWorld) /\
  fst (Run false 0 flakyWorld) <> Pending /\
  Run true 0 flakyWorld = Run false 0 flakyWorld.
Proof. split; [reflexivity|]. split; [discriminate|reflexivity]. Qed.

(** C6, amended: [Run] does not wait for its context to be cancelled.  With
    a REST client that gives a room list with every nil error it does not
    panic.  When the rooms are fetched at attempt k + 1 of at most ten, after
    k sleeps of 500 ms, it starts one [runEachRoom] goroutine per room, in
    order, puts nothing on [errCh] and returns.  When the fetch fails ten
    times, after nine sleeps, it starts no goroutine and sends one
    non-continuable error on [errCh]: it returns once the send completes and
    stays blocked in the send otherwise, which is the only way for it not to
    return.  In no case does [Run] itself connect to a room. *)
Theorem Run_returns_after_spawning (errChReady : bool) (ctx : Context) (w : World) :
  roomsContract w ->
  (forall msg, fst (Run errChReady ctx w) <> Panic msg) /\
  (fst (Run errChReady ctx w) = Pending <->
   errChReady = false /\
   forall i, i < 10 -> is_Some (snd (roomsScript w (roomsCalls w + i)))) /\
  (forall k rooms,
     k < 10 ->
     (forall i, i < k -> is_Some (snd (roomsScript w (roomsCalls w + i)))) ->
     roomsScript w (roomsCalls w + k) = (Some rooms, None) ->
     exists evs,
       Run errChReady ctx w
       = (Ret tt, withRooms (roomsCalls w + k + 1) (trace w ++ evs) w) /\
       spawned evs = rooms /\ signalled evs = [] /\ connectAttempts evs = 0 /\
       slept evs = replicate k 500%Z) /\
  ((forall i, i < 10 -> is_Some (snd (roomsScript w (roomsCalls w + i)))) ->
   exists evs msgs,
     Run errChReady ctx w
     = (if errChReady then Ret tt else Pending,
        withRooms (roomsCalls w + 10) (trace w ++ evs) w) /\
     spawned evs = [] /\
     signalled evs
     = (if errChReady then [NewBotAdapterNonContinuableError (Error (RetryErrors msgs))]
        else []) /\
     connectAttempts evs = 0 /\
     slept evs = replicate 9 500%Z).
Proof.
  intros Hcontract.
  assert ((forall i, i < 10 -> is_Some (snd (roomsScript w (roomsCalls w + i)))) ->
          fst (Run errChReady ctx w) = if errChReady then Ret tt else Pending) as Hfailed.
  { intros Hfail. by rewrite Run_fetch_failed. }
  assert (forall k, k < 10 ->
            (forall i, i < k -> is_Some (snd (roomsScript w (roomsCalls w + i)))) ->
            snd (roomsScript w (roomsCalls w + k)) = None ->
            fst (Run errChReady ctx w) = Ret tt) as Hfetched.
  { intros k Hk Hfail Hok. destruct (Hcontract _ Hok) as [rooms Hrooms].
    erewrite Run_fetched; [reflexivity|done..|].
    destruct (roomsScript w (roomsCalls w + k)); simpl in *. by subst. }
  split; [|split; [|split]].
  - intros msg.
    destruct (first_success (roomsScript w) (roomsCalls w) 10)
      as [Hfail|(k & Hk & Hfail & Hok)].
    + rewrite (Hfailed Hfail). by destruct errChReady.
    + by rewrite (Hfetched k Hk Hfail Hok).
  - split.
    + intros Hpending.
      destruct (first_success (roomsScript w) (roomsCalls w) 10)
        as [Hfail|(k & Hk & Hfail & Hok)].
      * rewrite (Hfailed Hfail) in Hpending. by destruct errChReady.
      * by rewrite (Hfetched k Hk Hfail Hok) in Hpending.
    + intros [-> Hfail]. by rewrite (Hfailed Hfail).
  - intros k rooms Hk Hfail Hok. eexists. split; [by apply Run_fetched|].
    destruct (fetchRetries_quiet ctx k) as (Hs & He & Hc).
    destruct (go_quiet ctx rooms) as (He' & Hc').
    rewrite !spawned_app, !signalled_app, !connectAttempts_app, !slept_app.
    rewrite Hs, He, Hc, He', Hc', spawned_go, fetchRetries_slept, go_slept.
    cbn [slept omap list_omap]. by rewrite !app_nil_r.
  - intros Hfail. eexists _, _. split; [by apply Run_fetch_failed|].
    destruct (fetchRetries_quiet ctx 9) as (Hs & He & Hc).
    rewrite !spawned_app, !signalled_app, !connectAttempts_app, !slept_app.
    rewrite Hs, He, Hc, fetchRetries_slept.
    by destruct errChReady.
Qed.

(** In the world whose REST client answers at its third call, with [errCh]
    unread; and in the world whose REST client fails for ever, where [Run]
    returns if [errCh] is read and is blocked if it is not. *)
Lemma Run_returns_after_spawning_witness :
  roomsContract flakyWorld /\ roomsContract deadWorld /\
  (exists evs,
     Run false 0 flakyWorld = (Ret tt, withRooms 3 evs flakyWorld) /\
     spawned evs = [lobby] /\ signalled evs = [] /\ connectAttempts evs = 0 /\
     slept evs = [500; 500]%Z) /\
  (exists evs msgs,
     Run true 0 deadWorld = (Ret tt, withRooms 10 evs deadWorld) /\
     spawned evs = [] /\
     signalled evs = [NewBotAdapterNonContinuableError (Error (RetryErrors msgs))]) /\
  fst (Run false 0 deadWorld) = Pending.
Proof.
  assert (roomsContract flakyWorld) as Hflaky.
  { intros i. simpl. destruct (Nat.ltb i 2); [discriminate|by eexists]. }
  assert (roomsContract deadWorld) as Hdead by (intros i; discriminate).
  split; [exact Hflaky|]. split; [exact Hdead|]. split; [|split].
  - destruct (Run_returns_after_spawning false 0 flakyWorld Hflaky) as (_ & _ & Hok & _).
    apply (Hok 2 [lobby]); [lia| |reflexivity].
    intros [|[|i]] Hi; [by eexists..|lia].
  - destruct (Run_returns_after_spawning true 0 deadWorld Hdead) as (_ & _ & _ & Hfail).
    destruct Hfail as (evs & msgs & Hrun & Hs & He & _); [intros i _; by eexists|].
    exists evs, msgs. split; [exact Hrun|]. split; [exact Hs|exact He].
  - destruct (Run_returns_after_spawning false 0 deadWorld Hdead) as (_ & Hblocked & _).
    apply Hblocked. split; [reflexivity|]. intros i _. by eexists.
Defined.

(** *** SendMessage *)

(** C10: [SendMessage] always returns, leaving exactly one event: the post
    of the content to the room when the content is a string and the
    destination a [*Room], a log entry and no post in every other case. *)
Theorem SendMessage_posts_iff_string_to_room (ctx : Context) (output : BotOutput) (w : World) :
  exists ev,
    SendMessage ctx output w = (Ret tt, record [ev] w) /\
    ((isString (Content output) && isRoomPtr (Destination output) = true /\
      exists content room,
        Content output = DString content /\ Destination output = DRoomPtr room /\
        ev = EvPostMessage ctx room content) \/
     (isString (Content output) && isRoomPtr (Destination output) = false /\
      exists lv format args, ev = EvLog lv format args)).
Proof.
  unfold SendMessage.
  destruct (Content output) as [|content|room|name] eqn:Ec;
    try (eexists; split; [reflexivity|right; split; [done|by eexists _, _, _]]).
  destruct (Destination output) as [|dest|room|name] eqn:Ed;
    try (eexists; split; [reflexivity|right; split; [done|by eexists _, _, _]]).
  eexists; split; [reflexivity|left; split; [done|by eexists _, _]].
Qed.

Lemma receiveLoop_pending pre w :
  Forall (fun r => fatal r = false) pre ->
  receiveLoop pre w = (Pending, record (loopEvents pre) w).
Proof.
  intros Hpre. revert w.
  induction Hpre as [|r pre Hr _ IH]; intros w.
  - simpl. by rewrite record_nil.
  - unfold fatal in Hr. simpl. unfold loopEvents. simpl.
    destruct (err r) as [[]|] eqn:Er; try discriminate; simpl.
    + apply IH.
    + unfold logf. erewrite bind_run by apply emit_run.
      rewrite IH. by rewrite record_record.
    + erewrite bind_run by apply emit_run.
      rewrite IH. by rewrite record_record.
Qed.

Lemma receiveLoop_fatal pre r e post w :
  Forall (fun r => fatal r = false) pre ->
  err r = Some e -> fatal r = true ->
  receiveLoop (pre ++ r :: post) w = (Ret e, record (loopEvents pre) w).
Proof.
  intros Hpre Er Hr. revert w.
  induction Hpre as [|x pre Hx _ IH]; intros w.
  - simpl. rewrite record_nil. unfold fatal in Hr. rewrite Er in Hr |- *.
    destruct e; try discriminate; reflexivity.
  - unfold fatal in Hx. simpl. unfold loopEvents. simpl.
    destruct (err x) as [[]|] eqn:Ex; try discriminate; simpl.
    + apply IH.
    + unfold logf. erewrite bind_run by apply emit_run.
      rewrite IH. by rewrite record_record.
    + erewrite bind_run by apply emit_run.
      rewrite IH. by rewrite record_record.
Qed.

Lemma forwarded_loopEvents pre : forwarded (loopEvents pre) = received pre.
Proof.
  induction pre as [|r pre IH]; [done|].
  unfold forwarded, loopEvents, received in *. simpl.
  destruct (err r) as [[]|]; simpl; first [exact IH | f_equal; exact IH].
Qed.

Lemma logged_loopEvents pre : logged (loopEvents pre) = malformedWarnings pre.
Proof.
  induction pre as [|r pre IH]; [done|].
  unfold logged, loopEvents, malformedWarnings in *. simpl.
  destruct (err r) as [[]|]; simpl; first [exact IH | f_equal; exact IH].
Qed.

Lemma length_loopEvents pre :
  length (loopEvents pre) = length (received pre) + length (malformedWarnings pre).
Proof.
  induction pre as [|r pre IH]; [done|].
  unfold loopEvents, received, malformedWarnings, omap in *. simpl.
  destruct (err r) as [[]|]; simpl; rewrite IH; lia.
Qed.

Lemma receiveMessageRecursive_pending id pre w :
  Forall (fun r => fatal r = false) pre ->
  receiveMessageRecursive (Some {| connID := id; incoming := pre |}) w
  = (Pending, record (EvLog InfoLevel "start receiving message" [] :: loopEvents pre) w).
Proof.
  intros Hpre. unfold receiveMessageRecursive, logf. cbn [incoming].
  erewrite bind_run by apply emit_run. cbv beta iota.
  erewrite bind_pending by (by apply receiveLoop_pending).
  by rewrite record_record.
Qed.

Lemma receiveMessageRecursive_fatal conn pre r e post w :
  incoming conn = pre ++ r :: post ->
  Forall (fun r => fatal r = false) pre ->
  err r = Some e -> fatal r = true ->
  receiveMessageRecursive (Some conn) w
  = (Ret (Some e),
     record (EvLog InfoLevel "start receiving message" [] :: loopEvents pre) w).
Proof.
  intros Hin Hpre Er Hr. unfold receiveMessageRecursive, logf. rewrite Hin.
  erewrite bind_run by apply emit_run. cbv beta iota.
  erewrite bind_run by (by eapply receiveLoop_fatal).
  by rewrite record_record.
Qed.

(** C1: whatever the receiver produces, as long as no result is fatal the
    loop is still receiving (a keep-alive or a malformed payload never ends
    it); it has forwarded the messages received without error, in order, has
    logged one warning per malformed payload and has done nothing else
    (nothing at all for a keep-alive); and it returns exactly at the first
    fatal result, with that result's error. *)
Theorem receiveMessageRecursive_classification
    (id : nat) (pre : list Received) (w : World) :
  Forall (fun r => fatal r = false) pre ->
  exists evs,
    receiveMessageRecursive (Some {| connID := id; incoming := pre |}) w
      = (Pending, record evs w) /\
    (forall r e post, err r = Some e -> fatal r = true ->
       receiveMessageRecursive (Some {| connID := id; incoming := pre ++ r :: post |}) w
         = (Ret (Some e), record evs w)) /\
    forwarded evs = received pre /\
    logged evs = (InfoLevel, "start receiving message", []) :: malformedWarnings pre /\
    length evs = length (received pre) + S (length (malformedWarnings pre)).
Proof.
  intros Hpre.
  exists (EvLog InfoLevel "start receiving message" [] :: loopEvents pre).
  repeat split.
  - by apply receiveMessageRecursive_pending.
  - intros r e post Er Hr. by eapply receiveMessageRecursive_fatal.
  - apply forwarded_loopEvents.
  - unfold logged. simpl. f_equal. apply logged_loopEvents.
  - simpl. rewrite length_loopEvents. lia.
Qed.

(** A run of the receive loop: two messages around a keep-alive and a
    malformed payload, then a read error. *)
Lemma receiveMessageRecursive_classification_witness :
  exists evs,
    receiveMessageRecursive
      (Some {| connID := 0;
               incoming :=
                 [ {| message := Some {| roomID := "r"; text := "a" |}; err := None |};
                   {| message := None; err := Some EmptyPayloadError |};
                   {| message := None; err := Some (MalformedPayloadError "bad") |};
                   {| message := Some {| roomID := "r"; text := "b" |}; err := None |} ] |})
      {| roomsScript := fun _ => (None, None); roomsCalls := 0;
         connectScript := fun _ => (None, None); connectCalls := 0; trace := [] |}
      = (Pending,
         {| roomsScript := fun _ => (None, None); roomsCalls := 0;
            connectScript := fun _ => (None, None); connectCalls := 0; trace := evs |}) /\
    forwarded evs = [ Some {| roomID := "r"; text := "a" |};
                      Some {| roomID := "r"; text := "b" |} ].
Proof.
  destruct (receiveMessageRecursive_classification 0
    [ {| message := Some {| roomID := "r"; text := "a" |}; err := None |};
      {| message := None; err := Some EmptyPayloadError |};
      {| message := None; err := Some (MalformedPayloadError "bad") |};
      {| message := Some {| roomID := "r"; text := "b" |}; err := None |} ]
    {| roomsScript := fun _ => (None, None); roomsCalls := 0;
       connectScript := fun _ => (None, None); connectCalls := 0; trace := [] |})
    as (evs & Hrun & _ & Hfwd & _).
  - repeat constructor.
  - exists evs. split; [exact Hrun | exact Hfwd].
Defined.

(** *** runEachRoom *)

Lemma withConnects_record c t evs w : withConnects c t (record evs w) = withConnects c t w.
Proof. reflexivity. Qed.

Lemma record_withConnects c t evs w :
  record evs (withConnects c t w) = withConnects c (t ++ evs) w.
Proof. reflexivity. Qed.

Lemma signalled_cons ev l : signalled (ev :: l) = signalled [ev] ++ signalled l.
Proof. apply (signalled_app [ev] l). Qed.

Lemma connectAttempts_cons ev l :
  connectAttempts (ev :: l) = connectAttempts [ev] + connectAttempts l.
Proof. apply (connectAttempts_app [ev] l). Qed.

Lemma signalled_connectRetries w ctx room p k :
  signalled (connectRetries w ctx room p k) = [].
Proof.
  induction k as [|k IH]; [done|].
  rewrite connectRetries_S, !signalled_app, IH. unfold connectEvents.
  by destruct (snd (connectScript w (p + k))).
Qed.

Section Room.
Variables (receive : option Connection -> M World (option error)).
Variables (ctx : Context) (room : Room).

Let connecting : Event := EvLog InfoLevel "connecting to room: %s" [LStr (ID room)].

Lemma runEachRoom_done dones w :
  runEachRoomWith receive (true :: dones) ctx room w = (Ret tt, w).
Proof. reflexivity. Qed.

Lemma runEachRoom_gives_up dones w :
  (forall i, i < 10 -> is_Some (snd (connectScript w (connectCalls w + i)))) ->
  runEachRoomWith receive (false :: dones) ctx room w
  = (Ret tt,
     withConnects (connectCalls w + 10)
       (trace w ++ (connecting :: connectRetries w ctx room (connectCalls w) 9
                      ++ connectEvents w ctx room (connectCalls w + 9))
                ++ [EvLog WarnLevel "could not connect to room: %s" [LStr (ID room)]]) w).
Proof.
  intros Hfail. cbn [runEachRoomWith]. unfold logf.
  erewrite bind_run by apply emit_run.
  erewrite bind_run
    by exact (connectRoom_exhausted ctx room (record [connecting] w) Hfail).
  cbn [snd]. rewrite emit_run.
  change (connectRetries (record [connecting] w)) with (connectRetries w).
  change (connectEvents (record [connecting] w)) with (connectEvents w).
  unfold record, withConnects.
  cbn [trace roomsScript roomsCalls connectScript connectCalls].
  rewrite <- !app_assoc. cbn [app]. rewrite <- !app_assoc. reflexivity.
Qed.

Lemma runEachRoom_closed conn dones w w2 w3 :
  connectRoom ctx room (record [connecting] w) = (Ret (Some conn, None), w2) ->
  receive (Some conn) w2 = (Ret None, w3) ->
  runEachRoomWith receive (false :: dones) ctx room w
  = (Ret tt, record [EvClose (connID conn)] w3).
Proof.
  intros Hconn Hrecv. cbn [runEachRoomWith]. unfold logf.
  erewrite bind_run by apply emit_run.
  erewrite bind_run by exact Hconn. cbn [fst snd].
  erewrite bind_run by exact Hrecv. cbn [closeConn].
  erewrite bind_run by apply emit_run. reflexivity.
Qed.

Lemma runEachRoom_reconnects conn e dones w w2 w3 :
  connectRoom ctx room (record [connecting] w) = (Ret (Some conn, None), w2) ->
  receive (Some conn) w2 = (Ret (Some e), w3) ->
  runEachRoomWith receive (false :: dones) ctx room w
  = runEachRoomWith receive dones ctx room
      (record [EvClose (connID conn); EvLog ErrorLevel "%v" [LStr (Error e)]] w3).
Proof.
  intros Hconn Hrecv. cbn [runEachRoomWith]. unfold logf, logv.
  erewrite bind_run by apply emit_run.
  erewrite bind_run by exact Hconn. cbn [fst snd].
  erewrite bind_run by exact Hrecv. cbn [closeConn].
  erewrite bind_run by apply emit_run. cbv beta iota.
  erewrite bind_run by apply emit_run.
  by rewrite record_record.
Qed.

End Room.

(** C7: one turn of the loop of [runEachRoom].  Seeing the context cancelled
    it returns and does nothing.  Otherwise it connects; when the retry
    budget is used up it gives up and returns, having put nothing on an
    error channel.  Once connected, when the receive function returns nil it
    closes the connection and returns without connecting again; when it
    returns an error it closes the connection, logs the error and is back at
    the head of the loop, which returns at once if the context is cancelled
    by then and connects anew otherwise.  The last part holds with
    [receiveMessageRecursive] as the receive function, whose error is the
    first fatal result of the connection. *)
Theorem runEachRoom_reconnect_discipline
    (receive : option Connection -> M World (option error)) (ctx : Context) (room : Room)
    (dones : list bool) (w : World) :
  let connecting := EvLog InfoLevel "connecting to room: %s" [LStr (ID room)] in
  runEachRoomWith receive (true :: dones) ctx room w = (Ret tt, w) /\
  ((forall i, i < 10 -> is_Some (snd (connectScript w (connectCalls w + i)))) ->
   exists evs,
     runEachRoomWith receive (false :: dones) ctx room w
       = (Ret tt, withConnects (connectCalls w + 10) (trace w ++ evs) w) /\
     signalled evs = [] /\ connectAttempts evs = 10) /\
  (forall conn w2,
     connectRoom ctx room (record [connecting] w) = (Ret (Some conn, None), w2) ->
     (forall w3, receive (Some conn) w2 = (Ret None, w3) ->
        runEachRoomWith receive (false :: dones) ctx room w
          = (Ret tt, record [EvClose (connID conn)] w3)) /\
     (forall e w3, receive (Some conn) w2 = (Ret (Some e), w3) ->
        let w4 := record [EvClose (connID conn);
                          EvLog ErrorLevel "%v" [LStr (Error e)]] w3 in
        runEachRoomWith receive (false :: dones) ctx room w
          = runEachRoomWith receive dones ctx room w4 /\
        runEachRoomWith receive (false :: true :: dones) ctx room w = (Ret tt, w4)) /\
     (forall pre r e post,
        incoming conn = pre ++ r :: post ->
        Forall (fun r => fatal r = false) pre ->
        err r = Some e -> fatal r = true ->
        exists evs,
          runEachRoom (false :: dones) ctx room w
            = runEachRoom dones ctx room
                (record (evs ++ [EvClose (connID conn);
                                 EvLog ErrorLevel "%v" [LStr (Error e)]]) w2) /\
          forwarded evs = received pre)).
Proof.
  intros connecting. split; [reflexivity|]. split.
  - intros Hfail. eexists. split; [by apply runEachRoom_gives_up|].
    rewrite signalled_app, connectAttempts_app, signalled_cons, connectAttempts_cons.
    rewrite !signalled_app, !connectAttempts_app, signalled_connectRetries,
      connectAttempts_retries, connectAttempts_events.
    split; [|reflexivity].
    unfold connectEvents. by destruct (snd (connectScript w (connectCalls w + 9))).
  - intros conn w2 Hconn. split; [|split].
    + intros w3 Hrecv. by eapply runEachRoom_closed.
    + intros e w3 Hrecv w4. split.
      * by eapply runEachRoom_reconnects.
      * erewrite runEachRoom_reconnects by eassumption. reflexivity.
    + intros pre r e post Hin Hpre Er Hr.
      exists (EvLog InfoLevel "start receiving message" [] :: loopEvents pre).
      split.
      * unfold runEachRoom. erewrite runEachRoom_reconnects;
          [|eassumption|by eapply receiveMessageRecursive_fatal].
        by rewrite record_record.
      * apply forwarded_loopEvents.
Qed.

(** A room whose connection is made at the third attempt, delivers one
    message and breaks, the context being cancelled by then; and a room that
    cannot be connected to. *)
Lemma runEachRoom_reconnect_discipline_witness :
  runEachRoom [false; true] 0 lobby flakyWorld
  = (Ret tt,
     withConnects 3
       [EvLog InfoLevel "connecting to room: %s" [LStr "lobby"];
        EvConnect 0 lobby; EvLog ErrorLevel "%v" [LErr (ErrorString "refused")];
        EvSleep 500;
        EvConnect 0 lobby; EvLog ErrorLevel "%v" [LErr (ErrorString "refused")];
        EvSleep 500;
        EvConnect 0 lobby;
        EvLog InfoLevel "start receiving message" [];
        EvInput (Some hello);
        EvClose 7;
        EvLog ErrorLevel "%v" [LStr "EOF"]] flakyWorld) /\
  (exists evs,
     runEachRoom [false] 0 lobby deadWorld = (Ret tt, withConnects 10 evs deadWorld) /\
     signalled evs = [] /\ connectAttempts evs = 10).
Proof.
  split.
  - destruct (runEachRoom_reconnect_discipline receiveMessageRecursive 0 lobby []
                flakyWorld) as (_ & _ & Hconn).
    pose (w2 := withConnects 3
            [EvLog InfoLevel "connecting to room: %s" [LStr "lobby"];
             EvConnect 0 lobby; EvLog ErrorLevel "%v" [LErr (ErrorString "refused")];
             EvSleep 500;
             EvConnect 0 lobby; EvLog ErrorLevel "%v" [LErr (ErrorString "refused")];
             EvSleep 500;
             EvConnect 0 lobby] flakyWorld).
    pose (w3 := record [EvLog InfoLevel "start receiving message" [];
                        EvInput (Some hello)] w2).
    assert (connectRoom 0 lobby
              (record [EvLog InfoLevel "connecting to room: %s" [LStr (ID lobby)]]
                 flakyWorld)
            = (Ret (Some shortLived, None), w2)) as Hc by (vm_compute; reflexivity).
    assert (receiveMessageRecursive (Some shortLived) w2
            = (Ret (Some (ErrorString "EOF")), w3))
      as Hr by (vm_compute; reflexivity).
    destruct (Hconn shortLived w2 Hc) as (_ & Herr & _).
    destruct (Herr (ErrorString "EOF") w3 Hr) as [_ Hdone].
    exact Hdone.
  - destruct (runEachRoom_reconnect_discipline receiveMessageRecursive 0 lobby []
                deadWorld) as (_ & Hgive & _).
    apply Hgive. intros i _. by eexists.
Defined.

End GitterFacts.

Module SarahFacts.
Import Sarah RetryFacts.

Lemma st_record_nil st : record [] st = st.
Proof. destruct st; unfold record; simpl. by rewrite app_nil_r. Qed.

Lemma st_record_record a b st : record b (record a st) = record (a ++ b) st.
Proof. unfold record; simpl. by rewrite app_assoc. Qed.

Lemma st_emit_run e st : emit e st = (Ret tt, record [e] st).
Proof. reflexivity. Qed.

Lemma sent_app a b : sent (a ++ b) = sent a ++ sent b.
Proof. apply omap_app. Qed.

(** *** Registration *)

Section Registration.
Variable newBot : Adapter -> string -> Bot.

Lemma conflict_check_panics adapter bs st :
  existsb (fun bot => String.eqb (GetBotType bot) (AdapterBotType adapter)) bs = true ->
  exists msg, conflictCheck adapter bs st = (Panic msg, st).
Proof.
  unfold conflictCheck.
  induction bs as [|b bs IH]; [done|]. simpl.
  destruct (String.eqb (GetBotType b) (AdapterBotType adapter)) eqn:E; simpl.
  - intros _. by eexists.
  - intros Hex. destruct (IH Hex) as [msg Hmsg]. exists msg.
    erewrite bind_run by reflexivity. exact Hmsg.
Qed.

Lemma conflict_check_passes adapter bs st :
  existsb (fun bot => String.eqb (GetBotType bot) (AdapterBotType adapter)) bs = false ->
  conflictCheck adapter bs st = (Ret tt, st).
Proof.
  unfold conflictCheck.
  induction bs as [|b bs IH]; [done|]. simpl.
  destruct (String.eqb (GetBotType b) (AdapterBotType adapter)) eqn:E; simpl; [done|].
  intros Hex. erewrite bind_run by reflexivity. by apply IH.
Qed.

(** [RegisterAdapter] does refuse an adapter whose BotType a stored bot has:
    it panics and leaves the runner as it was. *)
Lemma RegisterAdapter_conflict adapter dir st :
  existsb (fun bot => String.eqb (GetBotType bot) (AdapterBotType adapter)) (bots st) = true ->
  exists msg, RegisterAdapter newBot adapter dir st = (Panic msg, st).
Proof.
  intros Hex. destruct (conflict_check_panics adapter (bots st) st Hex) as [msg Hmsg].
  exists msg. unfold RegisterAdapter.
  erewrite bind_run by reflexivity.
  by erewrite bind_panic by exact Hmsg.
Qed.

Lemma RegisterAdapter_fresh adapter dir st :
  existsb (fun bot => String.eqb (GetBotType bot) (AdapterBotType adapter)) (bots st) = false ->
  RegisterAdapter newBot adapter dir st
  = (Ret tt, set_bots (fun bs => bs ++ [newBot adapter dir]) st).
Proof.
  intros Hex. unfold RegisterAdapter.
  erewrite bind_run by reflexivity.
  by erewrite bind_run by (by apply conflict_check_passes).
Qed.

End Registration.

(** C2 fails on [RegisterBot], which stores whatever bot it is given: two
    bots of one BotType are both stored, and [Run] starts the three
    goroutines of each.  The same second registration made through
    [RegisterAdapter] does panic. *)
Theorem RegisterBot_accepts_duplicate_BotType :
  (forall bot st, RegisterBot bot st = (Ret tt, set_bots (fun bs => bs ++ [bot]) st)) /\
  GetBotType pingBot = GetBotType twinBot /\
  fst (twinStartup (NewRunner sampleConfig)) = Ret tt /\
  bots (snd (twinStartup (NewRunner sampleConfig))) = [pingBot; twinBot] /\
  goroutines (snd (twinStartup (NewRunner sampleConfig)))
  = [GoRespond [1] pingBot 3; GoStopUnrecoverableBot 4 [1]; GoBotRun pingBot [1] 3 4;
     GoRespond [5] twinBot 7; GoStopUnrecoverableBot 8 [5]; GoBotRun twinBot [5] 7 8] /\
  exists msg,
    fst ((RegisterBot pingBot;; RegisterAdapter sampleNewBot slackAdapter "/etc/twin")
           (NewRunner sampleConfig)) = Panic msg.
Proof.
  split; [reflexivity|].
  split; [reflexivity|]. split; [reflexivity|]. split; [reflexivity|].
  split; [reflexivity|]. eexists. reflexivity.
Qed.

(** *** The dispatch loop and its jobs *)

Lemma respond_received botCtx bot input rest st :
  Nat.ltb (length (queue st)) (queueSize (config st)) = true ->
  respond (Received input :: rest) botCtx bot st
  = respond rest botCtx bot
      (set_queue (fun q => q ++ [jobFor botCtx bot input])
         (record [EvLog DebugLevel "responding to %#v" [LInput input]] st)).
Proof.
  intros Hroom. cbn [respond]. unfold logf.
  erewrite bind_run by apply st_emit_run.
  erewrite bind_run; [reflexivity|].
  unfold EnqueueJob, workerEnqueueJob. cbn [queue config record]. by rewrite Hroom.
Qed.

Lemma respond_blocked botCtx bot input rest st :
  Nat.ltb (length (queue st)) (queueSize (config st)) = false ->
  respond (Received input :: rest) botCtx bot st
  = (Pending, record [EvLog DebugLevel "responding to %#v" [LInput input]] st).
Proof.
  intros Hfull. cbn [respond]. unfold logf.
  erewrite bind_run by apply st_emit_run.
  erewrite bind_pending; [reflexivity|].
  unfold EnqueueJob, workerEnqueueJob. cbn [queue config record]. by rewrite Hfull.
Qed.

Lemma respond_inputs botCtx bot inputs : forall rest st,
  length (queue st) + length inputs <= queueSize (config st) ->
  respond (map Received inputs ++ rest) botCtx bot st
  = respond rest botCtx bot
      (set_queue (fun q => q ++ map (jobFor botCtx bot) inputs)
         (record (map (fun i => EvLog DebugLevel "responding to %#v" [LInput i]) inputs)
            st)).
Proof.
  induction inputs as [|input inputs IH]; intros rest st Hroom.
  - simpl. f_equal. destruct st. unfold set_queue, record. simpl.
    by rewrite !app_nil_r.
  - simpl in Hroom. cbn [map app]. rewrite respond_received
      by (apply Nat.ltb_lt; lia).
    rewrite IH by (unfold set_queue, record; simpl; rewrite length_app; simpl; lia).
    f_equal. unfold set_queue, record. simpl. by rewrite <- !app_assoc.
Qed.

Lemma runJob_run job st :
  runJob job st
  = (Ret tt,
     record (EvRespond (jobBot job) (jobCtx job) (jobInput job) ::
             match Respond (jobBot job) (jobCtx job) (jobInput job) with
             | (_, Some e) =>
                 [EvLog ErrorLevel "error on message handling. input: %#v. error: %s."
                    [LInput (jobInput job); LStr (Error e)]]
             | (None, None) => []
             | (Some res, None) =>
                 [EvSendMessage (jobBot job) (jobCtx job)
                    (NewOutputMessage (ReplyTo (jobInput job)) (Content res))]
             end) st).
Proof.
  unfold runJob. erewrite bind_run by apply st_emit_run.
  destruct (Respond (jobBot job) (jobCtx job) (jobInput job)) as [[res|] [e|]]; simpl;
    unfold logf; rewrite ?st_emit_run, ?st_record_record; reflexivity.
Qed.

(** C9: every input taken by the dispatch loop is, while the queue has room,
    turned into one job, in order, and the loop goes on to the next input.
    Run by a worker, the job of an input calls [Respond] and then calls
    [SendMessage] exactly once, with the content of the response and the
    input's reply target, if and only if [Respond] gave a response and no
    error; otherwise it sends nothing, and an error is logged once at error
    severity.  The job always returns and changes nothing but the trace. *)
Theorem respond_job_sends_reply
    (botCtx : Context) (bot : Bot) (inputs : list Input) (input : Input) (st : State) :
  (length (queue st) + length inputs <= queueSize (config st) ->
   exists st',
     respond (map Received inputs ++ [CtxDone]) botCtx bot st = (Ret tt, st') /\
     queue st' = queue st ++ map (jobFor botCtx bot) inputs /\
     sent (trace st') = sent (trace st)) /\
  exists evs,
    runJob (jobFor botCtx bot input) st = (Ret tt, record evs st) /\
    sent evs = match Respond bot botCtx input with
               | (Some res, None) =>
                   [(bot, botCtx, NewOutputMessage (ReplyTo input) (Content res))]
               | _ => []
               end /\
    ((exists res, Respond bot botCtx input = (Some res, None)) <-> length (sent evs) = 1) /\
    logged evs = match snd (Respond bot botCtx input) with
                 | Some e => [(ErrorLevel,
                               "error on message handling. input: %#v. error: %s.",
                               [LInput input; LStr (Error e)])]
                 | None => []
                 end.
Proof.
  split.
  - intros Hroom. eexists. rewrite respond_inputs by done.
    split; [reflexivity|]. split; [reflexivity|].
    cbn [trace record set_queue]. rewrite !sent_app.
    assert (forall l, sent (map (fun i => EvLog DebugLevel "responding to %#v" [LInput i]) l)
                      = []) as Hquiet.
    { induction l as [|i l IHl]; [done|exact IHl]. }
    rewrite Hquiet. by rewrite !app_nil_r.
  - eexists. split; [apply runJob_run|]. cbn [jobBot jobCtx jobInput jobFor].
    destruct (Respond bot botCtx input) as [[res|] [e|]]; simpl;
      (split; [reflexivity|]); (split; [|reflexivity]); split;
      try (intros [r Hr]; discriminate); try discriminate; try done.
    intros _. by eexists.
Qed.

(** The spec's end-to-end case: one bot, one command answering "ping" with
    "pong". *)
Lemma respond_job_sends_reply_witness :
  (exists st',
     respond [Received ping; CtxDone] [1] pingBot (NewRunner sampleConfig) = (Ret tt, st') /\
     queue st' = [jobFor [1] pingBot ping]) /\
  exists evs,
    runJob (jobFor [1] pingBot ping) (NewRunner sampleConfig)
      = (Ret tt, record evs (NewRunner sampleConfig)) /\
    sent evs = [(pingBot, [1], {| destination := "alice"; content := "pong" |})].
Proof.
  destruct (respond_job_sends_reply [1] pingBot [ping] ping (NewRunner sampleConfig))
    as [Hloop (evs & Hrun & Hsent & _)].
  split.
  - destruct Hloop as (st' & Hret & Hqueue & _); [simpl; lia|].
    exists st'. split; [exact Hret|exact Hqueue].
  - exists evs. split; [exact Hrun|exact Hsent].
Defined.

(** *** The fatal-error watch loop *)

Lemma stopUnrecoverableBot_ignores errs stopBot st :
  Forall (fun e => nonContinuable e = false) errs ->
  stopUnrecoverableBot errs stopBot st = (Pending, st).
Proof.
  induction 1 as [|e errs He _ IH]; [done|].
  destruct e as [[]|]; try discriminate; exact IH.
Qed.

Lemma stopUnrecoverableBot_stops errs m post stopBot st :
  Forall (fun e => nonContinuable e = false) errs ->
  stopUnrecoverableBot (errs ++ Some (BotNonContinuableError m) :: post) stopBot st
  = (Ret tt,
     set_cancelled (fun cs => cs ++ [stopBot])
       (record [EvLog ErrorLevel "stop unrecoverable bot: %s" [LStr m]] st)).
Proof.
  induction 1 as [|e errs He _ IH]; [reflexivity|].
  destruct e as [[]|]; try discriminate; exact IH.
Qed.

Lemma lineage_length ctx c : c ∈ lineage ctx -> length c <= length ctx.
Proof.
  induction ctx as [|n parent IH]; simpl.
  - intros ->%list_elem_of_singleton. done.
  - intros [->|Hin]%elem_of_cons; [done|]. specialize (IH Hin). lia.
Qed.

Lemma child_not_in_lineage n parent : n :: parent ∉ lineage parent.
Proof. intros Hin%lineage_length. simpl in Hin. lia. Qed.

Lemma sibling_not_in_lineage n k parent : k <> n -> n :: parent ∉ lineage (k :: parent).
Proof.
  intros Hne. simpl. intros [Heq|Hin]%elem_of_cons; [congruence|].
  by apply child_not_in_lineage in Hin.
Qed.

(** Cancelling [stopBot] closes [Done()] only for the contexts that descend
    from it. *)
Lemma isDone_cancel_other stopBot ctx st :
  stopBot ∉ lineage ctx ->
  isDone (set_cancelled (fun cs => cs ++ [stopBot]) st) ctx = isDone st ctx.
Proof.
  intros Hout. unfold isDone. cbn [cancelled set_cancelled].
  induction (lineage ctx) as [|c cs IH]; [done|].
  apply not_elem_of_cons in Hout as [Hne Hout]. simpl. rewrite IH by done. f_equal.
  apply bool_decide_ext. rewrite elem_of_app, list_elem_of_singleton.
  split; [intros [Hc|Hc]; [exact Hc|congruence]|by left].
Qed.

Lemma isDone_cancel_self n parent st :
  isDone (set_cancelled (fun cs => cs ++ [n :: parent]) st) (n :: parent) = true.
Proof.
  unfold isDone. cbn [cancelled set_cancelled lineage existsb].
  apply orb_true_intro. left. apply bool_decide_eq_true.
  apply elem_of_app. right. by apply list_elem_of_singleton.
Qed.

(** C5, as stated, fails in one point: an error that is not a
    [BotNonContinuableError] is not logged; the watch loop drops it and
    leaves the state, the trace included, as it was. *)
Lemma other_errors_are_not_logged :
  stopUnrecoverableBot [Some (ErrorString "connection reset")] [1] (NewRunner sampleConfig)
  = (Pending, NewRunner sampleConfig) /\
  logged (trace (snd (stopUnrecoverableBot [Some (ErrorString "connection reset")] [1]
                        (NewRunner sampleConfig)))) = [].
Proof. split; reflexivity. Qed.

(** C5, amended: the watch loop of the bot whose context is [n :: parent]
    drops every error that is not a [BotNonContinuableError], without
    logging it and without cancelling anything, and goes on listening.  At
    the first [BotNonContinuableError] it logs once at error severity,
    cancels the context of its own bot and returns: that context is done,
    while the parent context (under which the Worker Pool runs), the
    contexts of the sibling bots and every context that does not descend
    from the cancelled one are as they were.  By [Run_bot_contexts] the bots
    that [Run] starts have pairwise different contexts of that form, each
    with the watch loop that cancels it. *)
Theorem stopUnrecoverableBot_cancels_only_its_bot
    (errs : list (option error)) (n : nat) (parent : Context) (st : State) :
  Forall (fun e => nonContinuable e = false) errs ->
  stopUnrecoverableBot errs (n :: parent) st = (Pending, st) /\
  forall m post,
    exists st',
      stopUnrecoverableBot (errs ++ Some (BotNonContinuableError m) :: post)
        (n :: parent) st = (Ret tt, st') /\
      trace st' = trace st ++ [EvLog ErrorLevel "stop unrecoverable bot: %s" [LStr m]] /\
      cancelled st' = cancelled st ++ [n :: parent] /\
      queue st' = queue st /\
      isDone st' (n :: parent) = true /\
      isDone st' parent = isDone st parent /\
      (forall k, k <> n -> isDone st' (k :: parent) = isDone st (k :: parent)) /\
      (forall ctx, n :: parent ∉ lineage ctx -> isDone st' ctx = isDone st ctx).
Proof.
  intros Hpre. split; [by apply stopUnrecoverableBot_ignores|].
  intros m post. eexists. split; [by apply stopUnrecoverableBot_stops|].
  split; [reflexivity|]. split; [reflexivity|]. split; [reflexivity|].
  split; [apply isDone_cancel_self|].
  split; [|split].
  - apply (isDone_cancel_other (n :: parent) parent (record _ st)).
    apply child_not_in_lineage.
  - intros k Hk. apply (isDone_cancel_other (n :: parent) (k :: parent) (record _ st)).
    by apply sibling_not_in_lineage.
  - intros ctx Hout. by apply (isDone_cancel_other (n :: parent) ctx (record _ st)).
Qed.

(** The watch loop of the first of two bots started under the root context:
    a generic error, then a non-continuable one. *)
Lemma stopUnrecoverableBot_cancels_only_its_bot_witness :
  stopUnrecoverableBot [Some (ErrorString "connection reset")] [1] (NewRunner sampleConfig)
  = (Pending, NewRunner sampleConfig) /\
  exists st',
    stopUnrecoverableBot
      [Some (ErrorString "connection reset"); Some (BotNonContinuableError "no rooms")]
      [1] (NewRunner sampleConfig) = (Ret tt, st') /\
    cancelled st' = [[1]] /\
    isDone st' [1] = true /\ isDone st' [] = false /\ isDone st' [5] = false.
Proof.
  destruct (stopUnrecoverableBot_cancels_only_its_bot
              [Some (ErrorString "connection reset")] 1 [] (NewRunner sampleConfig))
    as [Hignore Hstop].
  - repeat constructor.
  - split; [exact Hignore|].
    destruct (Hstop "no rooms" []) as (st' & Hret & _ & Hc & _ & Hself & Hparent & Hsib & _).
    exists st'. split; [exact Hret|]. split; [exact Hc|]. split; [exact Hself|].
    split; [exact Hparent|]. apply (Hsib 5). discriminate.
Defined.

(** *** Run and the cron functions *)

Lemma executed_app a b : executed (a ++ b) = executed a ++ executed b.
Proof. apply omap_app. Qed.

Lemma fire_bound f task bot st :
  heap st !! taskVar f = Some (VTask task) ->
  heap st !! botVar f = Some (VBot bot) ->
  fire f st = (Ret tt, record (firing f task bot) st).
Proof.
  intros Ht Hb. unfold fire, firing. erewrite bind_run by reflexivity.
  rewrite Ht, Hb. erewrite bind_run by apply st_emit_run.
  destruct (Execute task (funcCtx f)) as [[res|] [e|]]; simpl;
    unfold logf; rewrite ?st_emit_run, ?st_record_record; reflexivity.
Qed.

(** C4 fails: the bot's stash compiles to [morning] and [evening]; both cron
    entries hold the same function, whose [task] is the one variable of the
    loop, and firing the entry registered under the schedule of [morning]
    executes [evening] and sends its output. *)
Theorem cron_callbacks_share_the_task_variable :
  sampleTasks (GetBotType pingBot) (PluginConfigDir pingBot) = [morning; evening] /\
  entries (snd (singleStartup (NewRunner sampleConfig)))
  = [(Schedule morning, sampleFunc); (Schedule evening, sampleFunc)] /\
  fire sampleFunc (snd (singleStartup (NewRunner sampleConfig)))
  = (Ret tt, record (firing sampleFunc evening pingBot)
               (snd (singleStartup (NewRunner sampleConfig)))) /\
  executed (firing sampleFunc evening pingBot) = ["evening"] /\
  sent (firing sampleFunc evening pingBot)
  = [(pingBot, [1], {| destination := "random"; content := "good evening" |})].
Proof.
  split; [reflexivity|]. split; [reflexivity|].
  split; [by apply fire_bound|]. split; reflexivity.
Qed.

(** C3, as stated, fails: after startup the firing of a registered cron
    function executes the task and sends its output on the spot, and the
    queue of the Worker Pool stays empty. *)
Lemma cron_firing_enqueues_no_job :
  (Schedule morning, sampleFunc) ∈ entries (snd (singleStartup (NewRunner sampleConfig))) /\
  queue (snd (singleStartup (NewRunner sampleConfig))) = [] /\
  fst (fire sampleFunc (snd (singleStartup (NewRunner sampleConfig)))) = Ret tt /\
  queue (snd (fire sampleFunc (snd (singleStartup (NewRunner sampleConfig))))) = [] /\
  length (executed (trace (snd (fire sampleFunc
                                  (snd (singleStartup (NewRunner sampleConfig))))))) = 1.
Proof.
  split; [apply elem_of_cons; by left|].
  split; [reflexivity|].
  rewrite (fire_bound sampleFunc evening pingBot) by reflexivity.
  repeat split; reflexivity.
Qed.

Section RunFacts.
Variable buildCommands : BotType -> string -> list Command.
Variable buildTasks : BotType -> string -> list ScheduledTask.
Variable parseSchedule : string -> option error.

Lemma commands_loop b cs : forall st,
  forRange cs (fun command => emit (EvAppendCommand b command)) st
  = (Ret tt, record (map (EvAppendCommand b) cs) st).
Proof.
  induction cs as [|c cs IH]; intros st.
  - simpl. by rewrite st_record_nil.
  - cbn [forRange map]. erewrite bind_run by apply st_emit_run.
    rewrite IH. by rewrite st_record_record.
Qed.

Lemma addTasks_nil taskLoc botLoc botCtx st :
  addTasks parseSchedule taskLoc botLoc botCtx [] st = st.
Proof. destruct st. unfold addTasks, set_entries, set_heap. simpl. by rewrite app_nil_r. Qed.

Lemma tasks_loop taskLoc botLoc botCtx ts : forall st,
  forRange ts
    (fun t =>
       store taskLoc (VTask t);;
       _ ← cronAddFunc parseSchedule (Schedule t)
             {| taskVar := taskLoc; funcCtx := botCtx; botVar := botLoc |};
       ret tt) st
  = (Ret tt, addTasks parseSchedule taskLoc botLoc botCtx ts st).
Proof.
  induction ts as [|t ts IH]; intros st.
  - simpl. by rewrite addTasks_nil.
  - cbn [forRange].
    assert (last (t :: ts) = match last ts with Some tl => Some tl | None => Some t end)
      as Hlast.
    { destruct ts as [|t' ts]; [reflexivity|].
      change (last (t :: t' :: ts)) with (last (t' :: ts)).
      destruct (last (t' :: ts)) eqn:El; [reflexivity|by apply last_None in El]. }
    unfold cronAddFunc, accepted.
    destruct (parseSchedule (Schedule t)) as [e|] eqn:Hparse.
    + erewrite bind_run by reflexivity. rewrite IH. f_equal.
      unfold addTasks, set_entries, set_heap, store, modify, accepted.
      cbn [config bots queue entries heap cancelled goroutines fresh trace List.filter].
      rewrite Hparse, Hlast. f_equal.
      destruct (last ts); [by rewrite insert_insert_eq|reflexivity].
    + erewrite bind_run by reflexivity. rewrite IH. f_equal.
      unfold addTasks, set_entries, set_heap, store, modify, accepted.
      cbn [config bots queue entries heap cancelled goroutines fresh trace List.filter].
      rewrite Hparse, Hlast. rewrite <- app_assoc. cbn [app map]. f_equal.
      destruct (last ts); [by rewrite insert_insert_eq|reflexivity].
Qed.

Lemma runBot_run ctx botLoc b st :
  runBot buildCommands buildTasks parseSchedule ctx botLoc b st
  = (Ret tt, afterBot buildCommands buildTasks parseSchedule ctx botLoc b st).
Proof.
  unfold runBot, afterBot, logf, WithCancel, declare, makeChan.
  erewrite bind_run by reflexivity.
  erewrite bind_run by apply st_emit_run.
  erewrite bind_run by reflexivity.
  erewrite bind_run by apply commands_loop.
  erewrite bind_run by reflexivity.
  erewrite bind_run by apply tasks_loop.
  erewrite bind_run by reflexivity.
  erewrite bind_run by reflexivity.
  erewrite bind_run by reflexivity.
  erewrite bind_run by reflexivity.
  unfold go, modify. f_equal.
  cbv [addTasks set_goroutines set_fresh set_entries set_heap record
       config bots queue entries heap cancelled goroutines fresh trace].
  by rewrite <- !app_assoc.
Qed.

Lemma afterBot_inv ctx botLoc b st :
  loopInv botLoc st ->
  loopInv botLoc (afterBot buildCommands buildTasks parseSchedule ctx botLoc b st) /\
  heap (afterBot buildCommands buildTasks parseSchedule ctx botLoc b st) !! botLoc = Some (VBot b).
Proof.
  intros (Hloc & _ & Hentries).
  set (ts := buildTasks (GetBotType b) (PluginConfigDir b)).
  set (n := fresh st) in *.
  assert (heap (afterBot buildCommands buildTasks parseSchedule ctx botLoc b st)
          = match last ts with
            | Some t => <[S n := VTask t]> (<[botLoc := VBot b]> (heap st))
            | None => <[botLoc := VBot b]> (heap st)
            end) as Hheap by reflexivity.
  assert (entries (afterBot buildCommands buildTasks parseSchedule ctx botLoc b st)
          = entries st ++ map (fun t => (Schedule t,
                                         {| taskVar := S n; funcCtx := n :: ctx;
                                            botVar := botLoc |}))
                            (List.filter (accepted parseSchedule) ts))
    as Hnew by reflexivity.
  assert (fresh (afterBot buildCommands buildTasks parseSchedule ctx botLoc b st) = S (S (S (S n))))
    as Hfresh by reflexivity.
  assert (heap (afterBot buildCommands buildTasks parseSchedule ctx botLoc b st) !! botLoc
          = Some (VBot b)) as Hbot.
  { rewrite Hheap. destruct (last ts).
    - rewrite lookup_insert_ne by lia. apply lookup_insert_eq.
    - apply lookup_insert_eq. }
  split; [|exact Hbot].
  split; [rewrite Hfresh; lia|]. split; [right; by eexists|].
  intros spec f. rewrite Hnew, Hfresh, Hheap.
  intros [Hold|Hadded]%elem_of_app.
  - destruct (Hentries spec f Hold) as (Hb & Hrange & task & Htask).
    split; [exact Hb|]. split; [lia|]. exists task.
    destruct (last ts).
    + rewrite !lookup_insert_ne by lia. exact Htask.
    + rewrite lookup_insert_ne by lia. exact Htask.
  - apply list_elem_of_fmap in Hadded as (t & Heq & Hin). inversion Heq; subst spec f.
    apply list_elem_of_In, filter_In in Hin as [Hin%list_elem_of_In _].
    cbn [taskVar botVar]. split; [reflexivity|]. split; [lia|].
    destruct (last ts) as [tl|] eqn:El.
    + exists tl. apply lookup_insert_eq.
    + apply last_None in El. rewrite El in Hin. by apply elem_of_nil in Hin.
Qed.

Lemma bots_loop ctx botLoc bs : forall st,
  loopInv botLoc st ->
  exists st',
    forRange bs (runBot buildCommands buildTasks parseSchedule ctx botLoc) st = (Ret tt, st') /\
    loopInv botLoc st' /\ queue st' = queue st.
Proof.
  induction bs as [|b bs IH]; intros st Hinv.
  - exists st. split; [reflexivity|]. split; [exact Hinv|reflexivity].
  - destruct (afterBot_inv ctx botLoc b st Hinv) as [Hinv' _].
    destruct (IH _ Hinv') as (st' & Hrun & Hinv'' & Hqueue).
    exists st'. split; [|split; [exact Hinv''|exact Hqueue]].
    cbn [forRange]. erewrite bind_run by apply runBot_run. exact Hrun.
Qed.

Lemma afterBot_contexts ctx botLoc b st :
  botContexts (goroutines (afterBot buildCommands buildTasks parseSchedule ctx botLoc b st))
  = botContexts (goroutines st) ++ [fresh st :: ctx] /\
  stopContexts (goroutines (afterBot buildCommands buildTasks parseSchedule ctx botLoc b st))
  = stopContexts (goroutines st) ++ [fresh st :: ctx].
Proof.
  split.
  - change (goroutines (afterBot buildCommands buildTasks parseSchedule ctx botLoc b st))
      with (goroutines st ++
            [GoRespond (fresh st :: ctx) b (S (S (fresh st)));
             GoStopUnrecoverableBot (S (S (S (fresh st)))) (fresh st :: ctx);
             GoBotRun b (fresh st :: ctx) (S (S (fresh st))) (S (S (S (fresh st))))]).
    unfold botContexts. by rewrite omap_app.
  - change (goroutines (afterBot buildCommands buildTasks parseSchedule ctx botLoc b st))
      with (goroutines st ++
            [GoRespond (fresh st :: ctx) b (S (S (fresh st)));
             GoStopUnrecoverableBot (S (S (S (fresh st)))) (fresh st :: ctx);
             GoBotRun b (fresh st :: ctx) (S (S (fresh st))) (S (S (S (fresh st))))]).
    unfold stopContexts. by rewrite omap_app.
Qed.

Lemma bots_loop_contexts ctx botLoc bs : forall st,
  NoDup (botContexts (goroutines st)) -> childrenOf ctx st ->
  stopContexts (goroutines st) = botContexts (goroutines st) ->
  exists st',
    forRange bs (runBot buildCommands buildTasks parseSchedule ctx botLoc) st = (Ret tt, st') /\
    NoDup (botContexts (goroutines st')) /\ childrenOf ctx st' /\
    stopContexts (goroutines st') = botContexts (goroutines st') /\
    length (botContexts (goroutines st'))
    = length (botContexts (goroutines st)) + length bs.
Proof.
  induction bs as [|b bs IH]; intros st Hnodup Hchildren Hstop.
  - exists st. split; [reflexivity|]. split; [exact Hnodup|]. split; [exact Hchildren|].
    split; [exact Hstop|]. simpl. lia.
  - destruct (afterBot_contexts ctx botLoc b st) as [Hbots Hstops].
    destruct (IH (afterBot buildCommands buildTasks parseSchedule ctx botLoc b st))
      as (st' & Hrun & Hnodup' & Hchildren' & Hstop' & Hlen).
    + rewrite Hbots. apply NoDup_app. split; [exact Hnodup|]. split; [|apply NoDup_singleton].
      intros c Hin ->%list_elem_of_singleton.
      destruct (Hchildren _ Hin) as (n & Heq & Hlt). inversion Heq. lia.
    + intros c. rewrite Hbots. intros [Hin| ->%list_elem_of_singleton]%elem_of_app.
      * destruct (Hchildren _ Hin) as (n & Heq & Hlt). exists n. split; [exact Heq|].
        change (fresh (afterBot buildCommands buildTasks parseSchedule ctx botLoc b st))
          with (S (S (S (S (fresh st))))). lia.
      * exists (fresh st). split; [reflexivity|].
        change (fresh (afterBot buildCommands buildTasks parseSchedule ctx botLoc b st))
          with (S (S (S (S (fresh st))))). lia.
    + by rewrite Hbots, Hstops, Hstop.
    + exists st'. split; [|split; [exact Hnodup'|split; [exact Hchildren'|split;
        [exact Hstop'|]]]].
      * cbn [forRange]. erewrite bind_run by apply runBot_run. exact Hrun.
      * rewrite Hlen, Hbots, length_app. simpl. lia.
Qed.

(** [Run] gives every bot a context of its own, a child of [ctx] different
    from the contexts of the other bots, and to the watch goroutine of the
    bot the cancel function of that very context. *)
Lemma Run_bot_contexts ctx st :
  goroutines st = [] ->
  exists st',
    Run buildCommands buildTasks parseSchedule ctx st = (Ret tt, st') /\
    NoDup (botContexts (goroutines st')) /\
    (forall c, c ∈ botContexts (goroutines st') -> exists n, c = n :: ctx) /\
    stopContexts (goroutines st') = botContexts (goroutines st') /\
    length (botContexts (goroutines st')) = length (bots st).
Proof.
  intros Hnone.
  destruct (bots_loop_contexts ctx (fresh st) (bots st)
              (set_fresh S (record [EvWorkerRun ctx (queueSize (config st))
                                      (superviseInterval (config st))] st)))
    as (st2 & Hrun & Hnodup & Hchildren & Hstop & Hlen).
  - cbn [goroutines set_fresh record]. rewrite Hnone. apply NoDup_nil_2.
  - intros c. cbn [goroutines set_fresh record]. rewrite Hnone.
    intros Hin. by apply elem_of_nil in Hin.
  - cbn [goroutines set_fresh record]. by rewrite Hnone.
  - exists (record [EvCronStart] st2). split; [|split; [exact Hnodup|split; [|split]]].
    + unfold Run. erewrite bind_run by reflexivity.
      erewrite bind_run by apply st_emit_run.
      erewrite bind_run by reflexivity.
      erewrite bind_run by exact Hrun. apply st_emit_run.
    + intros c Hin. destruct (Hchildren c Hin) as (n & Heq & _). by exists n.
    + exact Hstop.
    + cbn [goroutines record]. rewrite Hlen.
      cbn [goroutines set_fresh record]. by rewrite Hnone.
Qed.

Lemma loopInv_bound botLoc st spec f :
  loopInv botLoc st -> (spec, f) ∈ entries st -> bound (heap st) f.
Proof.
  intros (_ & Hbot & Hentries) Hin.
  destruct (Hentries spec f Hin) as (Hb & _ & task & Htask).
  destruct Hbot as [Hnil|[bot Hbot]].
  - rewrite Hnil in Hin. by apply elem_of_nil in Hin.
  - exists task, bot. by rewrite Hb.
Qed.

Lemma Run_registers_bound_functions ctx st :
  entries st = [] ->
  exists st',
    Run buildCommands buildTasks parseSchedule ctx st = (Ret tt, st') /\
    queue st' = queue st /\
    forall spec f, (spec, f) ∈ entries st' -> bound (heap st') f.
Proof.
  intros Hnone.
  assert (loopInv (fresh st)
            (set_fresh S (record [EvWorkerRun ctx (queueSize (config st))
                                    (superviseInterval (config st))] st))) as Hinv.
  { split; [simpl; lia|]. split; [by left|].
    intros spec f Hin. simpl in Hin. rewrite Hnone in Hin. by apply elem_of_nil in Hin. }
  destruct (bots_loop ctx (fresh st) (bots st) _ Hinv) as (st2 & Hrun & Hinv2 & Hqueue).
  exists (record [EvCronStart] st2). split; [|split].
  - unfold Run. erewrite bind_run by reflexivity.
    erewrite bind_run by apply st_emit_run.
    erewrite bind_run by reflexivity.
    erewrite bind_run by exact Hrun. apply st_emit_run.
  - exact Hqueue.
  - intros spec f Hin. by apply (loopInv_bound (fresh st) st2 spec f).
Qed.

(** C3, amended: on a runner without cron entries [Run] returns, enqueues
    no job, and every function it registers with cron has a task and a bot
    in its variables.  Whenever cron fires such a function later, it does
    not enqueue a job: the function itself executes the task once and, if
    the task gives a result and no error, calls [SendMessage] once with the
    task's destination and the result's content; it sends nothing
    otherwise, and logs an error of the task at error severity.  The queue
    of the Worker Pool is left as it was. *)
Theorem cron_firing_runs_task_directly (ctx : Context) (st : State) :
  entries st = [] ->
  exists st',
    Run buildCommands buildTasks parseSchedule ctx st = (Ret tt, st') /\
    queue st' = queue st /\
    forall spec f, (spec, f) ∈ entries st' ->
      exists task bot,
        forall later, heap later = heap st' ->
          fire f later = (Ret tt, record (firing f task bot) later) /\
          queue (record (firing f task bot) later) = queue later /\
          executed (firing f task bot) = [Identifier task] /\
          sent (firing f task bot)
          = match Execute task (funcCtx f) with
            | (Some res, None) =>
                [(bot, funcCtx f, NewOutputMessage (Destination task) (Content res))]
            | _ => []
            end /\
          logged (firing f task bot)
          = match snd (Execute task (funcCtx f)) with
            | Some _ => [(ErrorLevel, "error on scheduled task: %s",
                          [LStr (Identifier task)])]
            | None => []
            end.
Proof.
  intros Hnone.
  destruct (Run_registers_bound_functions ctx st Hnone) as (st' & Hrun & Hqueue & Hbound).
  exists st'. split; [exact Hrun|]. split; [exact Hqueue|].
  intros spec f Hin. destruct (Hbound spec f Hin) as (task & bot & Htask & Hbot).
  exists task, bot. intros later Hheap.
  split; [apply fire_bound; by rewrite Hheap|].
  split; [reflexivity|].
  unfold firing. by destruct (Execute task (funcCtx f)) as [[res|] [e|]].
Qed.

End RunFacts.

(** Startup of the runner with the one bot [pingBot]. *)
Lemma cron_firing_runs_task_directly_witness :
  exists st',
    Run sampleCommands sampleTasks sampleSchedules []
      (snd (RegisterBot pingBot (NewRunner sampleConfig))) = (Ret tt, st') /\
    queue st' = [] /\
    forall spec f, (spec, f) ∈ entries st' ->
      exists task bot,
        fire f st' = (Ret tt, record (firing f task bot) st') /\
        queue (record (firing f task bot) st') = queue st'.
Proof.
  destruct (cron_firing_runs_task_directly sampleCommands sampleTasks sampleSchedules []
              (snd (RegisterBot pingBot (NewRunner sampleConfig))) eq_refl)
    as (st' & Hrun & Hqueue & Hfire).
  exists st'. split; [exact Hrun|]. split; [exact Hqueue|].
  intros spec f Hin. destruct (Hfire spec f Hin) as (task & bot & Hlater).
  exists task, bot. destruct (Hlater st' eq_refl) as (Hf & Hq & _).
  split; [exact Hf|exact Hq].
Defined.

End SarahFacts.

(** * Further properties of the Runner *)

Module RunnerFacts.
Import Sarah RetryFacts SarahFacts.

(** *** Registration through [RegisterAdapter] *)

Lemma conflict_iff adapter (bs : list Bot) :
  existsb (fun bot => String.eqb (GetBotType bot) (AdapterBotType adapter)) bs = true
  <-> AdapterBotType adapter ∈ map GetBotType bs.
Proof.
  induction bs as [|b bs IH]; simpl.
  - split; [discriminate|]. intros Hin. by apply elem_of_nil in Hin.
  - rewrite orb_true_iff, elem_of_cons, IH, String.eqb_eq. intuition congruence.
Qed.

(** [RegisterAdapter] keeps the BotTypes of the stored bots pairwise
    different, as long as the default bot reports the BotType of its
    adapter: on a conflict it panics and the runner is untouched, otherwise
    the new bot is stored last. *)
Theorem RegisterAdapter_keeps_BotTypes_unique
    (newBot : Adapter -> string -> Bot) (adapter : Adapter) (dir : string) (st : State) :
  (forall a d, GetBotType (newBot a d) = AdapterBotType a) ->
  NoDup (map GetBotType (bots st)) ->
  (AdapterBotType adapter ∈ map GetBotType (bots st) ->
   exists msg, RegisterAdapter newBot adapter dir st = (Panic msg, st)) /\
  (AdapterBotType adapter ∉ map GetBotType (bots st) ->
   exists st',
     RegisterAdapter newBot adapter dir st = (Ret tt, st') /\
     bots st' = bots st ++ [newBot adapter dir] /\
     NoDup (map GetBotType (bots st'))).
Proof.
  intros Htype Hnodup. split.
  - intros Hin. apply RegisterAdapter_conflict. by apply conflict_iff.
  - intros Hout. eexists. split.
    + apply RegisterAdapter_fresh.
      destruct (existsb _ (bots st)) eqn:E; [|reflexivity].
      by apply conflict_iff in E.
    + split; [reflexivity|]. cbn [bots set_bots]. rewrite map_app. simpl.
      rewrite Htype. apply NoDup_app. split; [exact Hnodup|].
      split; [|apply NoDup_singleton].
      intros t Hin ->%list_elem_of_singleton. contradiction.
Qed.

(** A runner that stores [pingBot], of BotType "slack": an adapter of
    BotType "slack" is refused and the runner untouched, an adapter of
    BotType "gitter" is stored after [pingBot]. *)
Lemma RegisterAdapter_keeps_BotTypes_unique_witness :
  bots (snd (RegisterBot pingBot (NewRunner sampleConfig))) = [pingBot] /\
  (exists msg,
     RegisterAdapter sampleNewBot slackAdapter "/etc/twin"
       (snd (RegisterBot pingBot (NewRunner sampleConfig)))
     = (Panic msg, snd (RegisterBot pingBot (NewRunner sampleConfig)))) /\
  (exists st',
     RegisterAdapter sampleNewBot gitterAdapter "/etc/gitter"
       (snd (RegisterBot pingBot (NewRunner sampleConfig))) = (Ret tt, st') /\
     bots st' = [pingBot; sampleNewBot gitterAdapter "/etc/gitter"] /\
     NoDup (map GetBotType (bots st'))).
Proof.
  assert (NoDup (map GetBotType (bots (snd (RegisterBot pingBot (NewRunner sampleConfig))))))
    as Hnodup by (apply NoDup_singleton).
  split; [reflexivity|]. split.
  - destruct (RegisterAdapter_keeps_BotTypes_unique sampleNewBot slackAdapter "/etc/twin"
                (snd (RegisterBot pingBot (NewRunner sampleConfig)))
                (fun _ _ => eq_refl) Hnodup) as [Hconflict _].
    apply Hconflict. apply elem_of_cons. by left.
  - destruct (RegisterAdapter_keeps_BotTypes_unique sampleNewBot gitterAdapter "/etc/gitter"
                (snd (RegisterBot pingBot (NewRunner sampleConfig)))
                (fun _ _ => eq_refl) Hnodup) as [_ Hfresh].
    apply Hfresh. intros [Heq|Hin%elem_of_nil]%elem_of_cons; [discriminate|done].
Defined.

(** *** [Run] in closed form *)

Section Closed.
Variable buildCommands : BotType -> string -> list Command.
Variable buildTasks : BotType -> string -> list ScheduledTask.
Variable parseSchedule : string -> option error.
Variables (ctx : Context) (botLoc : Loc).

Local Abbreviation afterBot' := (afterBot buildCommands buildTasks parseSchedule ctx botLoc).
Local Abbreviation afterBots' := (afterBots buildCommands buildTasks parseSchedule ctx botLoc).

Lemma bots_loop_run bs : forall st,
  forRange bs (runBot buildCommands buildTasks parseSchedule ctx botLoc) st
  = (Ret tt, afterBots' bs st).
Proof.
  induction bs as [|b bs IH]; intros st; [reflexivity|].
  cbn [forRange afterBots]. erewrite bind_run by apply runBot_run. apply IH.
Qed.

Lemma afterBots_fresh bs : forall st, fresh (afterBots' bs st) = fresh st + 4 * length bs.
Proof.
  induction bs as [|b bs IH]; intros st; simpl; [lia|].
  rewrite IH. change (fresh (afterBot' b st)) with (S (S (S (S (fresh st))))). lia.
Qed.

Lemma afterBots_goroutines bs : forall st,
  goroutines (afterBots' bs st) = goroutines st ++ loopGoroutines ctx (fresh st) bs.
Proof.
  induction bs as [|b bs IH]; intros st; simpl; [by rewrite app_nil_r|].
  rewrite IH.
  change (goroutines (afterBot' b st))
    with (goroutines st ++ botGoroutines ctx (fresh st) b).
  change (fresh (afterBot' b st)) with (S (S (S (S (fresh st))))).
  by rewrite <- app_assoc.
Qed.

Lemma afterBots_entries bs : forall st,
  entries (afterBots' bs st)
  = entries st ++ loopEntries buildTasks parseSchedule ctx botLoc (fresh st) bs.
Proof.
  induction bs as [|b bs IH]; intros st; simpl; [by rewrite app_nil_r|].
  rewrite IH.
  change (entries (afterBot' b st))
    with (entries st ++ botEntries buildTasks parseSchedule ctx botLoc (fresh st) b).
  change (fresh (afterBot' b st)) with (S (S (S (S (fresh st))))).
  by rewrite <- app_assoc.
Qed.

Lemma afterBots_trace bs : forall st,
  trace (afterBots' bs st) = trace st ++ flat_map (botEvents buildCommands) bs.
Proof.
  induction bs as [|b bs IH]; intros st; simpl; [by rewrite app_nil_r|].
  rewrite IH.
  change (trace (afterBot' b st)) with (trace st ++ botEvents buildCommands b).
  by rewrite <- app_assoc.
Qed.

Lemma afterBots_rest bs : forall st,
  queue (afterBots' bs st) = queue st /\ cancelled (afterBots' bs st) = cancelled st /\
  bots (afterBots' bs st) = bots st /\ config (afterBots' bs st) = config st.
Proof.
  induction bs as [|b bs IH]; intros st; simpl; [done|].
  destruct (IH (afterBot' b st)) as (Hq & Hc & Hb & Hcfg).
  rewrite Hq, Hc, Hb, Hcfg. done.
Qed.

Lemma afterBot_heap b st :
  heap (afterBot' b st)
  = match last (buildTasks (GetBotType b) (PluginConfigDir b)) with
    | Some t => <[S (fresh st) := VTask t]> (<[botLoc := VBot b]> (heap st))
    | None => <[botLoc := VBot b]> (heap st)
    end.
Proof. reflexivity. Qed.

(** A turn of the loop assigns the bot variable and its own task variable,
    and no other. *)
Lemma afterBot_heap_other b st l :
  l <> botLoc -> l <> S (fresh st) -> heap (afterBot' b st) !! l = heap st !! l.
Proof.
  intros Hb Ht. rewrite afterBot_heap.
  destruct (last _); by rewrite ?lookup_insert_ne by done.
Qed.

Lemma afterBots_heap_other bs : forall st l,
  l <> botLoc -> l <= fresh st -> heap (afterBots' bs st) !! l = heap st !! l.
Proof.
  induction bs as [|b bs IH]; intros st l Hb Hl; [reflexivity|]. simpl.
  rewrite IH; [|done|change (fresh (afterBot' b st)) with (S (S (S (S (fresh st))))); lia].
  apply afterBot_heap_other; [done|lia].
Qed.

Lemma afterBot_heap_bot b st :
  botLoc < fresh st -> heap (afterBot' b st) !! botLoc = Some (VBot b).
Proof.
  intros Hb. rewrite afterBot_heap. destruct (last _).
  - rewrite lookup_insert_ne by lia. apply lookup_insert_eq.
  - apply lookup_insert_eq.
Qed.

Lemma afterBots_heap_bot bs : forall st bl,
  botLoc < fresh st -> last bs = Some bl ->
  heap (afterBots' bs st) !! botLoc = Some (VBot bl).
Proof.
  induction bs as [|b bs IH]; intros st bl Hb Hlast; [discriminate|]. simpl.
  destruct bs as [|b2 bs].
  - simpl in *. injection Hlast as ->. by apply afterBot_heap_bot.
  - apply IH; [|exact Hlast].
    change (fresh (afterBot' b st)) with (S (S (S (S (fresh st))))). lia.
Qed.

Lemma afterBots_heap_task bs : forall st i b tl,
  botLoc < fresh st -> bs !! i = Some b ->
  last (buildTasks (GetBotType b) (PluginConfigDir b)) = Some tl ->
  heap (afterBots' bs st) !! S (fresh st + 4 * i) = Some (VTask tl).
Proof.
  induction bs as [|b0 bs IH]; intros st i b tl Hb Hi Hlast; [done|].
  destruct i as [|i]; simpl in Hi.
  - injection Hi as ->. cbn [afterBots].
    rewrite afterBots_heap_other;
      [|lia|change (fresh (afterBot' b st)) with (S (S (S (S (fresh st))))); lia].
    rewrite afterBot_heap, Hlast. replace (fresh st + 4 * 0) with (fresh st) by lia.
    apply lookup_insert_eq.
  - cbn [afterBots].
    replace (S (fresh st + 4 * S i)) with (S (fresh (afterBot' b0 st) + 4 * i))
      by (change (fresh (afterBot' b0 st)) with (S (S (S (S (fresh st))))); lia).
    apply (IH _ i b tl); [|done..].
    change (fresh (afterBot' b0 st)) with (S (S (S (S (fresh st))))). lia.
Qed.

End Closed.

Lemma Run_closed buildCommands buildTasks parseSchedule ctx st :
  Run buildCommands buildTasks parseSchedule ctx st
  = (Ret tt,
     record [EvCronStart]
       (afterBots buildCommands buildTasks parseSchedule ctx (fresh st) (bots st)
          (set_fresh S (record [EvWorkerRun ctx (queueSize (config st))
                                  (superviseInterval (config st))] st)))).
Proof.
  unfold Run. erewrite bind_run by reflexivity.
  erewrite bind_run by apply st_emit_run.
  erewrite bind_run by reflexivity.
  erewrite bind_run; [apply st_emit_run|].
  unfold declare, next. cbn [fresh record].
  apply bots_loop_run.
Qed.



(** *** The goroutines of [Run] *)

Lemma contexts_of_loop ctx bs : forall n,
  botContexts (loopGoroutines ctx n bs)
  = (fun i => (n + 4 * i) :: ctx) <$> seq 0 (length bs) /\
  respondContexts (loopGoroutines ctx n bs) = botContexts (loopGoroutines ctx n bs) /\
  stopContexts (loopGoroutines ctx n bs) = botContexts (loopGoroutines ctx n bs) /\
  startedBots (loopGoroutines ctx n bs) = bs /\
  length (loopGoroutines ctx n bs) = 3 * length bs.
Proof.
  induction bs as [|b bs IH]; intros n; [done|].
  destruct (IH (4 + n)) as (Hc & Hr & Hs & Hb & Hl).
  cbn [loopGoroutines botGoroutines app length].
  unfold botContexts, respondContexts, stopContexts, startedBots, omap in *.
  cbn [list_omap]. rewrite Hr, Hs, Hb, Hc, Hl.
  split; [|split; [done|split; [done|split; [done|lia]]]].
  cbn [seq fmap list_fmap]. rewrite Nat.mul_0_r, Nat.add_0_r. f_equal.
  rewrite <- fmap_S_seq, <- list_fmap_compose. apply list_fmap_ext.
  intros i x _. simpl. f_equal. lia.
Qed.

Lemma contexts_distinct ctx n k :
  NoDup ((fun i => (n + 4 * i) :: ctx) <$> seq 0 k).
Proof.
  apply NoDup_fmap_2_strong; [|apply NoDup_seq].
  intros i j _ _ Heq. injection Heq. lia.
Qed.

(** [Run] returns after starting, for every registered bot in registration
    order, the three goroutines [respond], [stopUnrecoverableBot] and
    [bot.Run].  The three of a bot share a context made for that bot, a
    child of [ctx]; the contexts of different bots are different, and the
    watch goroutine holds the cancel function of its own bot's context. *)
Theorem Run_starts_three_goroutines_per_bot
    (buildCommands : BotType -> string -> list Command)
    (buildTasks : BotType -> string -> list ScheduledTask)
    (parseSchedule : string -> option error) (ctx : Context) (st : State) :
  exists st' started,
    Run buildCommands buildTasks parseSchedule ctx st = (Ret tt, st') /\
    goroutines st' = goroutines st ++ started /\
    length started = 3 * length (bots st) /\
    startedBots started = bots st /\
    botContexts started
    = (fun i => (S (fresh st) + 4 * i) :: ctx) <$> seq 0 (length (bots st)) /\
    NoDup (botContexts started) /\
    respondContexts started = botContexts started /\
    stopContexts started = botContexts started.
Proof.
  exists (snd (Run buildCommands buildTasks parseSchedule ctx st)),
         (loopGoroutines ctx (S (fresh st)) (bots st)).
  destruct (contexts_of_loop ctx (bots st) (S (fresh st))) as (Hc & Hr & Hs & Hb & Hl).
  rewrite Run_closed. cbn [snd goroutines record].
  rewrite afterBots_goroutines.
  split; [reflexivity|]. split; [reflexivity|]. split; [exact Hl|]. split; [exact Hb|].
  split; [exact Hc|]. split; [rewrite Hc; apply contexts_distinct|].
  split; [exact Hr|exact Hs].
Qed.

(** *** The cron entries of [Run] *)

Lemma schedules_of_loop buildTasks parseSchedule ctx botLoc bs : forall n,
  map fst (loopEntries buildTasks parseSchedule ctx botLoc n bs)
  = flat_map (fun b => map Schedule
                         (List.filter (accepted parseSchedule)
                            (buildTasks (GetBotType b) (PluginConfigDir b)))) bs.
Proof.
  induction bs as [|b bs IH]; intros n; [done|].
  cbn [loopEntries flat_map]. rewrite map_app, IH. f_equal.
  unfold botEntries. rewrite map_map. reflexivity.
Qed.

Lemma loopEntries_lookup buildTasks parseSchedule ctx botLoc bs : forall n i b e,
  bs !! i = Some b ->
  e ∈ botEntries buildTasks parseSchedule ctx botLoc (n + 4 * i) b ->
  e ∈ loopEntries buildTasks parseSchedule ctx botLoc n bs.
Proof.
  induction bs as [|b0 bs IH]; intros n i b e Hi He; [done|].
  cbn [loopEntries]. apply elem_of_app. destruct i as [|i]; simpl in Hi.
  - injection Hi as ->. left. by rewrite Nat.mul_0_r, Nat.add_0_r in He.
  - right. apply (IH (4 + n) i b e Hi).
    by replace (4 + n + 4 * i) with (n + 4 * S i) by lia.
Qed.

(** [Run] registers with cron one entry per scheduled task, built for a
    registered bot, whose schedule cron can parse, in the order of the bots
    and of their tasks, each under the schedule of its own task; a task whose
    schedule does not parse gets no entry, and [Run] goes on, dropping the
    error.  Entries that were there stay. *)
Theorem Run_registers_every_schedule
    (buildCommands : BotType -> string -> list Command)
    (buildTasks : BotType -> string -> list ScheduledTask)
    (parseSchedule : string -> option error) (ctx : Context) (st : State) :
  exists st' added,
    Run buildCommands buildTasks parseSchedule ctx st = (Ret tt, st') /\
    entries st' = entries st ++ added /\
    map fst added
    = flat_map (fun b => map Schedule
                           (List.filter (accepted parseSchedule)
                              (buildTasks (GetBotType b) (PluginConfigDir b))))
        (bots st).
Proof.
  exists (snd (Run buildCommands buildTasks parseSchedule ctx st)),
         (loopEntries buildTasks parseSchedule ctx (fresh st) (S (fresh st)) (bots st)).
  rewrite Run_closed. cbn [snd entries record]. rewrite afterBots_entries.
  split; [reflexivity|]. split; [reflexivity|]. apply schedules_of_loop.
Qed.

Lemma appended_app a b : appended (a ++ b) = appended a ++ appended b.
Proof. apply omap_app. Qed.

Lemma quiet_commands b cs :
  sent (map (EvAppendCommand b) cs) = [] /\
  executed (map (EvAppendCommand b) cs) = [] /\
  appended (map (EvAppendCommand b) cs) = map (pair b) cs.
Proof.
  induction cs as [|c cs (IH1 & IH2 & IH3)]; [done|].
  split; [exact IH1|]. split; [exact IH2|].
  unfold appended, omap in *. simpl. by rewrite IH3.
Qed.

Lemma logged_events_app a b : logged (a ++ b) = logged a ++ logged b.
Proof. apply omap_app. Qed.

Lemma logged_commands b cs : logged (map (EvAppendCommand b) cs) = [].
Proof. induction cs as [|c cs IH]; [done|exact IH]. Qed.

Lemma logged_bot_events buildCommands bs :
  logged (flat_map (botEvents buildCommands) bs)
  = map (fun b => (InfoLevel, "starting %s", [LStr (GetBotType b)])) bs.
Proof.
  induction bs as [|b bs IH]; [done|].
  cbn [flat_map map]. rewrite logged_events_app, IH. unfold botEvents.
  change (logged (EvLog ?lv ?f ?a :: ?l)) with ((lv, f, a) :: logged l).
  by rewrite logged_commands.
Qed.

Lemma quiet_bot_events buildCommands bs :
  sent (flat_map (botEvents buildCommands) bs) = [] /\
  executed (flat_map (botEvents buildCommands) bs) = [] /\
  appended (flat_map (botEvents buildCommands) bs)
  = flat_map (fun b => map (pair b) (buildCommands (GetBotType b) (PluginConfigDir b))) bs.
Proof.
  induction bs as [|b bs (IH1 & IH2 & IH3)]; [done|].
  destruct (quiet_commands b (buildCommands (GetBotType b) (PluginConfigDir b)))
    as (H1 & H2 & H3).
  cbn [flat_map]. rewrite sent_app, executed_app, appended_app, IH1, IH2, IH3.
  unfold botEvents.
  change (sent (EvLog ?lv ?f ?a :: ?l)) with (sent l).
  change (executed (EvLog ?lv ?f ?a :: ?l)) with (executed l).
  change (appended (EvLog ?lv ?f ?a :: ?l)) with (appended l).
  by rewrite H1, H2, H3.
Qed.

(** What [Run] itself does, in order: it starts the Worker Pool under [ctx],
    then for each registered bot, in registration order, logs its start
    once at info level and appends to it the commands built for it, and
    last starts cron; it leaves no other event.  It sends no message,
    executes no task, enqueues no job, cancels no context and leaves the
    registered bots as they are. *)
Theorem Run_wires_commands_and_nothing_else
    (buildCommands : BotType -> string -> list Command)
    (buildTasks : BotType -> string -> list ScheduledTask)
    (parseSchedule : string -> option error) (ctx : Context) (st : State) :
  exists st' evs,
    Run buildCommands buildTasks parseSchedule ctx st = (Ret tt, st') /\
    trace st' = trace st
                ++ EvWorkerRun ctx (queueSize (config st)) (superviseInterval (config st))
                   :: evs ++ [EvCronStart] /\
    evs = flat_map (fun b => EvLog InfoLevel "starting %s" [LStr (GetBotType b)]
                             :: map (EvAppendCommand b)
                                  (buildCommands (GetBotType b) (PluginConfigDir b)))
            (bots st) /\
    logged evs = map (fun b => (InfoLevel, "starting %s", [LStr (GetBotType b)])) (bots st) /\
    appended evs
    = flat_map (fun b => map (pair b) (buildCommands (GetBotType b) (PluginConfigDir b)))
        (bots st) /\
    sent evs = [] /\ executed evs = [] /\
    queue st' = queue st /\ cancelled st' = cancelled st /\ bots st' = bots st.
Proof.
  exists (snd (Run buildCommands buildTasks parseSchedule ctx st)),
         (flat_map (botEvents buildCommands) (bots st)).
  destruct (quiet_bot_events buildCommands (bots st)) as (Hsent & Hexec & Happ).
  rewrite Run_closed. cbn [snd trace queue cancelled bots record].
  rewrite afterBots_trace.
  destruct (afterBots_rest buildCommands buildTasks parseSchedule ctx (fresh st) (bots st)
              (set_fresh S (record [EvWorkerRun ctx (queueSize (config st))
                                      (superviseInterval (config st))] st)))
    as (Hq & Hc & Hb & _).
  rewrite Hq, Hc, Hb. cbn [trace queue cancelled bots set_fresh record].
  split; [reflexivity|]. split; [by rewrite <- !app_assoc|].
  split; [reflexivity|]. split; [apply logged_bot_events|].
  split; [exact Happ|]. split; [exact Hsent|]. split; [exact Hexec|]. done.
Qed.

(** After [Run], the cron functions of one bot all read the task from one
    variable and the cron functions of all bots read the bot from one
    variable: for every task of the bot at position [i] whose schedule cron
    can parse there is an entry under that schedule, and firing it executes
    the last task built for that bot (be its own schedule parsable or not),
    under that bot's context, and sends the output through the bot
    registered last. *)
Theorem Run_cron_functions_read_last_task_and_bot
    (buildCommands : BotType -> string -> list Command)
    (buildTasks : BotType -> string -> list ScheduledTask)
    (parseSchedule : string -> option error) (ctx : Context) (st : State)
    (i : nat) (b : Bot) (t : ScheduledTask) :
  bots st !! i = Some b ->
  t ∈ buildTasks (GetBotType b) (PluginConfigDir b) ->
  parseSchedule (Schedule t) = None ->
  exists st' tl bl,
    Run buildCommands buildTasks parseSchedule ctx st = (Ret tt, st') /\
    last (buildTasks (GetBotType b) (PluginConfigDir b)) = Some tl /\
    last (bots st) = Some bl /\
    let f := {| taskVar := S (S (fresh st) + 4 * i);
                funcCtx := (S (fresh st) + 4 * i) :: ctx;
                botVar := fresh st |} in
    (Schedule t, f) ∈ entries st' /\
    fire f st' = (Ret tt, record (firing f tl bl) st').
Proof.
  intros Hi Ht Hparse.
  destruct (last (buildTasks (GetBotType b) (PluginConfigDir b))) as [tl|] eqn:Htl;
    [|apply last_None in Htl; rewrite Htl in Ht; by apply elem_of_nil in Ht].
  destruct (last (bots st)) as [bl|] eqn:Hbl;
    [|apply last_None in Hbl; by rewrite Hbl in Hi].
  exists (snd (Run buildCommands buildTasks parseSchedule ctx st)), tl, bl.
  rewrite Run_closed. cbn [snd].
  split; [reflexivity|]. split; [reflexivity|]. split; [reflexivity|].
  cbv zeta. split.
  - cbn [entries record]. rewrite afterBots_entries. apply elem_of_app. right.
    cbn [fresh set_fresh record].
    apply (loopEntries_lookup buildTasks parseSchedule ctx (fresh st) (bots st)
             (S (fresh st)) i b _ Hi).
    unfold botEntries. apply list_elem_of_fmap. exists t. split; [reflexivity|].
    apply list_elem_of_In, filter_In. split; [by apply list_elem_of_In|].
    unfold accepted. by rewrite Hparse.
  - apply fire_bound; cbn [heap record taskVar botVar].
    + apply (afterBots_heap_task buildCommands buildTasks parseSchedule ctx (fresh st)
               (bots st)
               (set_fresh S (record _ st)) i b tl); [simpl; lia|exact Hi|exact Htl].
    + apply afterBots_heap_bot; [simpl; lia|exact Hbl].
Qed.

(** Two bots, the first with the tasks [morning] and [evening]: the entry of
    [morning] executes [evening] and sends through the second bot. *)
Lemma Run_cron_functions_read_last_task_and_bot_witness :
  exists st',
    Run sampleCommands sampleTasks sampleSchedules []
      (snd (twinRegistration (NewRunner sampleConfig))) = (Ret tt, st') /\
    (Schedule morning, {| taskVar := 2; funcCtx := [1]; botVar := 0 |}) ∈ entries st' /\
    fire {| taskVar := 2; funcCtx := [1]; botVar := 0 |} st'
    = (Ret tt, record (firing {| taskVar := 2; funcCtx := [1]; botVar := 0 |}
                         evening twinBot) st').
Proof.
  destruct (Run_cron_functions_read_last_task_and_bot sampleCommands sampleTasks
              sampleSchedules []
              (snd (twinRegistration (NewRunner sampleConfig))) 0 pingBot morning)
    as (st' & tl & bl & Hrun & Htl & Hbl & Hin & Hfire).
  - reflexivity.
  - apply elem_of_cons. by left.
  - reflexivity.
  - injection Htl as <-. injection Hbl as <-.
    exists st'. split; [exact Hrun|]. split; [exact Hin|exact Hfire].
Defined.

(** *** A fatal error after [Run] *)

Lemma isDone_none st c : cancelled st = [] -> isDone st c = false.
Proof.
  intros Hnone. unfold isDone. rewrite Hnone.
  induction (lineage c) as [|x l IH]; [done|]. cbn [existsb]. rewrite IH.
  rewrite orb_false_r. apply bool_decide_eq_false. apply not_elem_of_nil.
Qed.

Lemma loopGoroutines_at ctx bs : forall n j b k,
  bs !! j = Some b -> k < 3 ->
  loopGoroutines ctx n bs !! (3 * j + k) = botGoroutines ctx (n + 4 * j) b !! k.
Proof.
  induction bs as [|b0 bs IH]; intros n j b k Hj Hk; [done|].
  cbn [loopGoroutines]. destruct j as [|j]; simpl in Hj.
  - injection Hj as ->. rewrite Nat.mul_0_r, Nat.add_0_r. cbn [Nat.add].
    by apply lookup_app_l.
  - rewrite lookup_app_r by (cbn [length botGoroutines]; lia).
    replace (3 * S j + k - length (botGoroutines ctx n b0)) with (3 * j + k)
      by (cbn [length botGoroutines]; lia).
    replace (n + 4 * S j) with (4 + n + 4 * j) by lia.
    by apply IH.
Qed.

(** Startup followed by a non-continuable error on the error channel of the
    bot [b] at position [i], with no context cancelled before.  [Run] has
    started, for every bot, [respond] with the bot and its context,
    [bot.Run] of that bot with the same context, the same input channel and
    an error channel, and the watch goroutine with that same error channel
    and the cancel function of that same context; the channels and the
    contexts of different bots differ.  When the error arrives on the
    channel of bot [i], its watch loop returns and, among the contexts of
    the bots, exactly the one of bot [i] is done, while [ctx] itself, under
    which the Worker Pool runs, is not. *)
Theorem fatal_error_after_Run_stops_one_bot
    (buildCommands : BotType -> string -> list Command)
    (buildTasks : BotType -> string -> list ScheduledTask)
    (parseSchedule : string -> option error) (ctx : Context) (st : State)
    (i : nat) (b : Bot) (m : string) (post : list (option error)) :
  cancelled st = [] ->
  bots st !! i = Some b ->
  exists st' started st'',
    Run buildCommands buildTasks parseSchedule ctx st = (Ret tt, st') /\
    goroutines st' = goroutines st ++ started /\
    (forall j bj, bots st !! j = Some bj ->
       started !! (3 * j)
       = Some (GoRespond ((S (fresh st) + 4 * j) :: ctx) bj (2 + (S (fresh st) + 4 * j))) /\
       started !! (3 * j + 1)
       = Some (GoStopUnrecoverableBot (3 + (S (fresh st) + 4 * j))
                 ((S (fresh st) + 4 * j) :: ctx)) /\
       started !! (3 * j + 2)
       = Some (GoBotRun bj ((S (fresh st) + 4 * j) :: ctx)
                 (2 + (S (fresh st) + 4 * j)) (3 + (S (fresh st) + 4 * j)))) /\
    started !! (3 * i + 2)
    = Some (GoBotRun b ((S (fresh st) + 4 * i) :: ctx)
              (2 + (S (fresh st) + 4 * i)) (3 + (S (fresh st) + 4 * i))) /\
    stopUnrecoverableBot (Some (BotNonContinuableError m) :: post)
      ((S (fresh st) + 4 * i) :: ctx) st' = (Ret tt, st'') /\
    (forall j, isDone st'' ((S (fresh st) + 4 * j) :: ctx) = true <-> j = i) /\
    isDone st'' ctx = false.
Proof.
  intros Hnone Hb.
  assert (forall j bj, bots st !! j = Some bj ->
            loopGoroutines ctx (S (fresh st)) (bots st) !! (3 * j)
            = Some (GoRespond ((S (fresh st) + 4 * j) :: ctx) bj
                      (2 + (S (fresh st) + 4 * j))) /\
            loopGoroutines ctx (S (fresh st)) (bots st) !! (3 * j + 1)
            = Some (GoStopUnrecoverableBot (3 + (S (fresh st) + 4 * j))
                      ((S (fresh st) + 4 * j) :: ctx)) /\
            loopGoroutines ctx (S (fresh st)) (bots st) !! (3 * j + 2)
            = Some (GoBotRun bj ((S (fresh st) + 4 * j) :: ctx)
                      (2 + (S (fresh st) + 4 * j)) (3 + (S (fresh st) + 4 * j)))) as Hthree.
  { intros j bj Hj.
    replace (3 * j) with (3 * j + 0) at 1 by lia.
    rewrite !(loopGoroutines_at ctx (bots st) (S (fresh st)) j bj) by (done || lia).
    by repeat split. }
  exists (snd (Run buildCommands buildTasks parseSchedule ctx st)),
         (loopGoroutines ctx (S (fresh st)) (bots st)).
  eexists.
  rewrite Run_closed. cbn [snd].
  set (st' := record [EvCronStart] _).
  assert (cancelled st' = []) as Hnone'.
  { unfold st'. cbn [cancelled record].
    destruct (afterBots_rest buildCommands buildTasks parseSchedule ctx (fresh st) (bots st)
                (set_fresh S (record [EvWorkerRun ctx (queueSize (config st))
                                        (superviseInterval (config st))] st)))
      as (_ & Hc & _). rewrite Hc. exact Hnone. }
  split; [reflexivity|]. split; [|split; [exact Hthree|split; [|split; [|split]]]].
  - unfold st'. cbn [goroutines record]. by rewrite afterBots_goroutines.
  - by apply Hthree.
  - apply (stopUnrecoverableBot_stops [] m post); constructor.
  - intros j. split.
    + intros Hdone. destruct (decide (j = i)) as [|Hne]; [done|].
      rewrite isDone_cancel_other in Hdone.
      * by rewrite (isDone_none (record _ st')) in Hdone.
      * apply sibling_not_in_lineage. lia.
    + intros ->. apply isDone_cancel_self.
  - rewrite isDone_cancel_other by apply child_not_in_lineage.
    by apply (isDone_none (record _ st')).
Qed.

(** The second of two bots, [twinBot], reports that it cannot go on. *)
Lemma fatal_error_after_Run_stops_one_bot_witness :
  exists st' started st'',
    Run sampleCommands sampleTasks sampleSchedules []
      (snd (twinRegistration (NewRunner sampleConfig))) = (Ret tt, st') /\
    goroutines st' = started /\
    started !! 4 = Some (GoStopUnrecoverableBot 8 [5]) /\
    started !! 5 = Some (GoBotRun twinBot [5] 7 8) /\
    stopUnrecoverableBot [Some (BotNonContinuableError "no rooms")] [5] st' = (Ret tt, st'') /\
    isDone st'' [5] = true /\ isDone st'' [1] = false /\ isDone st'' [] = false.
Proof.
  destruct (fatal_error_after_Run_stops_one_bot sampleCommands sampleTasks sampleSchedules []
              (snd (twinRegistration (NewRunner sampleConfig))) 1 twinBot "no rooms" [])
    as (st' & started & st'' & Hrun & Hgo & Hthree & Hbot & Hstop & Hdone & Hroot).
  - reflexivity.
  - reflexivity.
  - exists st', started, st''. split; [exact Hrun|]. split; [exact Hgo|].
    split; [exact (proj1 (proj2 (Hthree 1 twinBot eq_refl)))|]. split; [exact Hbot|].
    split; [exact Hstop|].
    split; [by apply (Hdone 1)|]. split; [|exact Hroot].
    destruct (isDone st'' [1]) eqn:E; [|reflexivity].
    apply (Hdone 0) in E. discriminate.
Defined.

(** *** From the inputs to the replies *)

(** The events of the jobs [jobs] run one after the other. *)
Lemma jobs_run jobs : forall st,
  exists evs,
    forRange jobs runJob st = (Ret tt, record evs st) /\
    sent evs = omap (fun job => replyTo (jobCtx job) (jobBot job) (jobInput job)) jobs.
Proof.
  induction jobs as [|job jobs IH]; intros st.
  - exists []. by rewrite st_record_nil.
  - destruct (IH (record (EvRespond (jobBot job) (jobCtx job) (jobInput job) ::
             match Respond (jobBot job) (jobCtx job) (jobInput job) with
             | (_, Some e) =>
                 [EvLog ErrorLevel "error on message handling. input: %#v. error: %s."
                    [LInput (jobInput job); LStr (Error e)]]
             | (None, None) => []
             | (Some res, None) =>
                 [EvSendMessage (jobBot job) (jobCtx job)
                    (NewOutputMessage (ReplyTo (jobInput job)) (Content res))]
             end) st)) as (evs & Hrun & Hsent).
    eexists. split.
    + cbn [forRange]. erewrite bind_run by apply runJob_run.
      rewrite Hrun. by rewrite st_record_record.
    + rewrite sent_app, Hsent. unfold replyTo. cbn [omap list_omap].
      by destruct (Respond (jobBot job) (jobCtx job) (jobInput job)) as [[res|] [e|]].
Qed.

(** The inputs that the dispatch loop takes before its context is
    cancelled, the queue having room for them, become jobs in the order of
    the inputs; run in that order, the jobs send the replies to exactly the
    inputs for which [Respond] gave a response and no error, in the order of
    the inputs, each to the reply target of its input. *)
Theorem dispatched_jobs_reply_in_order
    (botCtx : Context) (bot : Bot) (inputs : list Input) (st : State) :
  length (queue st) + length inputs <= queueSize (config st) ->
  exists st1 st2,
    respond (map Received inputs ++ [CtxDone]) botCtx bot st = (Ret tt, st1) /\
    queue st1 = queue st ++ map (jobFor botCtx bot) inputs /\
    forRange (map (jobFor botCtx bot) inputs) runJob st1 = (Ret tt, st2) /\
    sent (trace st2) = sent (trace st) ++ omap (replyTo botCtx bot) inputs.
Proof.
  intros Hroom.
  set (st1 := record [EvLog InfoLevel "stop responding to message due to context cancel" []]
                (set_queue (fun q => q ++ map (jobFor botCtx bot) inputs)
                   (record (map (fun i => EvLog DebugLevel "responding to %#v" [LInput i])
                              inputs) st))).
  destruct (jobs_run (map (jobFor botCtx bot) inputs) st1) as (evs & Hrun & Hsent).
  exists st1, (record evs st1).
  rewrite respond_inputs by exact Hroom.
  split; [reflexivity|]. split; [reflexivity|]. split; [exact Hrun|].
  cbn [trace record]. rewrite sent_app, Hsent.
  unfold st1. cbn [trace record set_queue].
  rewrite !sent_app.
  assert (forall l, sent (map (fun i => EvLog DebugLevel "responding to %#v" [LInput i]) l)
                    = []) as Hquiet.
  { induction l as [|x l IHl]; [done|exact IHl]. }
  rewrite Hquiet. cbn [sent omap list_omap app]. rewrite !app_nil_r. f_equal.
  clear. induction inputs as [|input inputs IH]; [done|].
  unfold omap in *. simpl.
  destruct (replyTo botCtx bot input); [f_equal|]; exact IH.
Qed.

(** A "ping", an input without answer, and another "ping". *)
Lemma dispatched_jobs_reply_in_order_witness :
  exists st1 st2,
    respond [Received ping; Received {| payload := "hello"; ReplyTo := "bob" |};
             Received {| payload := "ping"; ReplyTo := "carol" |}; CtxDone]
      [1] pingBot (NewRunner sampleConfig) = (Ret tt, st1) /\
    forRange (queue st1) runJob st1 = (Ret tt, st2) /\
    sent (trace st2)
    = [(pingBot, [1], {| destination := "alice"; content := "pong" |});
       (pingBot, [1], {| destination := "carol"; content := "pong" |})].
Proof.
  destruct (dispatched_jobs_reply_in_order [1] pingBot
              [ping; {| payload := "hello"; ReplyTo := "bob" |};
               {| payload := "ping"; ReplyTo := "carol" |}] (NewRunner sampleConfig))
    as (st1 & st2 & Hrespond & Hqueue & Hjobs & Hsent).
  - simpl. lia.
  - exists st1, st2. split; [exact Hrespond|]. rewrite Hqueue. split; [exact Hjobs|].
    exact Hsent.
Defined.

End RunnerFacts.

(** * Further properties of the gitter Adapter *)

Module AdapterFacts.
Import Gitter RetryFacts GitterFacts.

(** *** Keep-alives *)

Lemma receiveLoop_skips_keepAlives results : forall w,
  receiveLoop (List.filter (fun r => negb (keepAlive r)) results) w = receiveLoop results w.
Proof.
  induction results as [|r results IH]; intros w; [reflexivity|].
  cbn [List.filter]. unfold keepAlive at 1.
  destruct (err r) as [[]|] eqn:Er; cbn [negb receiveLoop]; rewrite ?Er;
    first [reflexivity | apply IH].
Qed.

(** Keep-alives are invisible: a connection behaves as the same connection
    with its keep-alive results taken out; what is forwarded, what is
    logged and the error returned, if any, are the same. *)
Theorem keep_alives_are_invisible (id : nat) (results : list Received) (w : World) :
  receiveMessageRecursive
    (Some {| connID := id;
             incoming := List.filter (fun r => negb (keepAlive r)) results |}) w
  = receiveMessageRecursive (Some {| connID := id; incoming := results |}) w.
Proof.
  unfold receiveMessageRecursive, logf. cbn [incoming].
  erewrite !bind_run by apply emit_run. cbv beta iota.
  unfold mbind, M_bind. by rewrite receiveLoop_skips_keepAlives.
Qed.

(** *** The whole of [runEachRoom] *)

Lemma receive_cases (results : list Received) :
  Forall (fun r => fatal r = false) results \/
  exists pre r e post,
    results = pre ++ r :: post /\ Forall (fun r => fatal r = false) pre /\
    err r = Some e /\ fatal r = true.
Proof.
  induction results as [|r results [IH|(pre & r' & e & post & -> & Hpre & He & Hr)]].
  - left. constructor.
  - destruct (fatal r) eqn:Hr.
    + right. exists [], r. unfold fatal in Hr.
      destruct (err r) as [e|] eqn:He; [|discriminate].
      exists e, results. split; [reflexivity|]. split; [constructor|].
      split; [reflexivity|]. unfold fatal. by rewrite He.
    + left. by constructor.
  - destruct (fatal r) eqn:Hr0.
    + right. exists [], r. unfold fatal in Hr0.
      destruct (err r) as [e0|] eqn:He0; [|discriminate].
      exists e0, (pre ++ r' :: post). split; [reflexivity|]. split; [constructor|].
      split; [reflexivity|]. unfold fatal. by rewrite He0.
    + right. exists (r :: pre), r', e, post. split; [reflexivity|].
      split; [by constructor|]. split; [exact He|exact Hr].
Qed.

Lemma beforeFatal_prefix pre r post :
  Forall (fun r => fatal r = false) pre -> fatal r = true ->
  beforeFatal (pre ++ r :: post) = pre.
Proof.
  intros Hpre Hr. induction Hpre as [|x pre Hx _ IH]; simpl.
  - by rewrite Hr.
  - by rewrite Hx, IH.
Qed.

Lemma established_app script p a b :
  established script p (a + b) = established script p a ++ established script (p + a) b.
Proof. unfold established. by rewrite seq_app, omap_app. Qed.

Lemma established_failed script p n :
  (forall i, i < n -> is_Some (snd (script (p + i)))) -> established script p n = [].
Proof.
  revert p. induction n as [|n IH]; intros p Hfail; [reflexivity|].
  unfold established, omap in *. cbn [seq list_omap].
  destruct (Hfail 0) as [e He]; [lia|]. rewrite Nat.add_0_r in He.
  destruct (script p) as [c o]. simpl in He. subst o.
  destruct c; apply IH; intros i Hi;
    replace (S p + i) with (p + S i) by lia; apply Hfail; lia.
Qed.

Lemma established_one script p c :
  script p = (Some c, None) -> established script p 1 = [c].
Proof. intros Hs. unfold established, omap. simpl. by rewrite Hs. Qed.

Lemma chatter_silent evs :
  Forall chatter evs ->
  signalled evs = [] /\ spawned evs = [] /\ posted evs = [] /\
  closed evs = [] /\ forwarded evs = [].
Proof.
  induction 1 as [|ev evs Hev _ (H1 & H2 & H3 & H4 & H5)]; [done|].
  destruct ev; try contradiction; done.
Qed.

Lemma chatter_connectEvents w ctx room p : Forall chatter (connectEvents w ctx room p).
Proof.
  unfold connectEvents. destruct (snd (connectScript w p)); repeat constructor.
Qed.

Lemma chatter_connectRetries w ctx room p k : Forall chatter (connectRetries w ctx room p k).
Proof.
  induction k as [|k IH]; [constructor|].
  rewrite connectRetries_S. apply Forall_app. split; [exact IH|].
  apply Forall_app. split; [apply chatter_connectEvents|repeat constructor].
Qed.

Lemma loopEvents_readings pre :
  signalled (loopEvents pre) = [] /\ spawned (loopEvents pre) = [] /\
  posted (loopEvents pre) = [] /\ closed (loopEvents pre) = [].
Proof.
  induction pre as [|r pre (H1 & H2 & H3 & H4)]; [done|].
  unfold loopEvents, signalled, spawned, posted, closed, omap in *. cbn [list_omap].
  destruct (err r) as [[]|]; done.
Qed.

Lemma posted_app a b : posted (a ++ b) = posted a ++ posted b.
Proof. apply omap_app. Qed.

Lemma closed_app a b : closed (a ++ b) = closed a ++ closed b.
Proof. apply omap_app. Qed.

Lemma forwarded_app a b : forwarded (a ++ b) = forwarded a ++ forwarded b.
Proof. apply omap_app. Qed.

Lemma withConnects_same w : withConnects (connectCalls w + 0) (trace w ++ []) w = w.
Proof. destruct w. unfold withConnects. simpl. by rewrite Nat.add_0_r, app_nil_r. Qed.

Lemma withConnects_withConnects a b c t w :
  withConnects a b (withConnects c t w) = withConnects a b w.
Proof. reflexivity. Qed.

Section Whole.
Variables (ctx : Context) (room : Room).

Let connecting : Event := EvLog InfoLevel "connecting to room: %s" [LStr (ID room)].
Let starting : Event := EvLog InfoLevel "start receiving message" [].

(** The events of a turn up to the receive loop: [k] failed attempts to
    connect and the one that succeeds. *)
Let opening (w : World) (k : nat) : list Event :=
  [connecting] ++ connectRetries w ctx room (connectCalls w) k ++ [EvConnect ctx room]
  ++ [starting].

Lemma chatter_opening w k : Forall chatter (opening w k).
Proof.
  unfold opening. apply Forall_app. split; [repeat constructor|].
  apply Forall_app. split; [apply chatter_connectRetries|repeat constructor].
Qed.

Lemma connect_in_turn w k co :
  k < 10 ->
  (forall i, i < k -> is_Some (snd (connectScript w (connectCalls w + i)))) ->
  connectScript w (connectCalls w + k) = (co, None) ->
  connectRoom ctx room (record [connecting] w)
  = (Ret (co, None),
     withConnects (connectCalls w + (k + 1))
       (trace w ++ [connecting] ++ connectRetries w ctx room (connectCalls w) k
                ++ [EvConnect ctx room]) w).
Proof.
  intros Hk Hfail Hs.
  rewrite (connectRoom_succeeds ctx room (record [connecting] w) k Hk Hfail)
    by (cbn [connectScript connectCalls record]; by rewrite Hs).
  cbn [connectScript connectCalls record trace]. rewrite Hs. cbn [fst].
  rewrite withConnects_record.
  rewrite <- app_assoc. f_equal. f_equal. lia.
Qed.

(** One turn that ends in a new turn: the world in which the next turn
    starts. *)
Lemma turn_reconnects dones w k c pre r e post :
  k < 10 ->
  (forall i, i < k -> is_Some (snd (connectScript w (connectCalls w + i)))) ->
  connectScript w (connectCalls w + k) = (Some c, None) ->
  incoming c = pre ++ r :: post ->
  Forall (fun r => fatal r = false) pre -> err r = Some e -> fatal r = true ->
  runEachRoom (false :: dones) ctx room w
  = runEachRoom dones ctx room
      (withConnects (connectCalls w + (k + 1))
         (trace w ++ opening w k ++ loopEvents pre
                  ++ [EvClose (connID c); EvLog ErrorLevel "%v" [LStr (Error e)]]) w).
Proof.
  intros Hk Hfail Hs Hin Hpre He Hr. unfold runEachRoom.
  rewrite (runEachRoom_reconnects receiveMessageRecursive ctx room c e dones w _ _
             (connect_in_turn w k (Some c) Hk Hfail Hs)
             (receiveMessageRecursive_fatal c pre r e post _ Hin Hpre He Hr)).
  f_equal. unfold opening.
  cbv [record withConnects roomsScript roomsCalls connectScript connectCalls trace].
  f_equal. rewrite <- !app_assoc. reflexivity.
Qed.

(** One turn in which the receive loop stays blocked. *)
Lemma turn_blocks dones w k c :
  k < 10 ->
  (forall i, i < k -> is_Some (snd (connectScript w (connectCalls w + i)))) ->
  connectScript w (connectCalls w + k) = (Some c, None) ->
  Forall (fun r => fatal r = false) (incoming c) ->
  runEachRoom (false :: dones) ctx room w
  = (Pending,
     withConnects (connectCalls w + (k + 1))
       (trace w ++ opening w k ++ loopEvents (incoming c)) w).
Proof.
  intros Hk Hfail Hs Hall. destruct c as [id results]. cbn [incoming] in *.
  unfold runEachRoom. cbn [runEachRoomWith]. unfold logf.
  erewrite bind_run by apply emit_run.
  erewrite bind_run by exact (connect_in_turn w k _ Hk Hfail Hs).
  cbn [fst snd].
  erewrite bind_pending by (apply receiveMessageRecursive_pending; exact Hall).
  f_equal. unfold opening.
  cbv [record withConnects roomsScript roomsCalls connectScript connectCalls trace].
  f_equal. rewrite <- !app_assoc. reflexivity.
Qed.

(** One turn in which the streaming client gives neither connection nor
    error. *)
Lemma turn_panics dones w k :
  k < 10 ->
  (forall i, i < k -> is_Some (snd (connectScript w (connectCalls w + i)))) ->
  connectScript w (connectCalls w + k) = (None, None) ->
  runEachRoom (false :: dones) ctx room w
  = (Panic "invalid memory address or nil pointer dereference",
     withConnects (connectCalls w + (k + 1)) (trace w ++ opening w k) w).
Proof.
  intros Hk Hfail Hs. unfold runEachRoom. cbn [runEachRoomWith]. unfold logf.
  erewrite bind_run by apply emit_run.
  erewrite bind_run by exact (connect_in_turn w k None Hk Hfail Hs).
  cbn [fst snd].
  erewrite bind_panic by reflexivity.
  f_equal. unfold opening.
  cbv [record withConnects roomsScript roomsCalls connectScript connectCalls trace].
  f_equal. rewrite <- !app_assoc. reflexivity.
Qed.

(** Whatever the scripts, [runEachRoom] leaves the world with some more
    calls of the streaming client and some more events, none of them a send
    on an error channel, a new goroutine or a post; and when it returns, it
    has closed the connections it established, in order, and forwarded what
    each of them received up to its first fatal result. *)
Lemma runEachRoom_shape dones : forall w,
  exists n evs res,
    runEachRoom dones ctx room w
      = (res, withConnects (connectCalls w + n) (trace w ++ evs) w) /\
    signalled evs = [] /\ spawned evs = [] /\ posted evs = [] /\
    (res = Ret tt ->
       closed evs = map connID (established (connectScript w) (connectCalls w) n) /\
       forwarded evs
       = flat_map (fun c => received (beforeFatal (incoming c)))
           (established (connectScript w) (connectCalls w) n)).
Proof.
  induction dones as [|d dones IH]; intros w.
  - exists 0, [], Pending. rewrite withConnects_same.
    split; [reflexivity|]. repeat split; try reflexivity; discriminate.
  - destruct d.
    { exists 0, [], (Ret tt). rewrite withConnects_same.
      split; [reflexivity|]. repeat split; reflexivity. }
    destruct (first_success (connectScript w) (connectCalls w) 10)
      as [Hfail|(k & Hk & Hfail & Hok)].
    { eexists 10, _, (Ret tt). split.
      - unfold runEachRoom. apply runEachRoom_gives_up. exact Hfail.
      - assert (Forall chatter
                  ((EvLog InfoLevel "connecting to room: %s" [LStr (ID room)]
                    :: connectRetries w ctx room (connectCalls w) 9
                       ++ connectEvents w ctx room (connectCalls w + 9))
                   ++ [EvLog WarnLevel "could not connect to room: %s" [LStr (ID room)]]))
          as Hchat.
        { apply Forall_app. split; [|repeat constructor].
          constructor; [exact I|]. apply Forall_app.
          split; [apply chatter_connectRetries|apply chatter_connectEvents]. }
        destruct (chatter_silent _ Hchat) as (H1 & H2 & H3 & H4 & H5).
        rewrite established_failed by exact Hfail.
        split; [exact H1|]. split; [exact H2|]. split; [exact H3|].
        intros _. split; [exact H4|exact H5]. }
    destruct (connectScript w (connectCalls w + k)) as [co o] eqn:Hs.
    simpl in Hok. subst o.
    destruct (chatter_silent _ (chatter_opening w k)) as (O1 & O2 & O3 & O4 & O5).
    destruct co as [c|].
    + destruct (receive_cases (incoming c))
        as [Hall|(pre & r & e & post & Hin & Hpre & He & Hr)].
      * destruct (loopEvents_readings (incoming c)) as (L1 & L2 & L3 & _).
        eexists (k + 1), _, Pending.
        split; [by apply turn_blocks|].
        rewrite signalled_app, spawned_app, posted_app, O1, O2, O3, L1, L2, L3.
        repeat split; try reflexivity; discriminate.
      * destruct (loopEvents_readings pre) as (L1 & L2 & L3 & L4).
        destruct (IH (withConnects (connectCalls w + (k + 1))
                        (trace w ++ opening w k ++ loopEvents pre
                           ++ [EvClose (connID c);
                               EvLog ErrorLevel "%v" [LStr (Error e)]]) w))
          as (n' & evs' & res & Hrun & Q1 & Q2 & Q3 & Hret).
        cbn [connectCalls connectScript trace withConnects] in Hrun, Hret.
        rewrite withConnects_withConnects in Hrun.
        exists (k + 1 + n'),
               ((opening w k ++ loopEvents pre
                 ++ [EvClose (connID c); EvLog ErrorLevel "%v" [LStr (Error e)]])
                ++ evs'), res.
        split.
        { rewrite (turn_reconnects dones w k c pre r e post) by done.
          rewrite Hrun. f_equal. f_equal; [lia|by rewrite <- !app_assoc]. }
        rewrite !signalled_app, !spawned_app, !posted_app,
          O1, O2, O3, L1, L2, L3, Q1, Q2, Q3.
        split; [reflexivity|]. split; [reflexivity|]. split; [reflexivity|].
        intros Hres. destruct (Hret Hres) as [Hclosed Hfwd].
        rewrite !closed_app, !forwarded_app, O4, O5, L4, Hclosed, Hfwd,
          forwarded_loopEvents.
        rewrite (established_app _ _ (k + 1) n'), (established_app _ _ k 1).
        rewrite (established_failed _ (connectCalls w) k Hfail).
        rewrite (established_one _ _ c Hs).
        cbn [app map flat_map]. rewrite Hin, beforeFatal_prefix by done.
        split; [reflexivity|]. by rewrite app_nil_r.
    + eexists (k + 1), _, (Panic _).
      split; [by apply turn_panics|].
      split; [exact O1|]. split; [exact O2|]. split; [exact O3|]. discriminate.
Qed.

End Whole.

(** [runEachRoom] only connects, sleeps, logs, forwards messages and closes
    connections: whatever the streaming client and the connections do and
    however the run ends, it puts nothing on an error channel, starts no
    goroutine and posts no message, and it leaves the clients' scripts and
    the calls of the REST client as they were. *)
Theorem runEachRoom_stays_within_its_room
    (dones : list bool) (ctx : Context) (room : Room) (w : World) :
  exists n evs,
    snd (runEachRoom dones ctx room w)
      = withConnects (connectCalls w + n) (trace w ++ evs) w /\
    signalled evs = [] /\ spawned evs = [] /\ posted evs = [].
Proof.
  destruct (runEachRoom_shape ctx room dones w) as (n & evs & res & Hrun & H1 & H2 & H3 & _).
  exists n, evs. rewrite Hrun. by repeat split.
Qed.

(** When [runEachRoom] returns, the connections it has closed are exactly
    those that the streaming client gave it with a nil error, each closed
    once, in the order in which they were made.  Nothing else is closed: a
    connection that the client gives together with an error is dropped
    without being closed. *)
Theorem runEachRoom_closes_every_connection
    (dones : list bool) (ctx : Context) (room : Room) (w w' : World) :
  runEachRoom dones ctx room w = (Ret tt, w') ->
  exists evs,
    trace w' = trace w ++ evs /\
    closed evs
    = map connID (established (connectScript w) (connectCalls w)
                    (connectCalls w' - connectCalls w)).
Proof.
  intros Hret.
  destruct (runEachRoom_shape ctx room dones w) as (n & evs & res & Hrun & _ & _ & _ & Hok).
  rewrite Hret in Hrun. injection Hrun as <- ->.
  destruct (Hok eq_refl) as [Hclosed _].
  exists evs. split; [reflexivity|]. cbn [connectCalls withConnects].
  replace (connectCalls w + n - connectCalls w) with n by lia. exact Hclosed.
Qed.

(** The first call gives connection 1 together with an error, the second
    gives connection 7: only 7 is closed. *)
Lemma runEachRoom_closes_every_connection_witness :
  connectScript leakyWorld 0 = (Some halfOpen, Some (ErrorString "handshake")) /\
  connectScript leakyWorld 1 = (Some shortLived, None) /\
  exists w' evs,
    runEachRoom [false; true] 0 lobby leakyWorld = (Ret tt, w') /\
    connectCalls w' = 2 /\
    trace w' = evs /\ closed evs = [connID shortLived].
Proof.
  split; [reflexivity|]. split; [reflexivity|]. eexists.
  assert (runEachRoom [false; true] 0 lobby leakyWorld
          = (Ret tt, snd (runEachRoom [false; true] 0 lobby leakyWorld))) as Hret
    by (vm_compute; reflexivity).
  destruct (runEachRoom_closes_every_connection [false; true] 0 lobby leakyWorld _ Hret)
    as (evs & Htrace & Hclosed).
  exists evs. split; [exact Hret|]. split; [vm_compute; reflexivity|].
  split; [exact Htrace|].
  rewrite Hclosed. vm_compute. reflexivity.
Defined.



(** *** Sending several outputs *)

Lemma SendMessage_run ctx output w :
  exists ev,
    SendMessage ctx output w = (Ret tt, record [ev] w) /\
    posted [ev] = match deliverable ctx output with Some m => [m] | None => [] end.
Proof.
  unfold SendMessage, deliverable.
  destruct (Content output) as [|content|r|name];
    try (eexists; split; reflexivity).
  destruct (Destination output) as [|dest|r|name]; eexists; split; reflexivity.
Qed.

(** Outputs given to [SendMessage] one after the other: every call returns
    and leaves one event; the messages posted are those of the outputs with
    a string content and a [*Room] destination, in the order of the outputs,
    a nil [*Room] included. *)
Theorem SendMessage_posts_in_order (ctx : Context) (outputs : list BotOutput) (w : World) :
  exists evs,
    forRange outputs (SendMessage ctx) w = (Ret tt, record evs w) /\
    length evs = length outputs /\
    posted evs = omap (deliverable ctx) outputs.
Proof.
  revert w. induction outputs as [|output outputs IH]; intros w.
  - exists []. by rewrite record_nil.
  - destruct (SendMessage_run ctx output w) as (ev & Hrun & Hposted).
    destruct (IH (record [ev] w)) as (evs & Hrest & Hlen & Hp).
    exists (ev :: evs). split; [|split].
    + cbn [forRange]. erewrite bind_run by exact Hrun. rewrite Hrest.
      by rewrite record_record.
    + simpl. by rewrite Hlen.
    + change (ev :: evs) with ([ev] ++ evs). rewrite posted_app, Hposted, Hp.
      unfold omap. cbn [list_omap]. by destruct (deliverable ctx output).
Qed.

End AdapterFacts.

(** * Properties of the worldweather client *)

Module ClientFacts.
Import WorldWeather RetryFacts.

Section Facts.
Variable Encode : gmap string (list string) -> string.
Variable parseError : string -> option Failure.
Variable requestError : URL -> option Failure.
Variable unmarshalError : string -> option Failure.

Local Abbreviation buildEndpoint' := (buildEndpoint Encode parseError).
Local Abbreviation Get' := (Get Encode parseError requestError unmarshalError).
Local Abbreviation LocalWeather' :=
  (LocalWeather Encode parseError requestError unmarshalError).

Lemma addValue_run p key value v w :
  objects w !! p = Some (Some v) ->
  addValue p key value w = (Ret tt, set_objects <[p := Some (Add key value v)]> w).
Proof. intros Hp. unfold addValue. by rewrite Hp. Qed.

Lemma buildEndpoint_run client cfg apiType p v w :
  config client = Some cfg ->
  objects w !! p = Some (Some v) ->
  parseError (endpointFor apiType) = None ->
  buildEndpoint' client apiType (Some p) w
  = (Ret {| location := endpointFor apiType; RawQuery := Encode (signedParams cfg v) |},
     set_objects <[p := Some (signedParams cfg v)]> w).
Proof.
  intros Hcfg Hp Hparse. unfold buildEndpoint. rewrite Hcfg, Hparse.
  erewrite bind_run by reflexivity.
  erewrite bind_run by (by apply addValue_run).
  erewrite bind_run by (apply addValue_run; cbn [objects set_objects]; apply lookup_insert_eq).
  erewrite bind_run by reflexivity.
  cbn [objects set_objects]. rewrite lookup_insert_eq.
  unfold signedParams, ret, mret, M_ret. f_equal.
  unfold set_objects. cbn [objects decoded nextObject answers requests trace].
  by rewrite !insert_insert_eq.
Qed.

(** All that a call of [Get] with usable arguments can do. *)
Lemma Get_steps client cfg apiType p v data w :
  config client = Some cfg ->
  objects w !! p = Some (Some v) ->
  parseError (endpointFor apiType) = None ->
  let u := {| location := endpointFor apiType; RawQuery := Encode (signedParams cfg v) |} in
  exists res evs w',
    Get' client apiType (Some p) data w = (Ret res, w') /\
    trace w' = trace w ++ evs /\
    objects w' = <[p := Some (signedParams cfg v)]> (objects w) /\
    nextObject w' = nextObject w /\ answers w' = answers w /\
    match requestError u with
    | Some e =>
        evs = [] /\ requests w' = requests w /\ decoded w' = decoded w /\
        res = Some (Wrap "failed to build request" e)
    | None =>
        requested evs = [u] /\ requests w' = S (requests w) /\
        match answers w (requests w) with
        | NoAnswer e =>
            bodyCloses evs = 0 /\ decoded w' = decoded w /\
            res = Some (Wrap ("failed on GET request for " +:+ apiType) e)
        | Response status body =>
            bodyCloses evs = 1 /\ last evs = Some EvBodyClose /\
            match res with
            | None =>
                status = 200 /\
                exists bytes, body = BodyOk bytes /\ unmarshalError bytes = None /\
                              decoded w' = <[data := bytes]> (decoded w)
            | Some f =>
                decoded w' = decoded w /\
                (status <> 200 /\ f = BadStatus status \/
                 status = 200 /\
                 ((exists e, body = BodyErr e /\ f = Wrap "failed to read response" e) \/
                  (exists bytes e, body = BodyOk bytes /\ unmarshalError bytes = Some e /\
                                   f = Wrap "failed to parse returned json data" e)))
            end
        end
    end.
Proof.
  intros Hcfg Hp Hparse u. unfold Get.
  erewrite bind_run by (by apply buildEndpoint_run). fold u.
  destruct (requestError u) as [e|] eqn:Hreq.
  { eexists _, [], _. split; [reflexivity|]. cbn [trace set_objects].
    rewrite app_nil_r. by repeat split. }
  erewrite bind_run by reflexivity. cbn [answers requests set_objects].
  destruct (answers w (requests w)) as [e|status body].
  { eexists _, [EvDo u], _. split; [reflexivity|]. by repeat split. }
  unfold readResponse.
  destruct (Nat.eqb status 200) eqn:Hstatus; cbn [negb].
  - apply Nat.eqb_eq in Hstatus. destruct body as [bytes|e].
    + cbv [mbind M_bind emit modify ret mret M_ret].
      destruct (unmarshalError bytes) as [e|] eqn:Hu.
      * eexists _, [EvDo u; EvReadAll; EvUnmarshal bytes; EvBodyClose], _.
        split; [reflexivity|]. cbn [trace record set_objects set_decoded].
        rewrite <- !app_assoc.
        repeat split; try reflexivity. right. split; [done|]. right. by eexists _, _.
      * eexists _, [EvDo u; EvReadAll; EvUnmarshal bytes; EvBodyClose], _.
        split; [reflexivity|]. cbn [trace record set_objects set_decoded].
        rewrite <- !app_assoc.
        repeat split; try reflexivity; try done. by eexists.
    + eexists _, [EvDo u; EvReadAll; EvBodyClose], _.
      split; [reflexivity|]. cbn [trace record set_objects set_decoded].
      rewrite <- !app_assoc.
      repeat split; try reflexivity. right. split; [done|]. left. by eexists.
  - apply Nat.eqb_neq in Hstatus.
    eexists _, [EvDo u; EvBodyClose], _.
    split; [reflexivity|]. cbn [trace record set_objects set_decoded].
    rewrite <- !app_assoc.
    repeat split; try reflexivity. by left.
Qed.

(** [Get] closes the body of every response it obtains, once and as the
    last thing it does, whatever the status and whether or not the body can
    be read and parsed; it makes one HTTP request if the request can be
    built and none otherwise, and without a response it closes nothing. *)
Theorem Get_closes_every_response_body client cfg apiType p v data w :
  config client = Some cfg ->
  objects w !! p = Some (Some v) ->
  parseError (endpointFor apiType) = None ->
  let u := {| location := endpointFor apiType; RawQuery := Encode (signedParams cfg v) |} in
  exists res evs w',
    Get' client apiType (Some p) data w = (Ret res, w') /\
    trace w' = trace w ++ evs /\
    requested evs = match requestError u with None => [u] | Some _ => [] end /\
    bodyCloses evs = match requestError u, answers w (requests w) with
                     | None, Response _ _ => 1
                     | _, _ => 0
                     end /\
    (bodyCloses evs = 1 -> last evs = Some EvBodyClose).
Proof.
  intros Hcfg Hp Hparse u.
  destruct (Get_steps client cfg apiType p v data w Hcfg Hp Hparse)
    as (res & evs & w' & Hrun & Htrace & _ & _ & _ & Hcases).
  fold u in Hcases. exists res, evs, w'. split; [exact Hrun|]. split; [exact Htrace|].
  destruct (requestError u) as [e|].
  - destruct Hcases as (-> & _). by repeat split.
  - destruct Hcases as (Hreq & _ & Hanswer). split; [exact Hreq|].
    destruct (answers w (requests w)) as [e|status body].
    + destruct Hanswer as (-> & _). split; [reflexivity|discriminate].
    + destruct Hanswer as (-> & Hlast & _). by split.
Qed.

(** [Get] returns nil exactly when the request could be built, the answer
    has status 200, its body could be read and the body parsed; then the
    body has been decoded into [data].  In every other case it returns an
    error that tells the failed step and wraps the error of that step. *)
Theorem Get_succeeds_exactly_on_a_parsed_200 client cfg apiType p v data w :
  config client = Some cfg ->
  objects w !! p = Some (Some v) ->
  parseError (endpointFor apiType) = None ->
  let u := {| location := endpointFor apiType; RawQuery := Encode (signedParams cfg v) |} in
  exists res w',
    Get' client apiType (Some p) data w = (Ret res, w') /\
    (res = None <->
     requestError u = None /\
     exists bytes, answers w (requests w) = Response 200 (BodyOk bytes) /\
                   unmarshalError bytes = None) /\
    (res = None -> exists bytes, answers w (requests w) = Response 200 (BodyOk bytes) /\
                                 decoded w' = <[data := bytes]> (decoded w)) /\
    (forall f, res = Some f ->
       ((exists e, requestError u = Some e /\ f = Wrap "failed to build request" e) \/
        (exists e, answers w (requests w) = NoAnswer e /\
                   f = Wrap ("failed on GET request for " +:+ apiType) e) \/
        (exists status body, answers w (requests w) = Response status body /\
                             status <> 200 /\ f = BadStatus status) \/
        (exists e, answers w (requests w) = Response 200 (BodyErr e) /\
                   f = Wrap "failed to read response" e) \/
        (exists bytes e, answers w (requests w) = Response 200 (BodyOk bytes) /\
                         unmarshalError bytes = Some e /\
                         f = Wrap "failed to parse returned json data" e))).
Proof.
  intros Hcfg Hp Hparse u.
  destruct (Get_steps client cfg apiType p v data w Hcfg Hp Hparse)
    as (res & evs & w' & Hrun & _ & _ & _ & _ & Hcases).
  fold u in Hcases. exists res, w'. split; [exact Hrun|].
  destruct (requestError u) as [e|].
  { destruct Hcases as (_ & _ & Hd & ->).
    split; [split; [discriminate|by intros [? _]]|]. split; [discriminate|].
    intros f [= <-]. left. by eexists. }
  destruct Hcases as (_ & _ & Hanswer).
  destruct (answers w (requests w)) as [e|status body].
  { destruct Hanswer as (_ & Hd & ->).
    split; [split; [discriminate|by intros (_ & ? & ? & _)]|]. split; [discriminate|].
    intros f [= <-]. right. left. by eexists. }
  destruct Hanswer as (_ & _ & Hres). destruct res as [f|].
  - destruct Hres as (Hd & Hwhy).
    split; [split; [discriminate|]|].
    + intros (_ & bytes & [= -> ->] & Hu).
      destruct Hwhy as [[Hne _]|(_ & [(e & [=] & _)|(b & e & [= <-] & Hu' & _)])];
        [done|congruence].
    + split; [discriminate|]. intros f' [= <-].
      destruct Hwhy as [[Hne ->]|(-> & [(e & -> & ->)|(b & e & -> & Hu & ->)])].
      * right. right. left. by eexists _, _.
      * right. right. right. left. by eexists.
      * right. right. right. right. by eexists _, _.
  - destruct Hres as (-> & bytes & -> & Hu & Hd).
    split; [split; [|done]|].
    + intros _. split; [done|]. by exists bytes.
    + split; [|discriminate]. intros _. by exists bytes.
Qed.

Lemma signedParams_key cfg v :
  signedParams cfg v !! "key" = Some (default [] (v !! "key") ++ [apiKey cfg]).
Proof.
  unfold signedParams, Add.
  rewrite lookup_insert_ne by discriminate. apply lookup_insert_eq.
Qed.

Lemma signedParams_format cfg v :
  signedParams cfg v !! "format" = Some (default [] (v !! "format") ++ ["json"]).
Proof.
  unfold signedParams, Add. rewrite lookup_insert_eq.
  by rewrite lookup_insert_ne by discriminate.
Qed.

Lemma signedParams_other cfg v k :
  k <> "key" -> k <> "format" -> signedParams cfg v !! k = v !! k.
Proof.
  intros Hk Hf. unfold signedParams, Add.
  by rewrite !lookup_insert_ne by congruence.
Qed.

(** [Get] changes the [url.Values] that its caller passes by pointer: when
    it returns, whether with nil or with an error, the caller's values hold
    the API key appended under ["key"] and ["json"] appended under
    ["format"]; their other keys, and all other values, are as before. *)
Theorem Get_adds_key_and_format_to_callers_values client cfg apiType p v data w :
  config client = Some cfg ->
  objects w !! p = Some (Some v) ->
  parseError (endpointFor apiType) = None ->
  exists res w' v',
    Get' client apiType (Some p) data w = (Ret res, w') /\
    objects w' !! p = Some (Some v') /\
    v' !! "key" = Some (default [] (v !! "key") ++ [apiKey cfg]) /\
    v' !! "format" = Some (default [] (v !! "format") ++ ["json"]) /\
    (forall k, k <> "key" -> k <> "format" -> v' !! k = v !! k) /\
    (forall q, q <> p -> objects w' !! q = objects w !! q).
Proof.
  intros Hcfg Hp Hparse.
  destruct (Get_steps client cfg apiType p v data w Hcfg Hp Hparse)
    as (res & evs & w' & Hrun & _ & Hobjects & _).
  exists res, w', (signedParams cfg v). split; [exact Hrun|].
  rewrite Hobjects. split; [apply lookup_insert_eq|].
  split; [apply signedParams_key|]. split; [apply signedParams_format|].
  split; [intros k; apply signedParams_other|].
  intros q Hq. by rewrite lookup_insert_ne.
Qed.

(** Calls of [Get] that are given the same [url.Values] pile the key and
    the format up: after n calls the values hold n more copies of the API
    key under ["key"] and n more of ["json"] under ["format"], whatever the
    calls returned. *)
Theorem repeated_Get_piles_up_key_and_format client cfg apiTypes p data : forall v w,
  config client = Some cfg ->
  objects w !! p = Some (Some v) ->
  (forall apiType, apiType ∈ apiTypes -> parseError (endpointFor apiType) = None) ->
  exists w' v',
    forRange apiTypes
      (fun apiType => _ ← Get' client apiType (Some p) data; ret tt) w
    = (Ret tt, w') /\
    objects w' !! p = Some (Some v') /\
    default [] (v' !! "key")
    = default [] (v !! "key") ++ replicate (length apiTypes) (apiKey cfg) /\
    default [] (v' !! "format")
    = default [] (v !! "format") ++ replicate (length apiTypes) "json" /\
    (forall k, k <> "key" -> k <> "format" -> v' !! k = v !! k).
Proof.
  intros v w Hcfg. revert v w.
  induction apiTypes as [|apiType rest IH]; intros v w Hp Hparse.
  - exists w, v. split; [reflexivity|]. split; [exact Hp|].
    cbn [length replicate]. by rewrite !app_nil_r.
  - destruct (Get_steps client cfg apiType p v data w Hcfg Hp) as
      (res & evs & w1 & Hrun & _ & Hobjects & _).
    { apply Hparse. left. }
    destruct (IH (signedParams cfg v) w1) as (w' & v' & Hrest & Hp' & Hkey & Hformat & Hother).
    { rewrite Hobjects. apply lookup_insert_eq. }
    { intros a Ha. apply Hparse. by right. }
    exists w', v'. split.
    { cbn [forRange].
      erewrite bind_run; [exact Hrest|].
      erewrite bind_run by exact Hrun. reflexivity. }
    split; [exact Hp'|].
    rewrite Hkey, Hformat, signedParams_key, signedParams_format.
    unfold default. cbn [from_option id length replicate]. rewrite <- !app_assoc.
    split; [reflexivity|]. split; [reflexivity|].
    intros k Hk Hf. rewrite Hother by done. by apply signedParams_other.
Qed.


Lemma buildEndpoint_panics client apiType queryParams w :
  config client = None \/
  (exists p, queryParams = Some p /\ objects w !! p = Some None) \/
  is_Some (parseError (endpointFor apiType)) ->
  exists msg w',
    buildEndpoint' client apiType queryParams w = (Panic msg, w') /\
    requests w' = requests w /\ trace w' = trace w /\ decoded w' = decoded w.
Proof.
  intros Hwhy. unfold buildEndpoint.
  destruct (config client) as [cfg|] eqn:Hcfg.
  2: { destruct queryParams; eexists _, _; (split; [reflexivity|]); done. }
  destruct queryParams as [p|].
  - erewrite bind_run by reflexivity.
    destruct (objects w !! p) as [[v|]|] eqn:Hp.
    + destruct Hwhy as [[=]|[(p' & [= <-] & Hnil)|[e Hparse]]]; [congruence|].
      rewrite Hparse.
      erewrite bind_run by (by apply addValue_run).
      erewrite bind_run
        by (apply addValue_run; cbn [objects set_objects]; apply lookup_insert_eq).
      by eexists _, _.
    + erewrite bind_panic; [by eexists _, _|]. unfold addValue. by rewrite Hp.
    + erewrite bind_panic; [by eexists _, _|]. unfold addValue. by rewrite Hp.
  - destruct Hwhy as [[=]|[(p' & [=] & _)|[e Hparse]]]. rewrite Hparse.
    erewrite bind_run by reflexivity.
    erewrite bind_run
      by (apply (addValue_run _ _ _ ∅); cbn [objects]; apply lookup_insert_eq).
    erewrite bind_run
      by (apply addValue_run; cbn [objects set_objects]; apply lookup_insert_eq).
    by eexists _, _.
Qed.

(** [Get] panics, before it makes any request, when the client has no
    configuration, when the [url.Values] it is given is a nil map, and when
    the endpoint does not parse as a URL. *)
Theorem Get_panics_before_any_request client apiType queryParams data w :
  config client = None \/
  (exists p, queryParams = Some p /\ objects w !! p = Some None) \/
  is_Some (parseError (endpointFor apiType)) ->
  exists msg w',
    Get' client apiType queryParams data w = (Panic msg, w') /\
    requests w' = requests w /\ trace w' = trace w /\ decoded w' = decoded w.
Proof.
  intros Hwhy.
  destruct (buildEndpoint_panics client apiType queryParams w Hwhy)
    as (msg & w' & Hrun & Hsame).
  exists msg, w'. split; [|exact Hsame].
  unfold Get. by erewrite bind_panic by exact Hrun.
Qed.

End Facts.

Lemma Get_closes_every_response_body_witness :
  exists res evs w',
    Get (fun _ => "q=Tokyo") (fun _ => None) (fun _ => None) (fun _ => None)
      sampleClient "weather" (Some 0) 5 sampleWorld = (Ret res, w') /\
    trace w' = evs /\ bodyCloses evs = 1 /\ last evs = Some EvBodyClose.
Proof.
  destruct (Get_closes_every_response_body (fun _ => "q=Tokyo") (fun _ => None)
              (fun _ => None) (fun _ => None) sampleClient (NewConfig "secret")
              "weather" 0 {[ "q" := ["Tokyo"] ]} 5 sampleWorld eq_refl eq_refl eq_refl)
    as (res & evs & w' & Hrun & Htrace & _ & Hcloses & Hlast).
  exists res, evs, w'. split; [exact Hrun|]. split; [exact Htrace|].
  split; [exact Hcloses|]. apply Hlast. exact Hcloses.
Defined.

Lemma Get_succeeds_exactly_on_a_parsed_200_witness :
  exists w',
    Get (fun _ => "q=Tokyo") (fun _ => None) (fun _ => None) (fun _ => None)
      sampleClient "weather" (Some 0) 5 sampleWorld = (Ret None, w') /\
    decoded w' = {[ 5 := "{}" ]}.
Proof.
  destruct (Get_succeeds_exactly_on_a_parsed_200 (fun _ => "q=Tokyo") (fun _ => None)
              (fun _ => None) (fun _ => None) sampleClient (NewConfig "secret")
              "weather" 0 {[ "q" := ["Tokyo"] ]} 5 sampleWorld eq_refl eq_refl eq_refl)
    as (res & w' & Hrun & Hiff & Hdec & _).
  assert (res = None) as ->.
  { apply Hiff. split; [reflexivity|]. by exists "{}". }
  exists w'. split; [exact Hrun|].
  destruct (Hdec eq_refl) as (bytes & Hanswer & ->).
  injection Hanswer as <-. reflexivity.
Defined.

Lemma Get_adds_key_and_format_to_callers_values_witness :
  exists res w' v',
    Get (fun _ => "q=Tokyo") (fun _ => None) (fun _ => None) (fun _ => None)
      sampleClient "weather" (Some 0) 5 sampleWorld = (Ret res, w') /\
    objects w' !! 0 = Some (Some v') /\
    v' !! "key" = Some ["secret"] /\ v' !! "format" = Some ["json"] /\
    v' !! "q" = Some ["Tokyo"].
Proof.
  destruct (Get_adds_key_and_format_to_callers_values (fun _ => "q=Tokyo")
              (fun _ => None) (fun _ => None) (fun _ => None) sampleClient
              (NewConfig "secret") "weather" 0 {[ "q" := ["Tokyo"] ]} 5 sampleWorld
              eq_refl eq_refl eq_refl)
    as (res & w' & v' & Hrun & Hp & Hkey & Hformat & Hother & _).
  exists res, w', v'. split; [exact Hrun|]. split; [exact Hp|].
  split; [exact Hkey|]. split; [exact Hformat|].
  rewrite (Hother "q"); [reflexivity|discriminate|discriminate].
Defined.

Lemma repeated_Get_piles_up_key_and_format_witness :
  exists w' v',
    forRange ["weather"; "weather"; "weather"]
      (fun apiType =>
         _ ← Get (fun _ => "q=Tokyo") (fun _ => None) (fun _ => None) (fun _ => None)
               sampleClient apiType (Some 0) 5;
         ret tt) sampleWorld = (Ret tt, w') /\
    objects w' !! 0 = Some (Some v') /\
    default [] (v' !! "key") = ["secret"; "secret"; "secret"] /\
    default [] (v' !! "format") = ["json"; "json"; "json"].
Proof.
  destruct (repeated_Get_piles_up_key_and_format (fun _ => "q=Tokyo") (fun _ => None)
              (fun _ => None) (fun _ => None) sampleClient (NewConfig "secret")
              ["weather"; "weather"; "weather"] 0 5 {[ "q" := ["Tokyo"] ]} sampleWorld
              eq_refl eq_refl (fun _ _ => eq_refl))
    as (w' & v' & Hrun & Hp & Hkey & Hformat & _).
  exists w', v'. split; [exact Hrun|]. split; [exact Hp|].
  split; [exact Hkey|exact Hformat].
Defined.


Lemma Get_panics_before_any_request_witness :
  exists msg w',
    Get (fun _ => "q=Tokyo") (fun _ => None) (fun _ => None) (fun _ => None)
      (NewClient None) "weather" (Some 0) 5 sampleWorld = (Panic msg, w') /\
    requests w' = 0 /\ trace w' = [].
Proof.
  destruct (Get_panics_before_any_request (fun _ => "q=Tokyo") (fun _ => None)
              (fun _ => None) (fun _ => None) (NewClient None) "weather" (Some 0) 5
              sampleWorld (or_introl eq_refl))
    as (msg & w' & Hrun & Hrequests & Htrace & _).
  exists msg, w'. split; [exact Hrun|]. split; [exact Hrequests|exact Htrace].
Defined.

End ClientFacts.
